(** * A shallow embedding of the FX backtesting engine

    The development follows the C++ sources:

    - [Double]     : IEEE-754 binary64 arithmetic as the code uses it
                     ([double], [std::isnan], [std::min], [std::max]);
    - [Flow]       : [flow.hpp], [symbology.hpp], [market_data.hpp];
    - [Risk]       : [risk.hpp] and [simple_risk_model.cpp];
    - [LPSim]      : [internal/lp_sim.cpp];
    - [EventLoop]  : [internal/event_loop.cpp];
    - [Pub]        : [internal/pub_internal.hpp] ([DirectConsumer]);
    - [Replayer]   : [internal/market_data_replayer.cpp].

    Doubles are the [spec_float] values of the standard library with the
    binary64 parameters, so that NaN, infinities, signed zeros and rounding
    behave as they do in the compiled program.  [TimestampNs] is a signed
    64-bit [std::chrono::nanoseconds]; signed overflow is undefined in C++
    and the model works in [Z] on the defined part.  [OrderId] is a
    [uint64_t] and wraps. *)

From Stdlib Require Import ZArith List Bool Lia Sorted.
From Stdlib Require Import Floats.SpecFloat.
From stdpp Require Import gmap strings list.

Local Open Scope Z_scope.

(** ** binary64 *)

Module Double.

Definition prec : Z := 53.
Definition emax : Z := 1024.

Definition double : Type := spec_float.

Definition add : double -> double -> double := SFadd prec emax.
Definition sub : double -> double -> double := SFsub prec emax.
Definition mul : double -> double -> double := SFmul prec emax.
Definition div : double -> double -> double := SFdiv prec emax.
Definition opp : double -> double := SFopp.

(** [x < y], [x <= y], [x > y], [x >= y] of C++; all false on NaN. *)
Definition ltb (x y : double) : bool := SFltb x y.
Definition leb (x y : double) : bool := SFleb x y.
Definition gtb (x y : double) : bool := SFltb y x.
Definition geb (x y : double) : bool := SFleb y x.

(** [std::isnan] *)
Definition isnan (x : double) : bool :=
  match x with S754_nan => true | _ => false end.

(** Conversion of an [int] operand in mixed arithmetic. *)
Definition of_int (z : Z) : double := binary_normalize prec emax z 0 false.

Definition zero : double := S754_zero false.
Definition quiet_NaN : double := S754_nan.
Definition infinity : double := S754_infinity false.

(** [std::min(a, b)] is [(b < a) ? b : a]; [std::max(a, b)] is
    [(a < b) ? b : a]. *)
Definition std_min (a b : double) : double := if ltb b a then b else a.
Definition std_max (a b : double) : double := if ltb a b then b else a.

(** The literal [1e-8], i.e. [0x1.5798ee2308c3ap-27]. *)
Definition lit_1e_8 : double := S754_finite false 6044629098073146 (-79).

(** A positive finite literal [m * 2^e]. *)
Definition lit (m : positive) (e : Z) : double := S754_finite false m e.

End Double.

(** ** flow.hpp, symbology.hpp, market_data.hpp *)

Module Flow.
Import Double.

Definition Symbol : Type := string.
Definition Asset : Type := string.

Inductive Side := Buy | Sell.
Inductive DoneStatus := Done | Rejected | InternalReject.
Inductive TIF := GTC | IOC.

Definition OrderId : Type := Z.
Definition Price : Type := double.
Definition Quantity : Type := double.
Definition Position : Type := double.
Definition TimestampNs : Type := Z.

(** [std::numeric_limits<uint64_t>] modulus for [OrderId]. *)
Definition OrderId_modulus : Z := 2 ^ 64.

(** [TimestampNs::max()] *)
Definition TimestampNs_max : Z := 2 ^ 63 - 1.

Definition sideToSign (side : Side) : Z :=
  match side with Buy => 1 | Sell => -1 end.

Definition TIF_eqb (a b : TIF) : bool :=
  match a, b with GTC, GTC | IOC, IOC => true | _, _ => false end.

Definition Side_eqb (a b : Side) : bool :=
  match a, b with Buy, Buy | Sell, Sell => true | _, _ => false end.

Record TopOfBook := mkTopOfBook {
  bidSize : double;
  bidPrice : double;
  askSize : double;
  askPrice : double
}.

(** [symbol.substr(0, 3)] never throws. *)
Definition getBaseAsset (symbol : Symbol) : Asset :=
  String.substring 0 3 symbol.

(** [symbol.substr(4, 3)] throws [std::out_of_range] when the symbol has
    fewer than four characters. *)
Definition getQuoteAsset (symbol : Symbol) : option Asset :=
  if (String.length symbol <? 4)%nat then None
  else Some (String.substring 4 3 symbol).

End Flow.

(** ** risk.hpp and simple_risk_model.cpp *)

Module Risk.
Import Double Flow.

(** [pub::CacheSubscriber<md::TopOfBook>]: topic to the record the cached
    pointer designates. *)
Abbreviation TopOfBookCache := (gmap string TopOfBook).

Definition getCachedRecord (cache : TopOfBookCache) (topic : string)
  : option TopOfBook := cache !! topic.

Definition getFairPrice (cache : TopOfBookCache) (asset : Asset) : Price :=
  if String.eqb asset "USD" then of_int 1
  else
    match getCachedRecord cache (asset +:+ "/USD") with
    | Some it => div (add (bidPrice it) (askPrice it)) (of_int 2)
    | None =>
        match getCachedRecord cache ("USD/" +:+ asset) with
        | Some it => div (of_int 2) (add (bidPrice it) (askPrice it))
        | None => quiet_NaN
        end
    end.

(** The positions container is iterated in its own order; an association
    list keeps that order, on which the rounded sums depend. *)
Definition Positions : Type := list (Asset * Position).

Definition getPnL (cache : TopOfBookCache) (positions : Positions)
  : Quantity :=
  fold_left
    (fun pnl entry => add pnl (mul (snd entry) (getFairPrice cache (fst entry))))
    positions zero.

Definition nop_step (cache : TopOfBookCache) (acc : Quantity * Quantity)
  (entry : Asset * Position) : Quantity * Quantity :=
  let '(longs, shorts) := acc in
  let asset := fst entry in
  let position := snd entry in
  if geb position zero
  then (add longs (mul position (getFairPrice cache asset)), shorts)
  else (longs, sub shorts (mul position (getFairPrice cache asset))).

Definition getNOP (cache : TopOfBookCache) (positions : Positions)
  : Quantity :=
  let '(longs, shorts) := fold_left (nop_step cache) positions (zero, zero) in
  std_max longs shorts.

End Risk.

(** ** internal/lp_sim.cpp *)

Module LPSim.
Import Double Flow Risk.

Record Settings := mkSettings {
  inboundDelay : TimestampNs;
  outboundDelay : TimestampNs;
  minOrderGap : TimestampNs;
  maxNOP : Quantity
}.

Record Order := mkOrder {
  orderId : OrderId;
  side : Side;
  price : Price;
  qty : Quantity;
  tif : TIF
}.

(** [LPSim::Impl].  [m_eventTime] is what [m_eventDispatcher.getEventTime()]
    returns at the moment of the call; [m_tobCache] is read through by the
    risk model. *)
Record Impl := mkImpl {
  m_eventTime : TimestampNs;
  m_tobCache : gmap string TopOfBook;
  m_positions : Positions;
  m_settings : Settings;
  m_lastOrderId : OrderId
}.

(** [ExecutorImpl].  [m_basePosition] and [m_quotePosition] are references
    into [m_positions], reached here through the asset keys, so that a
    symbol whose base and quote coincide aliases one slot as it does in the
    program.  [m_book] is the cached pointer with the record it designates
    at the time of the call; [None] is [nullptr]. *)
Record ExecutorImpl := mkExecutorImpl {
  m_symbol : Symbol;
  m_baseAsset : Asset;
  m_quoteAsset : Asset;
  m_book : option TopOfBook;
  m_lastOrderSendTime : TimestampNs
}.

(** The closures handed to [postEvent]. *)
Inductive Event :=
| EvProcess (order : Order)
| EvFill (id : OrderId) (dealt contra : Quantity)
| EvOrderDone (id : OrderId) (status : DoneStatus).

(** Calls made on the observer and on the positions publisher. *)
Inductive Call :=
| onAck (symbol : Symbol) (id : OrderId) (s : Side) (p : Price)
    (q : Quantity) (t : TIF)
| onFill (symbol : Symbol) (id : OrderId) (dealt contra : Quantity)
| onTerminated (symbol : Symbol) (id : OrderId) (status : DoneStatus)
| publishPosition (asset : Asset) (value : option Position)
| endBatch.

(** A posted event with its delay. *)
Definition Posted : Type := TimestampNs * Event.

Definition isPriceImprovementEnabled : bool := true.
Definition getInboundDelay (svc : Impl) := inboundDelay (m_settings svc).
Definition getOutboundDelay (svc : Impl) := outboundDelay (m_settings svc).
Definition getMinOrderGap (svc : Impl) := minOrderGap (m_settings svc).
Definition getMaxNOP (svc : Impl) := maxNOP (m_settings svc).
Definition getEventTime (svc : Impl) := m_eventTime svc.

Definition getNOP (svc : Impl) : Quantity :=
  Risk.getNOP (m_tobCache svc) (m_positions svc).

(** [++m_lastOrderId] on a [uint64_t]. *)
Definition getNextOrderId (svc : Impl) : Impl * OrderId :=
  let next := (m_lastOrderId svc + 1) mod OrderId_modulus in
  (mkImpl (m_eventTime svc) (m_tobCache svc) (m_positions svc)
          (m_settings svc) next,
   next).

(** Read and write a position slot through its reference. *)
Fixpoint lookupPosition (asset : Asset) (ps : Positions) : option Position :=
  match ps with
  | [] => None
  | (k, v) :: rest =>
      if String.eqb k asset then Some v else lookupPosition asset rest
  end.

Fixpoint alterPosition (f : Position -> Position) (asset : Asset)
  (ps : Positions) : Positions :=
  match ps with
  | [] => []
  | (k, v) :: rest =>
      if String.eqb k asset then (k, f v) :: rest
      else (k, v) :: alterPosition f asset rest
  end.

Definition withPositions (svc : Impl) (ps : Positions) : Impl :=
  mkImpl (m_eventTime svc) (m_tobCache svc) ps (m_settings svc)
         (m_lastOrderId svc).

(** [slot += d] and [slot -= d] *)
Definition addPosition (asset : Asset) (d : Quantity) (svc : Impl) : Impl :=
  withPositions svc (alterPosition (fun p => add p d) asset (m_positions svc)).

Definition subPosition (asset : Asset) (d : Quantity) (svc : Impl) : Impl :=
  withPositions svc (alterPosition (fun p => sub p d) asset (m_positions svc)).

(** [m_positions[asset]]: the slot is created with value 0 when absent.
    Where a new key lands in the iteration order of an [unordered_map] is
    up to the implementation; the model appends it. *)
Definition getPosition (asset : Asset) (svc : Impl) : Impl :=
  match lookupPosition asset (m_positions svc) with
  | Some _ => svc
  | None => withPositions svc (m_positions svc ++ [(asset, zero)])
  end.

(** The constructor of [ExecutorImpl]. *)
Definition createExecutor (svc : Impl) (symbol : Symbol)
  : option (Impl * ExecutorImpl) :=
  let base := getBaseAsset symbol in
  match getQuoteAsset symbol with
  | None => None
  | Some quote =>
      let svc1 := getPosition base svc in
      let svc2 := getPosition quote svc1 in
      Some (svc2, mkExecutorImpl symbol base quote None 0)
  end.

Definition withBook (ex : ExecutorImpl) (book : option TopOfBook)
  : ExecutorImpl :=
  mkExecutorImpl (m_symbol ex) (m_baseAsset ex) (m_quoteAsset ex) book
                 (m_lastOrderSendTime ex).

Definition withLastOrderSendTime (ex : ExecutorImpl) (t : TimestampNs)
  : ExecutorImpl :=
  mkExecutorImpl (m_symbol ex) (m_baseAsset ex) (m_quoteAsset ex) (m_book ex) t.

Definition sendOrder (svc : Impl) (ex : ExecutorImpl)
  (side : Side) (price : Price) (qty : Quantity) (tif : TIF)
  : Impl * ExecutorImpl * list Posted * OrderId :=
  let ex1 :=
    match m_book ex with
    | None => withBook ex (getCachedRecord (m_tobCache svc) (m_symbol ex))
    | Some _ => ex
    end in
  let '(svc1, orderId) := getNextOrderId svc in
  (svc1, ex1,
   [(getInboundDelay svc1, EvProcess (mkOrder orderId side price qty tif))],
   orderId).

Definition validateOrder (svc : Impl) (ex : ExecutorImpl) (order : Order)
  : bool :=
  match m_book ex with Some _ => true | None => false end
  && TIF_eqb (tif order) IOC
  && gtb (qty order) zero
  && (getEventTime svc - m_lastOrderSendTime ex >=? getMinOrderGap svc).

Definition ackOrder (ex : ExecutorImpl) (order : Order) : list Call :=
  [onAck (m_symbol ex) (orderId order) (side order) (price order)
         (qty order) (tif order)].

Definition validateNOPChange (svc : Impl) (ex : ExecutorImpl)
  (dealt contra : Quantity) : Impl * bool :=
  if isnan dealt || isnan contra then (svc, false)
  else
    let currentNOP := getNOP svc in
    let svc1 := addPosition (m_baseAsset ex) dealt svc in
    let svc2 := addPosition (m_quoteAsset ex) contra svc1 in
    let newNOP := getNOP svc2 in
    let svc3 := subPosition (m_baseAsset ex) dealt svc2 in
    let svc4 := subPosition (m_quoteAsset ex) contra svc3 in
    (svc4, ltb newNOP currentNOP || leb newNOP (getMaxNOP svc4)).

Definition enqueueFill (svc : Impl) (id : OrderId) (dealt contra : Quantity)
  : list Posted :=
  [(getOutboundDelay svc, EvFill id dealt contra)].

Definition enqueOrderDone (svc : Impl) (order : Order) (status : DoneStatus)
  : list Posted :=
  [(getOutboundDelay svc, EvOrderDone (orderId order) status)].

Definition priceTolerance : Price := lit_1e_8.

(** The two locals of [agress]. *)
Definition matchedPrice (order : Order) (topPrice : Price) : Price :=
  if isnan (price order) || isPriceImprovementEnabled then topPrice
  else price order.

Definition matchedQty (order : Order) (qtyAtTop : Quantity) : Quantity :=
  std_min qtyAtTop (qty order).

(** The first test of [agress]: the order does not cross. *)
Definition doesNotCross (order : Order) (topPrice : Price) : bool :=
  let sideSign := sideToSign (side order) in
  isnan topPrice
  || ltb (mul (price order) (of_int sideSign))
         (sub (mul topPrice (of_int sideSign)) priceTolerance).

Definition agress (svc : Impl) (ex : ExecutorImpl) (order : Order)
  (qtyAtTop : Quantity) (topPrice : Price)
  : Impl * list Posted * DoneStatus :=
  let sideSign := sideToSign (side order) in
  if doesNotCross order topPrice then (svc, [], Done)
  else
    let matchedPrice := matchedPrice order topPrice in
    let matchedQty := matchedQty order qtyAtTop in
    if gtb matchedQty zero then
      let dealt := mul (of_int sideSign) matchedQty in
      let contra := mul (opp dealt) matchedPrice in
      let '(svc1, ok) := validateNOPChange svc ex dealt contra in
      if negb ok then (svc1, [], InternalReject)
      else (svc1, enqueueFill svc1 (orderId order) dealt contra, Done)
    else (svc, [], Done).

(** The side of the book an order meets: the ask for a buy, the bid for a
    sell. *)
Definition qtyAtTop (order : Order) (book : TopOfBook) : Quantity :=
  if Side_eqb (side order) Buy then askSize book else bidSize book.

Definition topPrice (order : Order) (book : TopOfBook) : Price :=
  if Side_eqb (side order) Buy then askPrice book else bidPrice book.

(** What [process] leaves behind. *)
Record Outcome := mkOutcome {
  out_service : Impl;
  out_executor : ExecutorImpl;
  out_calls : list Call;
  out_posted : list Posted
}.

Definition process (svc : Impl) (ex : ExecutorImpl) (order : Order)
  : Outcome :=
  let calls := ackOrder ex order in
  if validateOrder svc ex order then
    let ex1 := withLastOrderSendTime ex (getEventTime svc) in
    match m_book ex1 with
    | Some book =>
        let qtyAtTop := qtyAtTop order book in
        let topPrice := topPrice order book in
        let '(svc1, posted, doneStatus) :=
          agress svc ex1 order qtyAtTop topPrice in
        mkOutcome svc1 ex1 calls
                  (posted ++ enqueOrderDone svc1 order doneStatus)
    | None =>
        (* not reached: [validateOrder] has tested the pointer *)
        mkOutcome svc ex1 calls (enqueOrderDone svc order InternalReject)
    end
  else
    mkOutcome svc ex calls (enqueOrderDone svc order InternalReject).

(** The closure of [enqueueFill]. *)
Definition runFill (svc : Impl) (ex : ExecutorImpl) (id : OrderId)
  (dealt contra : Quantity) : Impl * list Call :=
  let svc1 := addPosition (m_baseAsset ex) dealt svc in
  let svc2 := addPosition (m_quoteAsset ex) contra svc1 in
  (svc2,
   [publishPosition (m_baseAsset ex)
      (lookupPosition (m_baseAsset ex) (m_positions svc2));
    publishPosition (m_quoteAsset ex)
      (lookupPosition (m_quoteAsset ex) (m_positions svc2));
    onFill (m_symbol ex) id dealt contra;
    endBatch]).

(** Run one posted closure. *)
Definition runEvent (svc : Impl) (ex : ExecutorImpl) (e : Event) : Outcome :=
  match e with
  | EvProcess order => process svc ex order
  | EvFill id dealt contra =>
      let '(svc1, calls) := runFill svc ex id dealt contra in
      mkOutcome svc1 ex calls []
  | EvOrderDone id status =>
      mkOutcome svc ex [onTerminated (m_symbol ex) id status] []
  end.

(** The fill, if any, among the posted events. *)
Definition fillsOf (posted : list Posted) : list (Quantity * Quantity) :=
  flat_map (fun p => match snd p with
                     | EvFill _ dealt contra => [(dealt, contra)]
                     | _ => []
                     end) posted.

(** The terminal statuses among the posted events. *)
Definition statusesOf (posted : list Posted) : list DoneStatus :=
  flat_map (fun p => match snd p with
                     | EvOrderDone _ status => [status]
                     | _ => []
                     end) posted.

End LPSim.

(** ** internal/event_loop.cpp *)

Module EventLoop.
Import Flow.

Definition EventId : Type := Z.

(** [std::numeric_limits<EventId>::max()] *)
Definition EventId_max : EventId := 2 ^ 63 - 1.

Section Loop.

(** The closures posted by client code, and the state they capture by
    reference. *)
Variable Ev : Type.
Variable U : Type.

(** What a closure can do to the loop through the references it holds;
    [OnReplayableDone] is what the closure of a [ReplayableDispatcher]
    calls when its replayable is exhausted. *)
Inductive Command :=
| PostEvent (deltaTimeNs : TimestampNs) (event : Ev)
| Stop (deltaTimeNs : TimestampNs)
| OnReplayableDone.

(** Running a closure: from the captured state and the value of
    [getEventTime()], which is constant during the call, the new captured
    state and the calls made on the loop, in order. *)
Variable run : Ev -> U -> TimestampNs -> U * list Command.

(** An [Event] held by the loop: a client closure, or the closure
    [[this]() { m_enable = false; }] made by [stop]. *)
Inductive Callback :=
| Client (event : Ev)
| Disable.

Record TimedEvent := mkTimedEvent {
  m_eventId : EventId;
  m_expireTime : TimestampNs;
  m_event : Callback
}.

(** [EventLoop::Impl].  [m_replayableDispatchers] is the size of the
    vector of that name.  [m_history] is a ghost field: every value
    [m_now] has held, oldest first. *)
Record Impl := mkLoop {
  m_now : TimestampNs;
  m_futureEvents : list TimedEvent;
  m_chores : list (EventId * Callback);
  m_replayableDispatchers : nat;
  m_activeReplayableDispatchersCount : Z;
  m_lastEventId : EventId;
  m_enable : bool;
  m_user : U;
  m_history : list TimestampNs
}.

Definition MAX_REPLAYABLES : nat := 4096.

Definition EventLoop (start : TimestampNs) (u : U) : Impl :=
  mkLoop start [] [] 0 0 0 true u [start].

Definition getEventTime (l : Impl) : TimestampNs := m_now l.

Definition setNow (t : TimestampNs) (l : Impl) : Impl :=
  mkLoop t (m_futureEvents l) (m_chores l)
         (m_replayableDispatchers l) (m_activeReplayableDispatchersCount l)
         (m_lastEventId l)
         (m_enable l) (m_user l) (m_history l ++ [t]).

Definition setFutureEvents (q : list TimedEvent) (l : Impl) : Impl :=
  mkLoop (m_now l) q (m_chores l)
         (m_replayableDispatchers l) (m_activeReplayableDispatchersCount l)
         (m_lastEventId l)
         (m_enable l) (m_user l) (m_history l).

Definition setChores (c : list (EventId * Callback)) (l : Impl) : Impl :=
  mkLoop (m_now l) (m_futureEvents l) c
         (m_replayableDispatchers l) (m_activeReplayableDispatchersCount l)
         (m_lastEventId l)
         (m_enable l) (m_user l) (m_history l).

Definition setReplayableDispatchers (n : nat) (l : Impl) : Impl :=
  mkLoop (m_now l) (m_futureEvents l) (m_chores l)
         n (m_activeReplayableDispatchersCount l) (m_lastEventId l)
         (m_enable l) (m_user l) (m_history l).

Definition setActiveReplayableDispatchersCount (n : Z) (l : Impl) : Impl :=
  mkLoop (m_now l) (m_futureEvents l) (m_chores l)
         (m_replayableDispatchers l) n (m_lastEventId l)
         (m_enable l) (m_user l) (m_history l).

Definition setLastEventId (i : EventId) (l : Impl) : Impl :=
  mkLoop (m_now l) (m_futureEvents l) (m_chores l)
         (m_replayableDispatchers l) (m_activeReplayableDispatchersCount l) i
         (m_enable l) (m_user l) (m_history l).

Definition setEnable (b : bool) (l : Impl) : Impl :=
  mkLoop (m_now l) (m_futureEvents l) (m_chores l)
         (m_replayableDispatchers l) (m_activeReplayableDispatchersCount l)
         (m_lastEventId l)
         b (m_user l) (m_history l).

Definition setUser (u : U) (l : Impl) : Impl :=
  mkLoop (m_now l) (m_futureEvents l) (m_chores l)
         (m_replayableDispatchers l) (m_activeReplayableDispatchersCount l)
         (m_lastEventId l)
         (m_enable l) u (m_history l).

(** [std::tie(a.m_expireTime, a.m_eventId) < std::tie(b...)]: the element
    the priority queue serves first. *)
Definition before (a b : TimedEvent) : bool :=
  (m_expireTime a <? m_expireTime b)
  || ((m_expireTime a =? m_expireTime b) && (m_eventId a <? m_eventId b)).

(** [top()] together with the queue after [pop()]. *)
Fixpoint extractTop (q : list TimedEvent)
  : option (TimedEvent * list TimedEvent) :=
  match q with
  | [] => None
  | x :: rest =>
      match extractTop rest with
      | None => Some (x, [])
      | Some (y, rest') =>
          if before y x then Some (y, x :: rest') else Some (x, rest)
      end
  end.

Definition addFutureEvent (ts : TimestampNs) (event : Callback)
  (eventId : EventId) (l : Impl) : Impl :=
  setFutureEvents (mkTimedEvent eventId ts event :: m_futureEvents l) l.

Definition stop (deltaTimeNs : TimestampNs) (l : Impl) : Impl :=
  addFutureEvent (getEventTime l + deltaTimeNs) Disable EventId_max l.

Definition postEvent (deltaTimeNs : TimestampNs) (event : Callback)
  (l : Impl) : Impl * EventId :=
  let eventId := m_lastEventId l + 2 in
  let l1 := setLastEventId eventId l in
  if deltaTimeNs =? 0 then
    (setChores (m_chores l1 ++ [(eventId, event)]) l1, eventId)
  else
    let eventId1 := eventId + 1 in
    (addFutureEvent (getEventTime l1 + deltaTimeNs) event eventId1 l1,
     eventId1).

(** [if (--m_activeReplayableDispatchersCount == 0) stop(0ns);] *)
Definition onReplayableDone (l : Impl) : Impl :=
  let count := m_activeReplayableDispatchersCount l - 1 in
  let l1 := setActiveReplayableDispatchersCount count l in
  if count =? 0 then stop 0 l1 else l1.

Definition perform (l : Impl) (c : Command) : Impl :=
  match c with
  | PostEvent deltaTimeNs event => fst (postEvent deltaTimeNs (Client event) l)
  | Stop deltaTimeNs => stop deltaTimeNs l
  | OnReplayableDone => onReplayableDone l
  end.

(** [ReplayableDispatcher::postNextEvent]: [self] is the closure
    [[this]() { dispatch(); }], [next] what the replayable answers to
    [getNextEventTime()]. *)
Definition postNextEvent (self : Ev) (now next : TimestampNs)
  : list Command :=
  if next <? TimestampNs_max then
    [PostEvent (if next >? now then next - now else 0) self]
  else [OnReplayableDone].

(** [add]: the dispatcher is constructed in place, which runs [start()]
    (the replayable has skipped to the current time and answers [next]),
    and only then is the active count incremented.  [None]: the limit is
    reached and [add] throws. *)
Definition add (self : Ev) (next : TimestampNs) (l : Impl) : option Impl :=
  if (m_replayableDispatchers l <? MAX_REPLAYABLES)%nat then
    let l1 := setReplayableDispatchers (S (m_replayableDispatchers l)) l in
    let l2 := fold_left perform (postNextEvent self (getEventTime l1) next) l1 in
    Some (setActiveReplayableDispatchersCount
            (m_activeReplayableDispatchersCount l2 + 1) l2)
  else None.

(** [event()] *)
Definition invoke (event : Callback) (l : Impl) : Impl :=
  match event with
  | Disable => setEnable false l
  | Client e =>
      let '(u, commands) := run e (m_user l) (getEventTime l) in
      fold_left perform commands (setUser u l)
  end.

(** A run either comes back or is still going when the fuel is spent; in
    both cases it carries the state reached. *)
Inductive Run :=
| Returned (l : Impl)
| OutOfFuel (l : Impl).

Definition stateOf (r : Run) : Impl :=
  match r with Returned l | OutOfFuel l => l end.

Fixpoint dispatchChores (fuel : nat) (l : Impl) : Run :=
  if m_enable l then
    match m_chores l with
    | [] => Returned l
    | (_, event) :: rest =>
        match fuel with
        | O => OutOfFuel l
        | S fuel' => dispatchChores fuel' (invoke event (setChores rest l))
        end
    end
  else Returned l.

Definition dispatchNextFutureEvent (l : Impl) : Impl :=
  if m_enable l then
    match extractTop (m_futureEvents l) with
    | None => l
    | Some (event, rest) =>
        invoke (m_event event)
               (setNow (m_expireTime event) (setFutureEvents rest l))
    end
  else l.

Definition hasWork (l : Impl) : bool :=
  match m_futureEvents l, m_chores l with
  | [], [] => false
  | _, _ => true
  end.

Fixpoint dispatchWhile (fuel : nat) (l : Impl) : Run :=
  if m_enable l && hasWork l then
    match fuel with
    | O => OutOfFuel l
    | S fuel' =>
        match dispatchChores fuel' l with
        | OutOfFuel l1 => OutOfFuel l1
        | Returned l1 => dispatchWhile fuel' (dispatchNextFutureEvent l1)
        end
    end
  else Returned l.

Definition dispatch (fastForwardTillNextFutureEvent : bool) (fuel : nat)
  (l : Impl) : Run :=
  let l1 := setEnable true l in
  let l2 :=
    if fastForwardTillNextFutureEvent then
      match extractTop (m_futureEvents l1) with
      | Some (top, _) => setNow (m_expireTime top) l1
      | None => l1
      end
    else l1 in
  dispatchWhile fuel l2.

(** The public interface of [EventLoop]. *)
Inductive Operation :=
| opPostEvent (deltaTimeNs : TimestampNs) (event : Ev)
| opStop (deltaTimeNs : TimestampNs)
| opDispatch (fuel : nat).

Definition operate (op : Operation) (l : Impl) : Run :=
  match op with
  | opPostEvent deltaTimeNs event =>
      Returned (fst (postEvent deltaTimeNs (Client event) l))
  | opStop deltaTimeNs => Returned (stop deltaTimeNs l)
  | opDispatch fuel => dispatch true fuel l
  end.

(** A sequence of calls made by the owner of the loop; nothing follows a
    call that has not come back. *)
Fixpoint operateAll (ops : list Operation) (l : Impl) : Run :=
  match ops with
  | [] => Returned l
  | op :: rest =>
      match operate op l with
      | Returned l1 => operateAll rest l1
      | OutOfFuel l1 => OutOfFuel l1
      end
  end.

Definition commandDelta (c : Command) : TimestampNs :=
  match c with
  | PostEvent d _ | Stop d => d
  | OnReplayableDone => 0
  end.

(** The invariant of a loop constructed at [start]: no queued event
    expires in the past, and the clock has only moved forward so far. *)
Record Inv (start : TimestampNs) (l : Impl) : Prop := mkInv {
  inv_future :
    Forall (fun te => m_now l <= m_expireTime te) (m_futureEvents l);
  inv_sorted : StronglySorted Z.le (m_history l);
  inv_bound : Forall (fun t => t <= m_now l) (m_history l);
  inv_last : exists h, m_history l = h ++ [m_now l];
  inv_first : exists h, m_history l = start :: h
}.

Definition operationDelta (op : Operation) : TimestampNs :=
  match op with
  | opPostEvent d _ | opStop d => d
  | opDispatch _ => 0
  end.

End Loop.

Arguments PostEvent {Ev}.
Arguments Stop {Ev}.
Arguments OnReplayableDone {Ev}.
Arguments Client {Ev}.
Arguments Disable {Ev}.
Arguments mkTimedEvent {Ev}.
Arguments m_eventId {Ev}.
Arguments m_expireTime {Ev}.
Arguments m_event {Ev}.
Arguments mkLoop {Ev U}.
Arguments m_now {Ev U}.
Arguments m_futureEvents {Ev U}.
Arguments m_chores {Ev U}.
Arguments m_replayableDispatchers {Ev U}.
Arguments m_activeReplayableDispatchersCount {Ev U}.
Arguments m_lastEventId {Ev U}.
Arguments m_enable {Ev U}.
Arguments m_user {Ev U}.
Arguments m_history {Ev U}.
Arguments EventLoop {Ev U}.
Arguments getEventTime {Ev U}.
Arguments setNow {Ev U}.
Arguments setFutureEvents {Ev U}.
Arguments setChores {Ev U}.
Arguments setReplayableDispatchers {Ev U}.
Arguments setActiveReplayableDispatchersCount {Ev U}.
Arguments setLastEventId {Ev U}.
Arguments setEnable {Ev U}.
Arguments setUser {Ev U}.
Arguments before {Ev}.
Arguments extractTop {Ev}.
Arguments addFutureEvent {Ev U}.
Arguments stop {Ev U}.
Arguments postEvent {Ev U}.
Arguments onReplayableDone {Ev U}.
Arguments perform {Ev U}.
Arguments postNextEvent {Ev}.
Arguments add {Ev U}.
Arguments invoke {Ev U}.
Arguments Returned {Ev U}.
Arguments OutOfFuel {Ev U}.
Arguments stateOf {Ev U}.
Arguments dispatchChores {Ev U}.
Arguments dispatchNextFutureEvent {Ev U}.
Arguments hasWork {Ev U}.
Arguments dispatchWhile {Ev U}.
Arguments dispatch {Ev U}.
Arguments opPostEvent {Ev}.
Arguments opStop {Ev}.
Arguments opDispatch {Ev}.
Arguments operate {Ev U}.
Arguments operateAll {Ev U}.
Arguments commandDelta {Ev}.
Arguments Inv {Ev U}.
Arguments operationDelta {Ev}.

End EventLoop.

(** ** internal/pub_internal.hpp: DirectConsumer *)

Module Pub.

(** A [Consumer<Record>::Callback]: an empty [std::function] (it compares
    equal to [nullptr]), the lambda with an empty body that
    [getCreateEntry] installs, or a callable handed to [subscribe]. *)
Inductive Callback :=
| Empty
| NoOp
| Handler (id : nat).

Definition isNull (cb : Callback) : bool :=
  match cb with Empty => true | _ => false end.

Section DirectConsumer.

Variable Record_ : Type.

(** The subscriber behind [m_subscriber]: its state, what [notify] does
    (the new state and the [subscribe] calls it makes on the consumer while
    it runs), what a handler does when invoked, and [endOfBatch].  Handlers
    do not call back into the consumer that invokes them. *)
Variable Sub : Type.
Variable notify : Sub -> string -> Record_ -> Sub * list (string * Callback).
Variable handle : nat -> Sub -> string -> Record_ -> Sub.
Variable endOfBatch : Sub -> Sub.

(** [DirectConsumer::Entry].  [m_data] is the pointer with the record it
    designates; [None] is [nullptr].  [m_got_updates] is a reference to
    [m_updates_received] of the consumer. *)
Record Entry := mkEntry {
  m_topic : string;
  m_data : option Record_;
  m_callback : Callback
}.

(** Calls that leave the consumer. *)
Inductive Call :=
| callNotify (topic : string) (record : Record_)
| callCallback (cb : Callback) (topic : string) (record : Record_)
| callEndOfBatch.

Record DirectConsumer := mkDirectConsumer {
  m_updates_received : bool;
  m_subscriber : Sub;
  m_entries : gmap string Entry
}.

Definition newDirectConsumer (subscriber : Sub) : DirectConsumer :=
  mkDirectConsumer false subscriber ∅.

Definition setCallback (cb : Callback) (e : Entry) : Entry :=
  mkEntry (m_topic e) (m_data e) cb.

Definition setData (record : Record_) (e : Entry) : Entry :=
  mkEntry (m_topic e) (Some record) (m_callback e).

Definition withEntries (dc : DirectConsumer) (es : gmap string Entry)
  : DirectConsumer :=
  mkDirectConsumer (m_updates_received dc) (m_subscriber dc) es.

Definition withSubscriber (dc : DirectConsumer) (s : Sub) : DirectConsumer :=
  mkDirectConsumer (m_updates_received dc) s (m_entries dc).

Definition withUpdatesReceived (dc : DirectConsumer) (b : bool)
  : DirectConsumer :=
  mkDirectConsumer b (m_subscriber dc) (m_entries dc).

Definition getCreateEntry (topic : string) (data : Record_)
  (dc : DirectConsumer) : DirectConsumer :=
  let e :=
    match m_entries dc !! topic with
    | None => mkEntry topic None NoOp
    | Some e => e
    end in
  withEntries dc (<[topic := setData data e]> (m_entries dc)).

Definition subscribe (topic : string) (cb : Callback) (dc : DirectConsumer)
  : DirectConsumer :=
  match m_entries dc !! topic with
  | Some e => withEntries dc (<[topic := setCallback cb e]> (m_entries dc))
  | None => withEntries dc (<[topic := mkEntry topic None cb]> (m_entries dc))
  end.

Definition createEntry (topic : string) (data : Record_)
  (dc : DirectConsumer) : DirectConsumer * list Call :=
  let dc1 := getCreateEntry topic data dc in
  let '(s, subscriptions) := notify (m_subscriber dc1) topic data in
  let dc2 := withSubscriber dc1 s in
  (fold_left (fun d tc => subscribe (fst tc) (snd tc) d) subscriptions dc2,
   [callNotify topic data]).

(** What invoking a callback does to the subscriber. *)
Definition invokeCallback (cb : Callback) (s : Sub) (topic : string)
  (record : Record_) : Sub :=
  match cb with
  | Handler id => handle id s topic record
  | _ => s
  end.

(** [Entry::publish] on the entry of [topic].  [None]: the assertion on
    [m_data] fails (or there is no such entry to publish on). *)
Definition publish (topic : string) (dc : DirectConsumer)
  : option (DirectConsumer * list Call) :=
  match m_entries dc !! topic with
  | None => None
  | Some e =>
      match m_data e with
      | None => None
      | Some record =>
          if negb (isNull (m_callback e)) then
            let s := invokeCallback (m_callback e) (m_subscriber dc)
                                    (m_topic e) record in
            Some (withUpdatesReceived (withSubscriber dc s) true,
                  [callCallback (m_callback e) (m_topic e) record])
          else Some (dc, [])
      end
  end.

(** [std::exchange(m_updates_received, false)] *)
Definition endBatch (dc : DirectConsumer) : DirectConsumer * list Call :=
  let was := m_updates_received dc in
  let dc1 := withUpdatesReceived dc false in
  if was then
    (withSubscriber dc1 (endOfBatch (m_subscriber dc1)), [callEndOfBatch])
  else (dc1, []).

(** What the owners of a consumer do with it between two batch ends. *)
Inductive Operation :=
| opCreateEntry (topic : string) (data : Record_)
| opSubscribe (topic : string) (cb : Callback)
| opPublish (topic : string).

Definition operate (op : Operation) (dc : DirectConsumer)
  : option (DirectConsumer * list Call) :=
  match op with
  | opCreateEntry topic data => Some (createEntry topic data dc)
  | opSubscribe topic cb => Some (subscribe topic cb dc, [])
  | opPublish topic => publish topic dc
  end.

Fixpoint operateAll (ops : list Operation) (dc : DirectConsumer)
  : option (DirectConsumer * list Call) :=
  match ops with
  | [] => Some (dc, [])
  | op :: rest =>
      match operate op dc with
      | None => None
      | Some (dc1, calls1) =>
          match operateAll rest dc1 with
          | None => None
          | Some (dc2, calls2) => Some (dc2, calls1 ++ calls2)
          end
      end
  end.

(** A callback was invoked by a [publish]. *)
Definition isCallback (c : Call) : bool :=
  match c with callCallback _ _ _ => true | _ => false end.

(** A callback other than the initial no-op was invoked by a [publish]. *)
Definition isSubscribedCallback (c : Call) : bool :=
  match c with callCallback (Handler _) _ _ => true | _ => false end.

Definition isEndOfBatch (c : Call) : bool :=
  match c with callEndOfBatch => true | _ => false end.

End DirectConsumer.

Arguments mkEntry {Record_}.
Arguments m_topic {Record_}.
Arguments m_data {Record_}.
Arguments m_callback {Record_}.
Arguments callNotify {Record_}.
Arguments callCallback {Record_}.
Arguments callEndOfBatch {Record_}.
Arguments mkDirectConsumer {Record_ Sub}.
Arguments m_updates_received {Record_ Sub}.
Arguments m_subscriber {Record_ Sub}.
Arguments m_entries {Record_ Sub}.
Arguments newDirectConsumer {Record_ Sub}.
Arguments setCallback {Record_}.
Arguments setData {Record_}.
Arguments withEntries {Record_ Sub}.
Arguments withSubscriber {Record_ Sub}.
Arguments withUpdatesReceived {Record_ Sub}.
Arguments getCreateEntry {Record_ Sub}.
Arguments subscribe {Record_ Sub}.
Arguments createEntry {Record_ Sub}.
Arguments invokeCallback {Record_ Sub}.
Arguments publish {Record_ Sub}.
Arguments endBatch {Record_ Sub}.
Arguments opCreateEntry {Record_}.
Arguments opSubscribe {Record_}.
Arguments opPublish {Record_}.
Arguments operate {Record_ Sub}.
Arguments operateAll {Record_ Sub}.
Arguments isCallback {Record_}.
Arguments isSubscribedCallback {Record_}.
Arguments isEndOfBatch {Record_}.

(** [CacheSubscriber<Record>]: [notify] stores the pointer and makes no
    [subscribe] call; [endOfBatch] does nothing. *)
Definition CacheSubscriber_notify {R : Type} (cache : gmap string R)
  (topic : string) (record : R) : gmap string R * list (string * Callback) :=
  (<[topic := record]> cache, []).

Definition CacheSubscriber_handle {R : Type} (id : nat)
  (cache : gmap string R) (topic : string) (record : R) : gmap string R :=
  cache.

Definition CacheSubscriber_endOfBatch {R : Type} (cache : gmap string R)
  : gmap string R := cache.

End Pub.

(** ** internal/market_data_replayer.cpp *)

Module Replayer.
Import Flow.

(** One line of the input stream, with its cells as [std::stoull] and
    [std::stod] return them. *)
Record Line := mkLine {
  line_timestamp : Z;
  line_symbol : string;
  line_book : TopOfBook
}.

(** [std::chrono::nanoseconds(unsigned long long)]: the count lands in a
    signed 64-bit representation. *)
Definition to_nanoseconds (u : Z) : TimestampNs :=
  (u + 2 ^ 63) mod 2 ^ 64 - 2 ^ 63.

Record NextLine := mkNextLine {
  timestamp : TimestampNs;
  symbol : string;
  book : TopOfBook
}.

(** Calls made on [m_publisher] and on the entries it returned. *)
Inductive Call :=
| callCreateEntry (symbol : string) (book : TopOfBook)
| callPublish (symbol : string) (book : TopOfBook)
| callEndBatch.

(** [MarketDataReplayer::Impl].  [m_inputData] holds the lines not read
    yet; [m_records] owns the stored book of each symbol, whose entry
    pointer is set as soon as the key exists. *)
Record Impl := mkImpl {
  m_inputData : list Line;
  m_records : gmap string TopOfBook;
  m_nextLine : NextLine
}.

Definition getNextEventTime (s : Impl) : TimestampNs :=
  timestamp (m_nextLine s).

Definition readNextLine (s : Impl) : Impl :=
  match m_inputData s with
  | line :: rest =>
      mkImpl rest (m_records s)
             (mkNextLine (to_nanoseconds (line_timestamp line))
                         (line_symbol line) (line_book line))
  | [] =>
      mkImpl [] (m_records s)
             (mkNextLine TimestampNs_max (symbol (m_nextLine s))
                         (book (m_nextLine s)))
  end.

Definition publish (s : Impl) : Impl * list Call :=
  let next := m_nextLine s in
  let records := <[symbol next := book next]> (m_records s) in
  match m_records s !! symbol next with
  | None =>
      (mkImpl (m_inputData s) records next,
       [callCreateEntry (symbol next) (book next);
        callPublish (symbol next) (book next)])
  | Some _ =>
      (mkImpl (m_inputData s) records next,
       [callPublish (symbol next) (book next)])
  end.

(** The [do ... while (getNextEventTime() == startTime)] loop. *)
Fixpoint doWhile (fuel : nat) (startTime : TimestampNs) (s : Impl)
  : option (Impl * list Call) :=
  match fuel with
  | O => None
  | S fuel' =>
      let '(s1, calls1) := publish s in
      let s2 := readNextLine s1 in
      if getNextEventTime s2 =? startTime then
        match doWhile fuel' startTime s2 with
        | None => None
        | Some (s3, calls3) => Some (s3, calls1 ++ calls3)
        end
      else Some (s2, calls1)
  end.

Definition dispatchNextEvent_fuel (fuel : nat) (s : Impl)
  : option (Impl * list Call) :=
  let startTime := getNextEventTime s in
  if startTime <? TimestampNs_max then
    match doWhile fuel startTime s with
    | None => None
    | Some (s1, calls) => Some (s1, calls ++ [callEndBatch])
    end
  else Some (s, []).

(** One more iteration than there are unread lines always suffices. *)
Definition dispatchNextEvent (s : Impl) : option (Impl * list Call) :=
  dispatchNextEvent_fuel (S (length (m_inputData s))) s.

(** [while (getNextEventTime() < ts) readNextLine();] *)
Fixpoint skip_fuel (fuel : nat) (ts : TimestampNs) (s : Impl) : option Impl :=
  if getNextEventTime s <? ts then
    match fuel with
    | O => None
    | S fuel' => skip_fuel fuel' ts (readNextLine s)
    end
  else Some s.

Definition skip (ts : TimestampNs) (s : Impl) : option Impl :=
  skip_fuel (S (length (m_inputData s))) ts s.

(** The constructor, up to the registration with the loop. *)
Definition newImpl (inputData : list Line) : Impl :=
  readNextLine
    (mkImpl inputData ∅
            (mkNextLine 0 "" (mkTopOfBook Double.zero Double.zero
                                          Double.zero Double.zero))).

(** The records still to be replayed: the lookahead, when there is one,
    followed by the unread lines. *)
Definition ofLine (line : Line) : NextLine :=
  mkNextLine (to_nanoseconds (line_timestamp line)) (line_symbol line)
             (line_book line).

Definition pending (s : Impl) : list NextLine :=
  if getNextEventTime s <? TimestampNs_max
  then m_nextLine s :: map ofLine (m_inputData s)
  else [].

(** The leading records stamped [t], and what follows them. *)
Fixpoint sameTime (t : TimestampNs) (rs : list NextLine) : list NextLine :=
  match rs with
  | r :: rest => if timestamp r =? t then r :: sameTime t rest else []
  | [] => []
  end.

Fixpoint afterSameTime (t : TimestampNs) (rs : list NextLine)
  : list NextLine :=
  match rs with
  | r :: rest => if timestamp r =? t then afterSameTime t rest else rs
  | [] => []
  end.

Definition key (r : NextLine) : string * TopOfBook := (symbol r, book r).

Definition publishedOf (calls : list Call) : list (string * TopOfBook) :=
  flat_map (fun c => match c with
                     | callPublish sym b => [(sym, b)]
                     | _ => []
                     end) calls.

Definition isEndBatch (c : Call) : bool :=
  match c with callEndBatch => true | _ => false end.

Definition countEndBatch (calls : list Call) : nat :=
  length (List.filter isEndBatch calls).

End Replayer.

(** ** Concrete inputs

    Literals are written as [mantissa * 2^exponent] with the 53-bit
    mantissa of the nearest binary64 value. *)

Module Inputs.
Import Double Flow Risk LPSim.

Definition d_0_1 : double := lit 7205759403792794 (-56).          (* 0.1 *)
Definition d_1_1 : double := lit 4953959590107546 (-52).          (* 1.1 *)
Definition d_1_1002 : double := lit 4954860310033020 (-52).       (* 1.1002 *)
Definition d_1_099 : double := lit 4949455990480175 (-52).        (* 1.0990 *)
Definition d_1e5 : double := lit 6871947673600000 (-36).          (* 1e5 *)
Definition d_500000 : double := lit 8589934592000000 (-34).       (* 5e5 *)
Definition d_550100 : double := lit 4725323019059200 (-33).       (* 550100 *)
Definition d_1e6 : double := lit 8589934592000000 (-33).          (* 1e6 *)
Definition d_1e7 : double := lit 5368709120000000 (-29).          (* 1e7 *)

Definition ms : TimestampNs := 1000000.
Definition sec : TimestampNs := 1000000000.

(** The book of the scenarios: 1e6 @ 1.1000 / 1e6 @ 1.1002. *)
Definition eurusd : TopOfBook := mkTopOfBook d_1e6 d_1_1 d_1e6 d_1_1002.

Definition settings (maxNOP : Quantity) : Settings :=
  mkSettings ms ms (10 * sec) maxNOP.

(** A simulator at time [now] holding [eur] and [usd], with [book] cached
    for EUR/USD. *)
Definition service (now : TimestampNs) (book : TopOfBook)
  (eur usd : Position) (maxNOP : Quantity) : Impl :=
  mkImpl now {[ "EUR/USD" := book ]} [("EUR", eur); ("USD", usd)]
         (settings maxNOP) 0.

(** The EUR/USD executor after its first [sendOrder], never having had an
    order validated. *)
Definition executor (book : TopOfBook) : ExecutorImpl :=
  mkExecutorImpl "EUR/USD" "EUR" "USD" (Some book) 0.

(** Buy 500000 at market, immediate or cancel. *)
Definition buy_500000 : Order := mkOrder 1 Buy quiet_NaN d_500000 IOC.

(** Buy 500000 with limit 1.0990, below the ask. *)
Definition buy_below_ask : Order := mkOrder 1 Buy d_1_099 d_500000 IOC.

(** A book whose ask has an unbounded size at price zero, and an order
    for an unbounded quantity. *)
Definition zero_ask : TopOfBook := mkTopOfBook d_1e6 (of_int 2) infinity zero.
Definition buy_unbounded : Order := mkOrder 1 Buy quiet_NaN infinity IOC.

(** A book whose ask size is NaN. *)
Definition nan_ask_size : TopOfBook :=
  mkTopOfBook d_1e6 d_1_1 quiet_NaN d_1_1002.

End Inputs.

Module LoopInputs.
Import Flow.

(** A closure that does nothing. *)
Definition idle (e : unit) (u : unit) (t : TimestampNs)
  : unit * list (EventLoop.Command unit) := (u, []).

(** A timer that re-arms itself one second later, three times, and then
    stops the loop. *)
Definition ticker (e : unit) (u : nat) (t : TimestampNs)
  : nat * list (EventLoop.Command unit) :=
  if (u <? 3)%nat then (S u, [EventLoop.PostEvent Inputs.sec tt])
  else (u, [EventLoop.Stop 0]).

End LoopInputs.

Module PubInputs.
Import Flow.

(** A consumer publishing into a [CacheSubscriber<TopOfBook>], as
    [mdCachePub(mdCache)] in [main]. *)
Definition mdCachePub : Pub.DirectConsumer TopOfBook (gmap string TopOfBook) :=
  Pub.newDirectConsumer ∅.

Definition cache_operateAll :=
  Pub.operateAll (Record_ := TopOfBook) Pub.CacheSubscriber_notify
                 Pub.CacheSubscriber_handle.

Definition cache_endBatch :=
  Pub.endBatch (Record_ := TopOfBook) (Sub := gmap string TopOfBook)
               Pub.CacheSubscriber_endOfBatch.

(** The first tick of a symbol: the entry is created, then published. *)
Definition first_tick : list (Pub.Operation TopOfBook) :=
  [Pub.opCreateEntry "EUR/USD" Inputs.eurusd; Pub.opPublish "EUR/USD"].

(** The consumer after the first tick, and the calls the tick made. *)
Definition after_first_tick
  : Pub.DirectConsumer TopOfBook (gmap string TopOfBook) :=
  match cache_operateAll first_tick mdCachePub with
  | Some (dc, _) => dc
  | None => mdCachePub
  end.

Definition first_tick_calls : list (Pub.Call TopOfBook) :=
  match cache_operateAll first_tick mdCachePub with
  | Some (_, calls) => calls
  | None => []
  end.

End PubInputs.

Module ReplayerInputs.
Import Flow.

Definition usdjpy : TopOfBook :=
  mkTopOfBook Inputs.d_1e6 Inputs.d_1e5 Inputs.d_1e6 Inputs.d_1e5.

(** Two records stamped 1s, one stamped 2s. *)
Definition three_lines : list Replayer.Line :=
  [Replayer.mkLine 1000000000 "EUR/USD" Inputs.eurusd;
   Replayer.mkLine 1000000000 "USD/JPY" usdjpy;
   Replayer.mkLine 2000000000 "EUR/USD" Inputs.eurusd].

End ReplayerInputs.

(** ** Sequences of orders through one executor *)

Module LPSimRuns.
Import Double Flow Risk LPSim.

(** The arguments of one [sendOrder] call. *)
Record Request := mkRequest {
  req_side : Side;
  req_price : Price;
  req_qty : Quantity;
  req_tif : TIF
}.

(** Successive [sendOrder] calls on one executor: the identifiers they
    return, in call order. *)
Fixpoint sendOrders (reqs : list Request) (svc : Impl) (ex : ExecutorImpl)
  : Impl * ExecutorImpl * list OrderId :=
  match reqs with
  | [] => (svc, ex, [])
  | r :: rest =>
      let '(svc1, ex1, _, id) :=
        sendOrder svc ex (req_side r) (req_price r) (req_qty r) (req_tif r) in
      let '(svc2, ex2, ids) := sendOrders rest svc1 ex1 in
      (svc2, ex2, id :: ids)
  end.

(** The assets of the slots, in iteration order. *)
Definition assetsOf (ps : Positions) : list Asset := map fst ps.

(** What processing an order may change in the service: the values of
    the executor's base and quote slots, nothing else. *)
Record SameButPositions (ex : ExecutorImpl) (svc svc' : Impl) : Prop :=
  mkSameButPositions {
    same_time : m_eventTime svc' = m_eventTime svc;
    same_cache : m_tobCache svc' = m_tobCache svc;
    same_settings : m_settings svc' = m_settings svc;
    same_counter : m_lastOrderId svc' = m_lastOrderId svc;
    same_assets : assetsOf (m_positions svc') = assetsOf (m_positions svc);
    same_others :
      forall a, a <> m_baseAsset ex -> a <> m_quoteAsset ex ->
        lookupPosition a (m_positions svc') =
        lookupPosition a (m_positions svc)
  }.

(** What happens around one executor, in the order in which it happens:
    the strategy calls [sendOrder]; the loop runs the closure of an
    order, [process]; the clock moves; a tick caches a record under some
    symbol ([CacheSubscriber::notify]) or rewrites the record cached
    there.  The executor is one object: each step finds it as the step
    before left it.  Its [m_book], once resolved, points to the cached
    record itself, so a tick of its symbol is seen through it. *)
Inductive Step :=
| stepSend (r : Request)
| stepProcess (order : Order)
| stepTime (now : TimestampNs)
| stepCache (symbol : string) (book : TopOfBook).

Definition step (s : Step) (svc : Impl) (ex : ExecutorImpl)
  : Impl * ExecutorImpl * list Posted :=
  match s with
  | stepSend r =>
      let '(svc1, ex1, posted, _) :=
        sendOrder svc ex (req_side r) (req_price r) (req_qty r) (req_tif r) in
      (svc1, ex1, posted)
  | stepProcess order =>
      let result := process svc ex order in
      (out_service result, out_executor result, out_posted result)
  | stepTime now =>
      (mkImpl now (m_tobCache svc) (m_positions svc) (m_settings svc)
              (m_lastOrderId svc),
       ex, [])
  | stepCache symbol book =>
      (mkImpl (m_eventTime svc) (<[symbol := book]> (m_tobCache svc))
              (m_positions svc) (m_settings svc) (m_lastOrderId svc),
       match m_book ex with
       | Some _ =>
           if String.eqb symbol (m_symbol ex) then withBook ex (Some book)
           else ex
       | None => ex
       end,
       [])
  end.

(** The steps in order, with everything they posted on the loop. *)
Fixpoint steps (ss : list Step) (svc : Impl) (ex : ExecutorImpl)
  : Impl * ExecutorImpl * list Posted :=
  match ss with
  | [] => (svc, ex, [])
  | s :: rest =>
      let '(svc1, ex1, posted1) := step s svc ex in
      let '(svc2, ex2, posted2) := steps rest svc1 ex1 in
      (svc2, ex2, posted1 ++ posted2)
  end.

(** The step caches a record under [symbol]. *)
Definition cachesSymbol (symbol : string) (s : Step) : bool :=
  match s with
  | stepCache sym _ => String.eqb sym symbol
  | _ => false
  end.

(** The orders whose closure ran. *)
Definition processedOf (ss : list Step) : list Order :=
  flat_map (fun s => match s with
                     | stepProcess order => [order]
                     | _ => []
                     end) ss.

(** The orders sent. *)
Definition sentOf (ss : list Step) : list Request :=
  flat_map (fun s => match s with
                     | stepSend r => [r]
                     | _ => []
                     end) ss.

(** The closures of orders among the posted events. *)
Definition processesOf (posted : list Posted) : list Order :=
  flat_map (fun p => match snd p with
                     | EvProcess order => [order]
                     | _ => []
                     end) posted.

End LPSimRuns.

Module MoreInputs.
Import Double Flow Risk LPSim LPSimRuns.

(** Three market buys. *)
Definition three_requests : list Request :=
  [mkRequest Buy quiet_NaN Inputs.d_500000 IOC;
   mkRequest Sell quiet_NaN Inputs.d_500000 IOC;
   mkRequest Buy Inputs.d_1_1002 Inputs.d_1e5 IOC].

(** A resting order, which the simulator does not support. *)
Definition buy_gtc : Order := mkOrder 7 Buy quiet_NaN Inputs.d_500000 GTC.

(** A simulator that has seen no market data and holds nothing. *)
Definition blank_service : Impl :=
  mkImpl (60 * Inputs.sec) ∅ [] (Inputs.settings Inputs.d_1e7) 0.

(** An executor that has never resolved its book. *)
Definition unresolved_executor : ExecutorImpl :=
  mkExecutorImpl "EUR/USD" "EUR" "USD" None 0.

(** A simulator holding EUR, USD and JPY. *)
Definition three_assets : Impl :=
  mkImpl (60 * Inputs.sec) {[ "EUR/USD" := Inputs.eurusd ]}
         [("EUR", Inputs.d_1e5); ("JPY", Inputs.d_1e6); ("USD", zero)]
         (Inputs.settings Inputs.d_1e7) 0.

(** A short position in an asset nobody quotes. *)
Definition short_unquoted : Positions :=
  [("EUR", Inputs.d_1e5); ("XXX", opp Inputs.d_1e5)].

Definition long_unquoted : Positions :=
  [("EUR", Inputs.d_1e5); ("XXX", Inputs.d_1e5)].

Definition eurusd_cache : gmap string TopOfBook :=
  {[ "EUR/USD" := Inputs.eurusd ]}.

(** Two orders sent and run before the first EUR/USD tick, while USD/JPY
    ticks and the clock moves. *)
Definition before_first_tick : list Step :=
  [stepSend (mkRequest Buy quiet_NaN Inputs.d_500000 IOC);
   stepCache "USD/JPY" ReplayerInputs.usdjpy;
   stepSend (mkRequest Sell quiet_NaN Inputs.d_500000 IOC);
   stepTime (61 * Inputs.sec);
   stepProcess (mkOrder 1 Buy quiet_NaN Inputs.d_500000 IOC);
   stepProcess (mkOrder 2 Sell quiet_NaN Inputs.d_500000 IOC)].

End MoreInputs.


(** ** Event identifiers in the loop *)

Module EventLoopIds.
Import Flow EventLoop.

(** Every queued event got its identifier from the counter, except the
    events of [stop], which carry the largest identifier. *)
Record IdInv {Ev U : Type} (l : Impl Ev U) : Prop := mkIdInv {
  ids_future :
    Forall (fun te => m_eventId te = EventId_max \/
                      m_eventId te <= m_lastEventId l + 1)
           (m_futureEvents l);
  ids_chores :
    Forall (fun c => fst c <= m_lastEventId l) (m_chores l)
}.

End EventLoopIds.

Module MoreLoopInputs.
Import Flow EventLoop.

(** A [stop] and a client event both due at 5. *)
Definition stop_and_event : list (TimedEvent unit) :=
  [mkTimedEvent EventId_max 5 Disable; mkTimedEvent 3 5 (Client tt)].

(** The loop with the self re-arming timer armed at 1ms. *)
Definition ticker_armed : Impl unit nat :=
  (postEvent Inputs.ms (Client tt) (EventLoop 0 0%nat)).1.

(** Where that loop ends up. *)
Definition ticker_final : Impl unit nat :=
  mkLoop 3001000000 [] [] 0 0 8 false 3%nat
         [0; 1000000; 1000000; 1001000000; 2001000000; 3001000000;
          3001000000].

End MoreLoopInputs.


(** ** internal/pub_internal.hpp: Proxy *)

Module ProxyModel.

(** Downstream publishers are known by their address. *)
Definition PublisherId : Type := nat.

(** Where [add] inserts: [cbegin] for [addFront], [cend] for [addBack]. *)
Inductive Where := Front | Back.

Definition emplace {A : Type} (w : Where) (x : A) (c : list A) : list A :=
  match w with
  | Front => x :: c
  | Back => c ++ [x]
  end.

Section Proxy.

Variable Record_ : Type.

(** [Proxy::TopicEntry].  [m_entries] holds one [PublisherEntry*] per
    downstream publisher: the entry that publisher returned from
    [createEntry] for this topic, named here by the publisher.
    [m_record] is the record pointer given at construction. *)
Record TopicEntry := mkTopicEntry {
  te_entries : list PublisherId;
  te_record : Record_
}.

(** [Proxy].  [m_entries] is an [unordered_map]; the list holds its
    entries, new topics going last.  The order in which the map is
    iterated is the implementation's and need not be that of the list:
    see [addWalk]. *)
Record Proxy := mkProxy {
  m_entries : list (string * TopicEntry);
  m_publishers : list PublisherId
}.

(** Calls that leave the proxy: on a downstream publisher, on one of its
    entries, or on the upstream consumer. *)
Inductive Call :=
| callCreateEntry (p : PublisherId) (topic : string) (record : Record_)
| callPublish (p : PublisherId) (topic : string)
| callEndBatch (p : PublisherId)
| callSubscribe (topic : string).

Definition newProxy : Proxy := mkProxy [] [].

Fixpoint lookupTopic (topic : string) (es : list (string * TopicEntry))
  : option TopicEntry :=
  match es with
  | [] => None
  | (k, e) :: rest =>
      if String.eqb k topic then Some e else lookupTopic topic rest
  end.

(** [notify]: [try_emplace], and only for a new topic the entries are
    created downstream, in publisher order, before the proxy subscribes
    upstream. *)
Definition notify (topic : string) (record : Record_) (px : Proxy)
  : Proxy * list Call :=
  match lookupTopic topic (m_entries px) with
  | Some _ => (px, [])
  | None =>
      (mkProxy (m_entries px ++
                  [(topic, mkTopicEntry (m_publishers px) record)])
               (m_publishers px),
       map (fun p => callCreateEntry p topic record) (m_publishers px)
       ++ [callSubscribe topic])
  end.

(** [TopicEntry::onUpdate], the callback subscribed upstream for
    [topic]. *)
Definition onUpdate (topic : string) (px : Proxy) : list Call :=
  match lookupTopic topic (m_entries px) with
  | Some e => map (fun p => callPublish p topic) (te_entries e)
  | None => []
  end.

Definition endOfBatch (px : Proxy) : list Call :=
  map callEndBatch (m_publishers px).

(** [add(p, where)], the entries being walked in the order of the
    list. *)
Definition add (w : Where) (p : PublisherId) (px : Proxy)
  : Proxy * list Call :=
  (mkProxy
     (map (fun se => (fst se,
                      mkTopicEntry (emplace w p (te_entries (snd se)))
                                   (te_record (snd se))))
          (m_entries px))
     (emplace w p (m_publishers px)),
   map (fun se => callCreateEntry p (fst se) (te_record (snd se)))
       (m_entries px)).

(** [add(p, where)] again, with the order in which the range-for walks
    the [unordered_map] made explicit: [walk] lists the entries as the
    iteration meets them.  The order is the implementation's, so nothing
    is known of [walk] but that it is a rearrangement of the entries;
    [add] is the case where it follows the list. *)
Definition addWalk (w : Where) (p : PublisherId)
  (walk : list (string * TopicEntry)) (px : Proxy) : Proxy * list Call :=
  (mkProxy
     (map (fun se => (fst se,
                      mkTopicEntry (emplace w p (te_entries (snd se)))
                                   (te_record (snd se))))
          (m_entries px))
     (emplace w p (m_publishers px)),
   map (fun se => callCreateEntry p (fst se) (te_record (snd se))) walk).

Definition addFront := add Front.
Definition addBack := add Back.

(** What the owner and the upstream consumer do with a proxy. *)
Inductive Operation :=
| opNotify (topic : string) (record : Record_)
| opAddFront (p : PublisherId)
| opAddBack (p : PublisherId).

Definition operate (op : Operation) (px : Proxy) : Proxy * list Call :=
  match op with
  | opNotify topic record => notify topic record px
  | opAddFront p => addFront p px
  | opAddBack p => addBack p px
  end.

Fixpoint operateAll (ops : list Operation) (px : Proxy)
  : Proxy * list Call :=
  match ops with
  | [] => (px, [])
  | op :: rest =>
      let '(px1, calls1) := operate op px in
      let '(px2, calls2) := operateAll rest px1 in
      (px2, calls1 ++ calls2)
  end.

(** The topics known to the proxy. *)
Definition topicsOf (px : Proxy) : list string := map fst (m_entries px).

(** Every topic fans out to the downstream publishers, in their order. *)
Definition Aligned (px : Proxy) : Prop :=
  Forall (fun se => te_entries (snd se) = m_publishers px) (m_entries px).

(** The entries created downstream: which publisher, for which topic. *)
Definition createdOf (calls : list Call) : list (PublisherId * string) :=
  flat_map (fun c => match c with
                     | callCreateEntry p topic _ => [(p, topic)]
                     | _ => []
                     end) calls.

(** The publishers a sequence of operations adds. *)
Definition addedOf (ops : list Operation) : list PublisherId :=
  flat_map (fun op => match op with
                      | opAddFront p | opAddBack p => [p]
                      | opNotify _ _ => []
                      end) ops.

(** Downstream entries are created once: the topics are distinct, the
    publishers are distinct, and the entries created so far are, each
    once, those of every publisher for every topic. *)
Record Once (px : Proxy) (calls : list Call) : Prop := mkOnce {
  once_topics : List.NoDup (topicsOf px);
  once_publishers : List.NoDup (m_publishers px);
  once_created : List.NoDup (createdOf calls);
  once_all :
    forall p topic,
      In (p, topic) (createdOf calls) <->
      In p (m_publishers px) /\ In topic (topicsOf px)
}.

End Proxy.

Arguments mkTopicEntry {Record_}.
Arguments te_entries {Record_}.
Arguments te_record {Record_}.
Arguments mkProxy {Record_}.
Arguments m_entries {Record_}.
Arguments m_publishers {Record_}.
Arguments callCreateEntry {Record_}.
Arguments callPublish {Record_}.
Arguments callEndBatch {Record_}.
Arguments callSubscribe {Record_}.
Arguments newProxy {Record_}.
Arguments lookupTopic {Record_}.
Arguments notify {Record_}.
Arguments onUpdate {Record_}.
Arguments endOfBatch {Record_}.
Arguments add {Record_}.
Arguments addWalk {Record_}.
Arguments addFront {Record_}.
Arguments addBack {Record_}.
Arguments opNotify {Record_}.
Arguments opAddFront {Record_}.
Arguments opAddBack {Record_}.
Arguments operate {Record_}.
Arguments operateAll {Record_}.
Arguments topicsOf {Record_}.
Arguments Aligned {Record_}.
Arguments createdOf {Record_}.
Arguments addedOf {Record_}.
Arguments Once {Record_}.

End ProxyModel.

Module MorePubInputs.
Import Flow ProxyModel.

(** The market-data proxy of [main]: the cache publisher (0) goes in
    front, a tick arrives, and the strategy publisher (1) is added
    behind. *)
Definition wiring : list (Operation TopOfBook) :=
  [opAddFront 0%nat; opNotify "EUR/USD" Inputs.eurusd; opAddBack 1%nat].

(** A proxy with one publisher that knows two topics, and a walk of its
    entries that meets the topic announced last first. *)
Definition two_topics : Proxy TopOfBook :=
  (operateAll [opAddFront 0%nat;
               opNotify "EUR/USD" Inputs.eurusd;
               opNotify "USD/JPY" ReplayerInputs.usdjpy]
              newProxy).1.

Definition last_first : list (string * TopicEntry TopOfBook) :=
  rev (m_entries two_topics).

End MorePubInputs.

(** ** internal/market_data_replayer.cpp driven to the end of its stream *)

Module ReplayerRuns.
Import Flow Replayer.

(** The lookahead followed by the unread lines, whatever the lookahead. *)
Definition lookaheadAndRest (s : Impl) : list NextLine :=
  m_nextLine s :: map ofLine (m_inputData s).

(** What is left of the records once the leading ones stamped before
    [ts] are dropped. *)
Fixpoint dropOlder (ts : TimestampNs) (rs : list NextLine) : list NextLine :=
  match rs with
  | r :: rest => if timestamp r <? ts then dropOlder ts rest else rs
  | [] => []
  end.

(** The replayer as the event loop drives it: [postNextEvent] has
    [dispatchNextEvent] called again as long as [getNextEventTime] is
    below the sentinel. *)
Fixpoint replayAll (fuel : nat) (s : Impl) : option (Impl * list Call) :=
  if getNextEventTime s <? TimestampNs_max then
    match fuel with
    | O => None
    | S fuel' =>
        match dispatchNextEvent s with
        | None => None
        | Some (s1, calls1) =>
            match replayAll fuel' s1 with
            | None => None
            | Some (s2, calls2) => Some (s2, calls1 ++ calls2)
            end
        end
    end
  else Some (s, []).

(** Every call of [dispatchNextEvent] reads at least one line. *)
Definition replay (s : Impl) : option (Impl * list Call) :=
  replayAll (S (length (m_inputData s))) s.

(** The publisher's side of the calls: [createEntry] is for a symbol
    without an entry, [publish] is on an entry that exists; the books the
    entries point to are those given last. *)
Fixpoint follows (records : gmap string TopOfBook) (calls : list Call)
  : option (gmap string TopOfBook) :=
  match calls with
  | [] => Some records
  | callCreateEntry sym b :: rest =>
      match records !! sym with
      | None => follows (<[sym := b]> records) rest
      | Some _ => None
      end
  | callPublish sym b :: rest =>
      match records !! sym with
      | Some _ => follows (<[sym := b]> records) rest
      | None => None
      end
  | callEndBatch :: rest => follows records rest
  end.

End ReplayerRuns.

Module MoreReplayerInputs.
Import Flow Replayer.

(** The lookahead of [three_lines] after the two records stamped 1s. *)
Definition third_line : NextLine :=
  mkNextLine 2000000000 "EUR/USD" Inputs.eurusd.

End MoreReplayerInputs.

(** * Properties of the LP simulator *)

Module LPSimFacts.
Import Double Flow Risk LPSim.

(** Comparisons with NaN are false. *)
Lemma ltb_nan_l (x : double) : ltb quiet_NaN x = false.
Proof. reflexivity. Qed.

Lemma ltb_nan_r (x : double) : ltb x quiet_NaN = false.
Proof. destruct x; reflexivity. Qed.

Lemma isnan_true (x : double) : isnan x = true -> x = quiet_NaN.
Proof. destruct x; simpl; intros H; try discriminate; reflexivity. Qed.

Lemma gtb_zero_not_nan (x : double) : gtb x zero = true -> isnan x = false.
Proof. destruct x; simpl; intros H; try discriminate; reflexivity. Qed.

(** [std::min] returns its first argument when that one is NaN. *)
Lemma std_min_nan_l (y : double) : std_min quiet_NaN y = quiet_NaN.
Proof. unfold std_min. now rewrite ltb_nan_r. Qed.

(** A validated order has a book behind its pointer. *)
Lemma validateOrder_book svc ex order :
  validateOrder svc ex order = true -> exists b, m_book ex = Some b.
Proof.
  unfold validateOrder. destruct (m_book ex) as [b|]; simpl.
  - eauto.
  - discriminate.
Qed.

(** The four conjuncts of [validateOrder]. *)
Lemma validateOrder_spec svc ex order :
  validateOrder svc ex order = true <->
  (exists b, m_book ex = Some b) /\ tif order = IOC /\
  gtb (qty order) zero = true /\
  getMinOrderGap svc <= getEventTime svc - m_lastOrderSendTime ex.
Proof.
  unfold validateOrder. rewrite !andb_true_iff, Z.geb_le. split.
  - intros [[[Hb Ht] Hq] Hg]. repeat split; try assumption.
    + destruct (m_book ex); [eauto | discriminate].
    + destruct (tif order); [discriminate | reflexivity].
  - intros [[b Hb] [Ht [Hq Hg]]]. rewrite Hb, Ht. auto.
Qed.

(** [process] on a validated order, in terms of [agress]. *)
Lemma process_validated svc ex order b :
  m_book ex = Some b -> validateOrder svc ex order = true ->
  process svc ex order =
  let ex1 := withLastOrderSendTime ex (getEventTime svc) in
  let '(svc1, posted, doneStatus) :=
    agress svc ex1 order (qtyAtTop order b) (topPrice order b) in
  mkOutcome svc1 ex1 (ackOrder ex order)
            (posted ++ enqueOrderDone svc1 order doneStatus).
Proof.
  intros Hb Hv. unfold process. rewrite Hv. simpl. rewrite Hb. reflexivity.
Qed.

Lemma process_rejected svc ex order :
  validateOrder svc ex order = false ->
  process svc ex order =
  mkOutcome svc ex (ackOrder ex order)
            (enqueOrderDone svc order InternalReject).
Proof. intros Hv. unfold process. now rewrite Hv. Qed.

(** [agress] when the order does not cross. *)
Lemma agress_no_cross svc ex order q p :
  doesNotCross order p = true -> agress svc ex order q p = (svc, [], Done).
Proof. intros H. unfold agress. now rewrite H. Qed.

(** [agress] when nothing can be matched. *)
Lemma agress_no_qty svc ex order q p :
  doesNotCross order p = false -> gtb (matchedQty order q) zero = false ->
  agress svc ex order q p = (svc, [], Done).
Proof. intros H1 H2. unfold agress. now rewrite H1, H2. Qed.

(** The settings are not touched by the position updates. *)
Lemma validateNOPChange_settings svc ex dealt contra :
  m_settings (fst (validateNOPChange svc ex dealt contra)) = m_settings svc.
Proof.
  unfold validateNOPChange. destruct (isnan dealt || isnan contra); reflexivity.
Qed.

(** The verdict of the gate. *)
Lemma validateNOPChange_verdict svc ex dealt contra :
  snd (validateNOPChange svc ex dealt contra) =
  negb (isnan dealt || isnan contra)
  && (ltb (getNOP (addPosition (m_quoteAsset ex) contra
                     (addPosition (m_baseAsset ex) dealt svc)))
          (getNOP svc)
      || leb (getNOP (addPosition (m_quoteAsset ex) contra
                        (addPosition (m_baseAsset ex) dealt svc)))
             (getMaxNOP svc)).
Proof.
  unfold validateNOPChange. destruct (isnan dealt || isnan contra); reflexivity.
Qed.

(** When the gate refuses on a NaN it has not touched the positions. *)
Lemma validateNOPChange_nan svc ex dealt contra :
  isnan dealt || isnan contra = true ->
  validateNOPChange svc ex dealt contra = (svc, false).
Proof. intros H. unfold validateNOPChange. now rewrite H. Qed.


(** Price improvement is always on. *)
Lemma matchedPrice_top order top : matchedPrice order top = top.
Proof. unfold matchedPrice. now rewrite orb_true_r. Qed.

(** The outcome of [process] on a validated order that crosses with a
    positive matched quantity: the gate alone decides. *)
Lemma process_gated svc ex order b :
  m_book ex = Some b ->
  validateOrder svc ex order = true ->
  doesNotCross order (topPrice order b) = false ->
  gtb (matchedQty order (qtyAtTop order b)) zero = true ->
  let dealt := mul (of_int (sideToSign (side order)))
                   (matchedQty order (qtyAtTop order b)) in
  let contra := mul (opp dealt) (topPrice order b) in
  let newNOP := getNOP (addPosition (m_quoteAsset ex) contra
                          (addPosition (m_baseAsset ex) dealt svc)) in
  out_posted (process svc ex order) =
  if negb (isnan dealt || isnan contra)
     && (ltb newNOP (getNOP svc) || leb newNOP (getMaxNOP svc))
  then [(getOutboundDelay svc, EvFill (orderId order) dealt contra);
        (getOutboundDelay svc, EvOrderDone (orderId order) Done)]
  else [(getOutboundDelay svc, EvOrderDone (orderId order) InternalReject)].
Proof.
  intros Hb Hv Hc Hq dealt contra newNOP.
  rewrite (process_validated _ _ _ _ Hb Hv). cbv zeta.
  unfold agress. rewrite Hc, Hq.
  rewrite !matchedPrice_top. fold dealt. fold contra.
  set (ex1 := withLastOrderSendTime ex (getEventTime svc)).
  pose proof (validateNOPChange_verdict svc ex1 dealt contra) as V.
  pose proof (validateNOPChange_settings svc ex1 dealt contra) as S.
  destruct (validateNOPChange svc ex1 dealt contra) as [svc1 ok].
  simpl in V, S. fold newNOP in V. rewrite <- V.
  unfold enqueueFill, enqueOrderDone, getOutboundDelay.
  destruct ok; simpl; rewrite S; reflexivity.
Qed.



(** C1 (amended).  For a validated order that crosses with a positive
    matched quantity, the fill is posted and the order terminated [Done]
    if and only if neither [dealt] nor [contra] is NaN and the NOP of the
    positions tentatively moved by [(dealt, contra)] is below the current
    NOP or at most [maxNOP]; otherwise the order is terminated
    [InternalReject] and no fill is posted. *)
Theorem nop_gate_accepts_iff svc ex order b :
  m_book ex = Some b ->
  validateOrder svc ex order = true ->
  doesNotCross order (topPrice order b) = false ->
  gtb (matchedQty order (qtyAtTop order b)) zero = true ->
  let dealt := mul (of_int (sideToSign (side order)))
                   (matchedQty order (qtyAtTop order b)) in
  let contra := mul (opp dealt) (topPrice order b) in
  let newNOP := getNOP (addPosition (m_quoteAsset ex) contra
                          (addPosition (m_baseAsset ex) dealt svc)) in
  let posted := out_posted (process svc ex order) in
  let accepted :=
    posted = [(getOutboundDelay svc, EvFill (orderId order) dealt contra);
              (getOutboundDelay svc, EvOrderDone (orderId order) Done)] in
  let rejected :=
    posted =
      [(getOutboundDelay svc, EvOrderDone (orderId order) InternalReject)] in
  (accepted <->
   isnan dealt = false /\ isnan contra = false /\
   (ltb newNOP (getNOP svc) = true \/ leb newNOP (getMaxNOP svc) = true))
  /\ (~ accepted -> rejected).
Proof.
  intros Hb Hv Hc Hq dealt contra newNOP posted accepted rejected.
  pose proof (process_gated _ _ _ _ Hb Hv Hc Hq) as P. cbv zeta in P.
  fold dealt contra newNOP posted in P.
  unfold accepted, rejected. rewrite P.
  destruct (isnan dealt), (isnan contra),
           (ltb newNOP (getNOP svc)), (leb newNOP (getMaxNOP svc));
    simpl; split; try (intros _; reflexivity);
    (split; [ intros H; solve [ discriminate H | auto ]
            | intros H; solve [ reflexivity
                              | destruct H as (H1 & H2 & [H3 | H3]);
                                discriminate ] ])
    || (intros H; exfalso; apply H; reflexivity).
Qed.

(** C9.  A validated order that crosses a side whose size is NaN (the
    price not being NaN) matches [std::min(NaN, qty)], which is NaN and
    fails [matchedQty > 0]: the order is terminated [Done], no fill is
    posted and the positions are untouched. *)
Theorem nan_size_yields_no_fill svc ex order b :
  m_book ex = Some b ->
  validateOrder svc ex order = true ->
  isnan (qtyAtTop order b) = true ->
  isnan (topPrice order b) = false ->
  ltb (mul (price order) (of_int (sideToSign (side order))))
      (sub (mul (topPrice order b) (of_int (sideToSign (side order))))
           lit_1e_8) = false ->
  matchedQty order (qtyAtTop order b) = quiet_NaN /\
  gtb (matchedQty order (qtyAtTop order b)) zero = false /\
  out_posted (process svc ex order) =
    [(getOutboundDelay svc, EvOrderDone (orderId order) Done)] /\
  out_service (process svc ex order) = svc.
Proof.
  intros Hb Hv Hnan Htop Hcross.
  assert (Hm : matchedQty order (qtyAtTop order b) = quiet_NaN).
  { unfold matchedQty. rewrite (isnan_true _ Hnan). apply std_min_nan_l. }
  assert (Hq : gtb (matchedQty order (qtyAtTop order b)) zero = false).
  { rewrite Hm. reflexivity. }
  assert (Hd : doesNotCross order (topPrice order b) = false).
  { unfold doesNotCross, priceTolerance. rewrite Htop, Hcross. reflexivity. }
  repeat split; try assumption;
    rewrite (process_validated _ _ _ _ Hb Hv); cbv zeta;
    rewrite (agress_no_qty _ _ _ _ _ Hd Hq); reflexivity.
Qed.

(** C8.  [process] sets [m_lastOrderSendTime] to the current time exactly
    when the order passes [validateOrder], whatever [agress] then does;
    any order processed afterwards, less than [minOrderGap] later, is
    terminated [InternalReject] and leaves positions and clock alone. *)
Theorem order_gap_clock svc ex order :
  let ex1 := out_executor (process svc ex order) in
  m_lastOrderSendTime ex1 =
    (if validateOrder svc ex order then getEventTime svc
     else m_lastOrderSendTime ex)
  /\
  (validateOrder svc ex order = true ->
   forall svc2 order2,
     getEventTime svc2 - getEventTime svc < getMinOrderGap svc2 ->
     let next := process svc2 ex1 order2 in
     out_posted next =
       [(getOutboundDelay svc2,
         EvOrderDone (orderId order2) InternalReject)] /\
     out_service next = svc2 /\
     m_lastOrderSendTime (out_executor next) = getEventTime svc).
Proof.
  intros ex1.
  assert (Hclock : m_lastOrderSendTime ex1 =
                   if validateOrder svc ex order then getEventTime svc
                   else m_lastOrderSendTime ex).
  { unfold ex1. destruct (validateOrder svc ex order) eqn:Hv.
    - destruct (validateOrder_book _ _ _ Hv) as [b Hb].
      rewrite (process_validated _ _ _ _ Hb Hv). cbv zeta.
      destruct (agress _ _ _ _ _) as [[svc1 posted] st]. reflexivity.
    - rewrite (process_rejected _ _ _ Hv). reflexivity. }
  split; [exact Hclock |].
  intros Hv svc2 order2 Hgap next. rewrite Hv in Hclock.
  assert (Hv2 : validateOrder svc2 ex1 order2 = false).
  { apply not_true_is_false. intros H.
    apply validateOrder_spec in H. destruct H as (_ & _ & _ & H).
    rewrite Hclock in H. lia. }
  unfold next. rewrite (process_rejected _ _ _ Hv2). simpl. auto.
Qed.

(** [x mod 2^64] has the parity of [x]. *)
Lemma odd_mod_modulus (x : Z) : Z.odd (x mod OrderId_modulus) = Z.odd x.
Proof.
  rewrite <- !Z.bit0_odd. unfold OrderId_modulus.
  apply Z.mod_pow2_bits_low. lia.
Qed.

(** C3 (amended).  Each [sendOrder] advances [m_lastOrderId] by one
    (modulo [2^64]) and returns the new value, so the counter grows
    strictly until it wraps and successive calls return identifiers of
    alternating parity. *)
Theorem sendOrder_steps_by_one svc ex s p q t s' p' q' t' :
  let first := sendOrder svc ex s p q t in
  let svc1 := first.1.1.1 in
  let id1 := first.2 in
  let second := sendOrder svc1 first.1.1.2 s' p' q' t' in
  let id2 := second.2 in
  m_lastOrderId svc1 = (m_lastOrderId svc + 1) mod OrderId_modulus /\
  id1 = m_lastOrderId svc1 /\
  (0 <= m_lastOrderId svc < OrderId_modulus - 1 ->
   m_lastOrderId svc1 = m_lastOrderId svc + 1) /\
  Z.odd id1 = negb (Z.odd (m_lastOrderId svc)) /\
  Z.odd id2 = negb (Z.odd id1).
Proof.
  intros first svc1 id1 second id2.
  assert (H1 : m_lastOrderId svc1 = (m_lastOrderId svc + 1) mod OrderId_modulus)
    by reflexivity.
  assert (H2 : id1 = m_lastOrderId svc1) by reflexivity.
  assert (H3 : id2 = (id1 + 1) mod OrderId_modulus) by reflexivity.
  assert (Hodd : forall x, Z.odd ((x + 1) mod OrderId_modulus) = negb (Z.odd x)).
  { intros x. rewrite odd_mod_modulus. rewrite Z.add_1_r, Z.odd_succ.
    symmetry. apply Z.negb_odd. }
  split; [| split; [| split; [| split]]].
  - exact H1.
  - exact H2.
  - intros Hr. rewrite H1. apply Z.mod_small. lia.
  - rewrite H2, H1. apply Hodd.
  - rewrite H3. apply Hodd.
Qed.

End LPSimFacts.

(** * The LP simulator on concrete inputs *)

Module LPSimCases.
Import Double Flow Risk LPSim Inputs LPSimFacts.

(** Scenario: buy 500000 at market against 1e6 @ 1.1002 with
    [maxNOP = 1e7]: the fill is [(+500000, -550100)]. *)
Lemma buy_at_market_fills :
  out_posted (process (service (60 * sec) eurusd zero zero d_1e7)
                      (executor eurusd) buy_500000) =
  [(ms, EvFill 1 d_500000 (opp d_550100)); (ms, EvOrderDone 1 Done)].
Proof. vm_compute. reflexivity. Qed.

(** Scenario: the same order with [maxNOP = 1e5] is refused by the gate. *)
Lemma buy_at_market_breaches_nop :
  out_posted (process (service (60 * sec) eurusd zero zero d_1e5)
                      (executor eurusd) buy_500000) =
  [(ms, EvOrderDone 1 InternalReject)].
Proof. vm_compute. reflexivity. Qed.

(** Witness of C1: the market buy within the limit. *)
Lemma nop_gate_accepts_iff_witness :
  let svc := service (60 * sec) eurusd zero zero d_1e7 in
  let ex := executor eurusd in
  m_book ex = Some eurusd /\
  validateOrder svc ex buy_500000 = true /\
  doesNotCross buy_500000 (topPrice buy_500000 eurusd) = false /\
  gtb (matchedQty buy_500000 (qtyAtTop buy_500000 eurusd)) zero = true /\
  out_posted (process svc ex buy_500000) =
    [(ms, EvFill 1 d_500000 (opp d_550100)); (ms, EvOrderDone 1 Done)].
Proof.
  intros svc ex.
  assert (Hb : m_book ex = Some eurusd) by reflexivity.
  assert (Hv : validateOrder svc ex buy_500000 = true)
    by (vm_compute; reflexivity).
  assert (Hc : doesNotCross buy_500000 (topPrice buy_500000 eurusd) = false)
    by (vm_compute; reflexivity).
  assert (Hq : gtb (matchedQty buy_500000 (qtyAtTop buy_500000 eurusd)) zero
               = true) by (vm_compute; reflexivity).
  repeat (split; [assumption |]).
  destruct (nop_gate_accepts_iff svc ex buy_500000 eurusd Hb Hv Hc Hq)
    as [Hiff _].
  apply Hiff. vm_compute. repeat split. right. reflexivity.
Defined.

(** Counterexample to C1 as stated.  With [maxNOP = +inf], an unbounded
    buy against an unbounded ask at price zero is validated, crosses and
    matches a positive quantity; the tentative NOP is [+inf <= maxNOP];
    yet [contra = -inf * 0] is NaN and the gate refuses. *)
Lemma nop_gate_counterexample :
  let svc := service (60 * sec) zero_ask zero zero infinity in
  let ex := executor zero_ask in
  let order := buy_unbounded in
  let dealt := mul (of_int (sideToSign (side order)))
                   (matchedQty order (qtyAtTop order zero_ask)) in
  let contra := mul (opp dealt) (topPrice order zero_ask) in
  let newNOP := getNOP (addPosition (m_quoteAsset ex) contra
                          (addPosition (m_baseAsset ex) dealt svc)) in
  validateOrder svc ex order = true /\
  doesNotCross order (topPrice order zero_ask) = false /\
  gtb (matchedQty order (qtyAtTop order zero_ask)) zero = true /\
  (ltb newNOP (getNOP svc) = true \/ leb newNOP (getMaxNOP svc) = true) /\
  fillsOf (out_posted (process svc ex order)) = [] /\
  statusesOf (out_posted (process svc ex order)) = [InternalReject].
Proof. vm_compute. repeat split. right. reflexivity. Qed.


(** Witness of C9: the ask size is NaN. *)
Lemma nan_size_yields_no_fill_witness :
  let svc := service (60 * sec) nan_ask_size zero zero d_1e7 in
  let ex := executor nan_ask_size in
  m_book ex = Some nan_ask_size /\
  validateOrder svc ex buy_500000 = true /\
  isnan (qtyAtTop buy_500000 nan_ask_size) = true /\
  out_posted (process svc ex buy_500000) = [(ms, EvOrderDone 1 Done)] /\
  out_service (process svc ex buy_500000) = svc.
Proof.
  intros svc ex.
  assert (Hb : m_book ex = Some nan_ask_size) by reflexivity.
  assert (Hv : validateOrder svc ex buy_500000 = true)
    by (vm_compute; reflexivity).
  assert (Hn : isnan (qtyAtTop buy_500000 nan_ask_size) = true)
    by reflexivity.
  repeat (split; [assumption |]).
  apply (nan_size_yields_no_fill svc ex buy_500000 nan_ask_size Hb Hv Hn).
  - reflexivity.
  - vm_compute. reflexivity.
Defined.

(** Witness of C8: an order that is validated but does not cross, then a
    second one five seconds later with [minOrderGap = 10s]. *)
Lemma order_gap_clock_witness :
  let svc := service (60 * sec) eurusd zero zero d_1e7 in
  let ex := executor eurusd in
  let svc2 := service (65 * sec) eurusd zero zero d_1e7 in
  let ex1 := out_executor (process svc ex buy_below_ask) in
  validateOrder svc ex buy_below_ask = true /\
  fillsOf (out_posted (process svc ex buy_below_ask)) = [] /\
  m_lastOrderSendTime ex1 = 60 * sec /\
  out_posted (process svc2 ex1 buy_500000) =
    [(ms, EvOrderDone 1 InternalReject)].
Proof.
  intros svc ex svc2 ex1.
  assert (Hv : validateOrder svc ex buy_below_ask = true)
    by (vm_compute; reflexivity).
  destruct (order_gap_clock svc ex buy_below_ask) as [Hclock Hnext].
  fold ex1 in Hclock, Hnext. rewrite Hv in Hclock.
  split; [exact Hv |]. split; [vm_compute; reflexivity |].
  split; [exact Hclock |].
  apply (Hnext Hv svc2 buy_500000). vm_compute. reflexivity.
Defined.

(** C6 on a concrete input.  After a fill of 0.1 EUR at 1.1002 the
    simulator holds [EUR = 0.1], [USD = -(0.1 * 1.1002)].  A market buy of
    500000 with [maxNOP = 1e5] is refused by the gate, and the slots are
    left at [(0.1 + 500000) - 500000] and its quote counterpart, which are
    not the values they held. *)
Lemma nop_reject_moves_positions :
  let usd := mul (opp d_0_1) d_1_1002 in
  let svc := service (60 * sec) eurusd d_0_1 usd d_1e5 in
  let result := process svc (executor eurusd) buy_500000 in
  out_posted result = [(ms, EvOrderDone 1 InternalReject)] /\
  m_positions svc =
    [("EUR", lit 7205759403792794 (-56));
     ("USD", opp (lit 7927776496052832 (-56)))] /\
  m_positions (out_service result) =
    [("EUR", lit 7205759402115072 (-56));
     ("USD", opp (lit 7927776497631232 (-56)))] /\
  m_positions (out_service result) <> m_positions svc.
Proof. vm_compute. repeat split. discriminate. Qed.

(** When the gate refuses because [dealt] or [contra] is NaN, it has not
    touched the positions at all. *)
Lemma nop_reject_on_nan_keeps_positions :
  let svc := service (60 * sec) zero_ask d_0_1 d_0_1 d_1e5 in
  out_service (process svc (executor zero_ask) buy_unbounded) = svc.
Proof. vm_compute. reflexivity. Qed.

(** Counterexample to C3 as stated: the first [sendOrder] of a fresh
    simulator moves the counter from 0 to 1, not to 2, and the next one
    returns 2. *)
Lemma sendOrder_counterexample :
  let svc := service (60 * sec) eurusd zero zero d_1e7 in
  let first := sendOrder svc (executor eurusd) Buy quiet_NaN d_500000 IOC in
  let second :=
    sendOrder first.1.1.1 first.1.1.2 Buy quiet_NaN d_500000 IOC in
  m_lastOrderId svc = 0 /\
  m_lastOrderId first.1.1.1 = 1 /\
  m_lastOrderId first.1.1.1 <> m_lastOrderId svc + 2 /\
  first.2 = 1 /\ second.2 = 2.
Proof. vm_compute. repeat split. discriminate. Qed.

(** Witness of C3. *)
Lemma sendOrder_steps_by_one_witness :
  let svc := service (60 * sec) eurusd zero zero d_1e7 in
  let first := sendOrder svc (executor eurusd) Buy quiet_NaN d_500000 IOC in
  0 <= m_lastOrderId svc < OrderId_modulus - 1 /\
  m_lastOrderId first.1.1.1 = m_lastOrderId svc + 1.
Proof.
  intros svc first.
  assert (Hr : 0 <= m_lastOrderId svc < OrderId_modulus - 1)
    by (change (0 <= 0 < 2 ^ 64 - 1); lia).
  split; [exact Hr |].
  destruct (sendOrder_steps_by_one svc (executor eurusd)
              Buy quiet_NaN d_500000 IOC Buy quiet_NaN d_500000 IOC)
    as (_ & _ & H & _).
  exact (H Hr).
Defined.

End LPSimCases.

(** * Properties of the event loop *)

Module EventLoopFacts.
Import Flow EventLoop.

(** Appending a maximum keeps a list sorted. *)
Lemma StronglySorted_snoc (h : list Z) (t : Z) :
  StronglySorted Z.le h -> Forall (fun x => x <= t) h ->
  StronglySorted Z.le (h ++ [t]).
Proof.
  induction 1 as [| a h Hs IH Ha]; intros Hle; simpl.
  - repeat constructor.
  - inversion Hle as [| ? ? Hat Hht]; subst. constructor.
    + apply IH. exact Hht.
    + apply List.Forall_app. split; [exact Ha |]. repeat constructor. exact Hat.
Qed.

Section Monotone.

Context {Ev U : Type}.
Variable start : TimestampNs.
Variable run : Ev -> U -> TimestampNs -> U * list (Command Ev).

(** Closures only post and stop with non-negative delays. *)
Hypothesis run_forward :
  forall e u t, Forall (fun c => 0 <= commandDelta c) (snd (run e u t)).

#[local] Abbreviation Inv := (@EventLoop.Inv Ev U start).

Lemma Inv_EventLoop u : Inv (EventLoop start u).
Proof.
  constructor; simpl.
  - constructor.
  - repeat constructor.
  - repeat constructor. lia.
  - exists []. reflexivity.
  - exists []. reflexivity.
Qed.

(** The element served first expires no later than those left behind,
    and the two together make up the queue. *)
Lemma extractTop_spec (q : list (TimedEvent Ev)) x r :
  extractTop q = Some (x, r) ->
  (forall z, In z q <-> z = x \/ In z r) /\
  Forall (fun y => m_expireTime x <= m_expireTime y) r.
Proof.
  revert x r. induction q as [| a q IH]; intros x r H; simpl in H.
  - discriminate.
  - destruct (extractTop q) as [[y r'] |] eqn:E.
    + destruct (IH y r' eq_refl) as (Hmem & Hle).
      destruct (before y a) eqn:B; inversion H; subst; clear H.
      * split.
        -- intros z. simpl. rewrite Hmem. intuition.
        -- constructor; [| exact Hle].
           unfold before in B. apply orb_true_iff in B.
           destruct B as [B | B]; [lia |].
           apply andb_true_iff in B. lia.
      * assert (Hxy : m_expireTime x <= m_expireTime y).
        { unfold before in B. apply orb_false_iff in B.
          destruct B as [B _]. lia. }
        split.
        -- intros z. simpl. intuition.
        -- rewrite List.Forall_forall. intros z Hz.
           apply Hmem in Hz. destruct Hz as [-> | Hz]; [exact Hxy |].
           rewrite List.Forall_forall in Hle. specialize (Hle z Hz). lia.
    + inversion H; subst; clear H. split.
      * intros z. destruct q as [| b q].
        -- simpl. intuition.
        -- simpl in E. destruct (extractTop q) as [[y0 r0] |];
             [destruct (before y0 b) |]; discriminate.
      * constructor.
Qed.

(** [extractTop] fails on the empty queue only. *)
Lemma extractTop_None (q : list (TimedEvent Ev)) :
  extractTop q = None -> q = [].
Proof.
  destruct q as [| a q]; [reflexivity |]. simpl.
  destruct (extractTop q) as [[y r] |]; [destruct (before y a) |];
    discriminate.
Qed.

Lemma Inv_setEnable b l : Inv l -> Inv (setEnable b l).
Proof. intros [H1 H2 H3 H4 H5]. constructor; assumption. Qed.

Lemma Inv_setUser u l : Inv l -> Inv (setUser u l).
Proof. intros [H1 H2 H3 H4 H5]. constructor; assumption. Qed.

Lemma Inv_setChores c l : Inv l -> Inv (setChores c l).
Proof. intros [H1 H2 H3 H4 H5]. constructor; assumption. Qed.

Lemma Inv_setLastEventId i l : Inv l -> Inv (setLastEventId i l).
Proof. intros [H1 H2 H3 H4 H5]. constructor; assumption. Qed.

Lemma Inv_setReplayableDispatchers n l :
  Inv l -> Inv (setReplayableDispatchers n l).
Proof. intros [H1 H2 H3 H4 H5]. constructor; assumption. Qed.

Lemma Inv_setActiveReplayableDispatchersCount n l :
  Inv l -> Inv (setActiveReplayableDispatchersCount n l).
Proof. intros [H1 H2 H3 H4 H5]. constructor; assumption. Qed.

Lemma Inv_addFutureEvent ts event eventId l :
  m_now l <= ts -> Inv l -> Inv (addFutureEvent ts event eventId l).
Proof.
  intros Hts [H1 H2 H3 H4 H5]. constructor; simpl; try assumption.
  constructor; [exact Hts | exact H1].
Qed.

Lemma Inv_stop delta l : 0 <= delta -> Inv l -> Inv (stop delta l).
Proof.
  intros Hd HI. unfold stop. apply Inv_addFutureEvent; [| exact HI].
  unfold getEventTime. lia.
Qed.

Lemma Inv_postEvent delta event l :
  0 <= delta -> Inv l -> Inv (fst (postEvent delta event l)).
Proof.
  intros Hd HI. unfold postEvent. destruct (delta =? 0); simpl.
  - apply Inv_setChores, Inv_setLastEventId, HI.
  - apply Inv_addFutureEvent; [simpl; lia |].
    apply Inv_setLastEventId, HI.
Qed.

Lemma Inv_onReplayableDone l : Inv l -> Inv (onReplayableDone l).
Proof.
  intros HI. unfold onReplayableDone.
  destruct (m_activeReplayableDispatchersCount l - 1 =? 0).
  - apply Inv_stop; [lia |].
    apply Inv_setActiveReplayableDispatchersCount, HI.
  - apply Inv_setActiveReplayableDispatchersCount, HI.
Qed.

Lemma Inv_perform l c : 0 <= commandDelta c -> Inv l -> Inv (perform l c).
Proof.
  destruct c as [d e | d |]; simpl; intros Hd HI.
  - apply Inv_postEvent; assumption.
  - apply Inv_stop; assumption.
  - apply Inv_onReplayableDone, HI.
Qed.

Lemma Inv_performAll cs l :
  Forall (fun c => 0 <= commandDelta c) cs -> Inv l ->
  Inv (fold_left perform cs l).
Proof.
  revert l. induction cs as [| c cs IH]; intros l Hcs HI; simpl.
  - exact HI.
  - inversion Hcs; subst. apply IH; [assumption |].
    apply Inv_perform; assumption.
Qed.

(** The dispatcher of a replayable never posts into the past: it clamps
    the delay at zero. *)
Lemma postNextEvent_forward (self : Ev) now next :
  Forall (fun c => 0 <= commandDelta c) (postNextEvent self now next).
Proof.
  unfold postNextEvent. destruct (next <? TimestampNs_max).
  - repeat constructor. simpl. destruct (next >? now) eqn:E; [| lia].
    apply Z.gtb_lt in E. lia.
  - repeat constructor. simpl. lia.
Qed.

Lemma Inv_add self next l l' : add self next l = Some l' -> Inv l -> Inv l'.
Proof.
  unfold add. destruct (m_replayableDispatchers l <? MAX_REPLAYABLES)%nat;
    [| discriminate].
  intros H HI. inversion H; subst; clear H.
  apply Inv_setActiveReplayableDispatchersCount.
  apply Inv_performAll; [apply postNextEvent_forward |].
  apply Inv_setReplayableDispatchers, HI.
Qed.

Lemma Inv_invoke event l : Inv l -> Inv (invoke run event l).
Proof.
  intros HI. destruct event as [e |]; simpl.
  - pose proof (run_forward e (m_user l) (getEventTime l)) as Hf.
    destruct (run e (m_user l) (getEventTime l)) as [u cs]. simpl in Hf.
    apply Inv_performAll; [exact Hf |]. apply Inv_setUser, HI.
  - apply Inv_setEnable, HI.
Qed.

(** Moving the clock to the expiry of the element served first. *)
Lemma Inv_serve l x r :
  extractTop (m_futureEvents l) = Some (x, r) -> Inv l ->
  Inv (setNow (m_expireTime x) (setFutureEvents r l)).
Proof.
  intros E [H1 H2 H3 H4 H5]. destruct (extractTop_spec _ _ _ E) as [Hmem Hle].
  assert (Hx : m_now l <= m_expireTime x).
  { rewrite List.Forall_forall in H1. apply H1. apply Hmem. left. reflexivity. }
  constructor; simpl.
  - exact Hle.
  - apply StronglySorted_snoc; [exact H2 |].
    eapply List.Forall_impl; [| exact H3]. simpl. intros; lia.
  - apply List.Forall_app. split.
    + eapply List.Forall_impl; [| exact H3]. simpl. intros; lia.
    + repeat constructor. lia.
  - eexists. reflexivity.
  - destruct H5 as [h Hh]. rewrite Hh. exists (h ++ [m_expireTime x]).
    reflexivity.
Qed.

(** The fast-forward leaves the queue as it is. *)
Lemma Inv_fastForward l x r :
  extractTop (m_futureEvents l) = Some (x, r) -> Inv l ->
  Inv (setNow (m_expireTime x) l).
Proof.
  intros E [H1 H2 H3 H4 H5]. destruct (extractTop_spec _ _ _ E) as [Hmem Hle].
  assert (Hx : m_now l <= m_expireTime x).
  { rewrite List.Forall_forall in H1. apply H1. apply Hmem. left. reflexivity. }
  constructor; simpl.
  - rewrite List.Forall_forall. intros z Hz. apply Hmem in Hz.
    destruct Hz as [-> | Hz]; [lia |].
    rewrite List.Forall_forall in Hle. apply Hle. exact Hz.
  - apply StronglySorted_snoc; [exact H2 |].
    eapply List.Forall_impl; [| exact H3]. simpl. intros; lia.
  - apply List.Forall_app. split.
    + eapply List.Forall_impl; [| exact H3]. simpl. intros; lia.
    + repeat constructor. lia.
  - eexists. reflexivity.
  - destruct H5 as [h Hh]. rewrite Hh. exists (h ++ [m_expireTime x]).
    reflexivity.
Qed.

Lemma Inv_dispatchChores fuel l :
  Inv l -> Inv (stateOf (dispatchChores run fuel l)).
Proof.
  revert l. induction fuel as [| fuel IH]; intros l HI; simpl;
    destruct (m_enable l); try exact HI;
    destruct (m_chores l) as [| [i event] rest]; try exact HI.
  apply IH. apply Inv_invoke, Inv_setChores, HI.
Qed.

Lemma Inv_dispatchNextFutureEvent l :
  Inv l -> Inv (dispatchNextFutureEvent run l).
Proof.
  intros HI. unfold dispatchNextFutureEvent.
  destruct (m_enable l); [| exact HI].
  destruct (extractTop (m_futureEvents l)) as [[x r] |] eqn:E; [| exact HI].
  apply Inv_invoke. eapply Inv_serve; eassumption.
Qed.

Lemma Inv_dispatchWhile fuel l :
  Inv l -> Inv (stateOf (dispatchWhile run fuel l)).
Proof.
  revert l. induction fuel as [| fuel IH]; intros l HI; simpl;
    destruct (m_enable l && hasWork l); try exact HI.
  pose proof (Inv_dispatchChores fuel l HI) as HC.
  destruct (dispatchChores run fuel l) as [l1 | l1]; simpl in HC.
  - apply IH. apply Inv_dispatchNextFutureEvent, HC.
  - exact HC.
Qed.

Lemma Inv_dispatch ff fuel l :
  Inv l -> Inv (stateOf (dispatch run ff fuel l)).
Proof.
  intros HI. unfold dispatch. apply Inv_dispatchWhile.
  destruct ff; [| apply Inv_setEnable, HI].
  destruct (extractTop (m_futureEvents (setEnable true l)))
    as [[x r] |] eqn:E.
  - eapply Inv_fastForward; [exact E |]. apply Inv_setEnable, HI.
  - apply Inv_setEnable, HI.
Qed.

Lemma Inv_operate op l :
  0 <= operationDelta op -> Inv l -> Inv (stateOf (operate run op l)).
Proof.
  destruct op as [d e | d | fuel]; simpl; intros Hd HI.
  - apply Inv_postEvent; assumption.
  - apply Inv_stop; assumption.
  - apply Inv_dispatch, HI.
Qed.

Lemma Inv_operateAll ops l :
  Forall (fun op => 0 <= operationDelta op) ops -> Inv l ->
  Inv (stateOf (operateAll run ops l)).
Proof.
  revert l. induction ops as [| op ops IH]; intros l Hops HI; simpl.
  - exact HI.
  - inversion Hops; subst.
    pose proof (Inv_operate op l ltac:(assumption) HI) as HO.
    destruct (operate run op l) as [l1 | l1]; simpl in HO.
    + apply IH; assumption.
    + exact HO.
Qed.

End Monotone.

(** C5 (amended).  Starting from a fresh loop, after any sequence of
    [postEvent], [stop] and [dispatch] calls whose delays are not
    negative, with closures that themselves post and stop with
    non-negative delays only, the values the clock has taken, in order,
    never decrease; this holds at every point of a dispatch, whether or
    not it has come back. *)
Theorem clock_is_monotone {Ev U : Type}
  (run : Ev -> U -> TimestampNs -> U * list (Command Ev))
  (start : TimestampNs) (u : U) (ops : list (Operation Ev)) :
  (forall e u t, Forall (fun c => 0 <= commandDelta c) (snd (run e u t))) ->
  Forall (fun op => 0 <= operationDelta op) ops ->
  let l := stateOf (operateAll run ops (EventLoop start u)) in
  StronglySorted Z.le (m_history l) /\
  (exists h, m_history l = start :: h) /\
  (exists h, m_history l = h ++ [getEventTime l]) /\
  start <= getEventTime l.
Proof.
  intros Hrun Hops l.
  destruct (Inv_operateAll start run Hrun ops (EventLoop start u) Hops
              (Inv_EventLoop start u)) as [_ Hsorted Hbound Hlast Hfirst].
  fold l in Hsorted, Hbound, Hlast, Hfirst.
  repeat split; try assumption.
  destruct Hfirst as [h Hh]. rewrite Hh in Hbound.
  inversion Hbound; subst. assumption.
Qed.

End EventLoopFacts.

(** * The event loop on concrete inputs *)

Module EventLoopCases.
Import Flow EventLoop LoopInputs EventLoopFacts.

(** Counterexample to C5 as stated: on a loop started at 100,
    [postEvent(-5ns, e)] queues [e] at 95; the fast-forward of [dispatch]
    sets the clock to 95 and [e] is dispatched at 95. *)
Lemma clock_counterexample :
  let l := stateOf (operateAll idle [opPostEvent (-5) tt; opDispatch 10]
                               (EventLoop 100 tt)) in
  m_history l = [100; 95; 95] /\
  getEventTime l = 95 /\
  ~ StronglySorted Z.le (m_history l).
Proof.
  vm_compute. repeat split.
  intros H. inversion H as [| a h Hs Hf]; subst.
  inversion Hf as [| x y Hxy Hrest]; subst. apply Hxy. reflexivity.
Qed.

(** The self re-arming timer only posts forward. *)
Lemma ticker_forward e u t :
  Forall (fun c => 0 <= commandDelta c) (snd (ticker e u t)).
Proof.
  unfold ticker.
  destruct (u <? 3)%nat; simpl; repeat constructor; simpl;
    unfold Inputs.sec; lia.
Qed.

(** Witness of C5: the timer armed at 1ms runs at 1ms, 1.001s, 2.001s and
    3.001s and then stops the loop. *)
Lemma clock_is_monotone_witness :
  let ops := [opPostEvent Inputs.ms tt; opDispatch 100] in
  let l := stateOf (operateAll ticker ops (EventLoop 0 0%nat)) in
  Forall (fun op => 0 <= operationDelta op) ops /\
  m_history l =
    [0; 1000000; 1000000; 1001000000; 2001000000; 3001000000; 3001000000] /\
  StronglySorted Z.le (m_history l) /\
  0 <= getEventTime l.
Proof.
  intros ops l.
  assert (Hops : Forall (fun op => 0 <= operationDelta op) ops).
  { repeat constructor; vm_compute; discriminate. }
  split; [exact Hops |]. split; [vm_compute; reflexivity |].
  destruct (clock_is_monotone ticker 0 0%nat ops ticker_forward Hops)
    as (Hs & _ & _ & Hle).
  split; assumption.
Defined.

End EventLoopCases.

(** * Properties of DirectConsumer *)

Module PubFacts.
Import Pub.

Section Batch.

Context {Record_ Sub : Type}.
Variable notify : Sub -> string -> Record_ -> Sub * list (string * Callback).
Variable handle : nat -> Sub -> string -> Record_ -> Sub.
Variable endOfBatch : Sub -> Sub.

#[local] Abbreviation Consumer := (DirectConsumer Record_ Sub).

Lemma subscribe_flag topic cb (dc : Consumer) :
  m_updates_received (subscribe topic cb dc) = m_updates_received dc.
Proof. unfold subscribe. destruct (m_entries dc !! topic); reflexivity. Qed.

Lemma subscribeAll_flag (subs : list (string * Callback)) (dc : Consumer) :
  m_updates_received
    (fold_left (fun d tc => subscribe tc.1 tc.2 d) subs dc) =
  m_updates_received dc.
Proof.
  revert dc. induction subs as [| tc subs IH]; intros dc; simpl.
  - reflexivity.
  - rewrite IH. apply subscribe_flag.
Qed.

(** [createEntry] notifies and does not touch the flag. *)
Lemma createEntry_flag topic data (dc : Consumer) :
  m_updates_received (createEntry notify topic data dc).1 =
    m_updates_received dc /\
  (createEntry notify topic data dc).2 = [callNotify topic data].
Proof.
  unfold createEntry.
  destruct (notify (m_subscriber (getCreateEntry topic data dc)) topic data)
    as [s subs].
  simpl. split; [| reflexivity]. rewrite subscribeAll_flag. reflexivity.
Qed.

(** [publish] invokes the callback and raises the flag when the callback
    is not empty, and does nothing otherwise. *)
Lemma Entry_publish_spec topic (dc dc' : Consumer) calls :
  publish handle topic dc = Some (dc', calls) ->
  exists e record,
    m_entries dc !! topic = Some e /\ m_data e = Some record /\
    if isNull (m_callback e)
    then dc' = dc /\ calls = []
    else m_updates_received dc' = true /\
         calls = [callCallback (m_callback e) (m_topic e) record].
Proof.
  unfold publish.
  destruct (m_entries dc !! topic) as [e |] eqn:He; [| discriminate].
  destruct (m_data e) as [record |] eqn:Hd; [| discriminate].
  intros H. exists e, record. split; [reflexivity |]. split; [exact Hd |].
  destruct (isNull (m_callback e)); simpl in H; inversion H; subst;
    split; reflexivity.
Qed.

(** The entry made by [getCreateEntry] for a new topic carries the no-op
    lambda, which is not an empty [std::function]. *)
Lemma getCreateEntry_fresh topic data (dc : Consumer) :
  m_entries dc !! topic = None ->
  m_entries (getCreateEntry topic data dc) !! topic =
    Some (mkEntry topic (Some data) NoOp) /\
  isNull NoOp = false.
Proof.
  intros H. unfold getCreateEntry. rewrite H. simpl.
  rewrite lookup_insert_eq. split; reflexivity.
Qed.

(** One operation raises the flag exactly when it invokes a callback. *)
Lemma operate_flag op (dc dc' : Consumer) calls :
  operate notify handle op dc = Some (dc', calls) ->
  m_updates_received dc' = m_updates_received dc || existsb isCallback calls.
Proof.
  destruct op as [topic data | topic cb | topic]; simpl; intros H.
  - injection H as H.
    destruct (createEntry_flag topic data dc) as [Hf Hc].
    rewrite H in Hf, Hc. simpl in Hf, Hc. subst calls.
    rewrite Hf. simpl. now rewrite orb_false_r.
  - inversion H; subst; clear H. simpl.
    rewrite subscribe_flag. now rewrite orb_false_r.
  - destruct (Entry_publish_spec _ _ _ _ H) as (e & record & _ & _ & Hp).
    destruct (isNull (m_callback e)).
    + destruct Hp as [-> ->]. simpl. now rewrite orb_false_r.
    + destruct Hp as [-> ->]. simpl. now rewrite orb_true_r.
Qed.

Lemma operateAll_flag ops (dc dc' : Consumer) calls :
  operateAll notify handle ops dc = Some (dc', calls) ->
  m_updates_received dc' = m_updates_received dc || existsb isCallback calls.
Proof.
  revert dc dc' calls. induction ops as [| op ops IH]; intros dc dc' calls H;
    simpl in H.
  - inversion H; subst. simpl. now rewrite orb_false_r.
  - destruct (operate notify handle op dc) as [[dc1 calls1] |] eqn:E1;
      [| discriminate].
    destruct (operateAll notify handle ops dc1) as [[dc2 calls2] |] eqn:E2;
      [| discriminate].
    inversion H; subst; clear H.
    rewrite (IH _ _ _ E2), (operate_flag _ _ _ _ E1).
    rewrite existsb_app. now rewrite orb_assoc.
Qed.

(** Only non-empty callbacks are ever invoked. *)
Lemma operateAll_callbacks ops (dc dc' : Consumer) calls :
  operateAll notify handle ops dc = Some (dc', calls) ->
  forall cb topic record,
    In (callCallback cb topic record) calls -> isNull cb = false.
Proof.
  revert dc dc' calls. induction ops as [| op ops IH]; intros dc dc' calls H;
    simpl in H.
  - inversion H; subst. intros ? ? ? [].
  - destruct (operate notify handle op dc) as [[dc1 calls1] |] eqn:E1;
      [| discriminate].
    destruct (operateAll notify handle ops dc1) as [[dc2 calls2] |] eqn:E2;
      [| discriminate].
    inversion H; subst; clear H. intros cb topic record Hin.
    apply in_app_or in Hin. destruct Hin as [Hin | Hin];
      [| exact (IH _ _ _ E2 _ _ _ Hin)].
    destruct op as [t d | t c | t]; simpl in E1.
    + injection E1 as E1.
      destruct (createEntry_flag t d dc) as [_ Hc].
      rewrite E1 in Hc. simpl in Hc. subst calls1.
      destruct Hin as [Hin | []]. discriminate.
    + inversion E1; subst. destruct Hin.
    + destruct (Entry_publish_spec _ _ _ _ E1) as (e & r & _ & _ & Hp).
      destruct (isNull (m_callback e)) eqn:N.
      * destruct Hp as [_ ->]. destruct Hin.
      * destruct Hp as [_ ->]. destruct Hin as [Hin | []].
        inversion Hin; subst. exact N.
Qed.

(** [endBatch] delivers exactly when the flag is up, and lowers it. *)
Lemma endBatch_spec (dc : Consumer) :
  (endBatch endOfBatch dc).2 =
    (if m_updates_received dc then [callEndOfBatch] else []) /\
  m_updates_received (endBatch endOfBatch dc).1 = false.
Proof. unfold endBatch. destruct (m_updates_received dc); split; reflexivity. Qed.

End Batch.

(** C4 (amended).  From a batch boundary (a new consumer, or one whose
    [endBatch] has just run), after any operations on the consumer and its
    entries, [endBatch] delivers [endOfBatch] if and only if some [publish]
    in between found a callback that is not an empty [std::function] and
    invoked it; the no-op lambda installed by [getCreateEntry] is such a
    callback. *)
Theorem endOfBatch_iff_callback_invoked {Record_ Sub : Type}
  (notify : Sub -> string -> Record_ -> Sub * list (string * Callback))
  (handle : nat -> Sub -> string -> Record_ -> Sub)
  (endOfBatch : Sub -> Sub)
  (dc dc' : DirectConsumer Record_ Sub) ops calls :
  m_updates_received dc = false ->
  operateAll notify handle ops dc = Some (dc', calls) ->
  (In callEndOfBatch (endBatch endOfBatch dc').2 <->
   exists cb topic record,
     In (callCallback cb topic record) calls /\ isNull cb = false) /\
  m_updates_received (endBatch endOfBatch dc').1 = false /\
  (forall topic data,
     m_entries dc' !! topic = None ->
     m_entries (getCreateEntry topic data dc') !! topic =
       Some (mkEntry topic (Some data) NoOp) /\
     isNull NoOp = false).
Proof.
  intros Hflag Hrun.
  pose proof (operateAll_flag _ _ _ _ _ _ Hrun) as Hf.
  rewrite Hflag in Hf. simpl in Hf.
  destruct (endBatch_spec endOfBatch dc') as [Hcalls Hlow].
  split; [| split; [exact Hlow | intros; now apply getCreateEntry_fresh]].
  rewrite Hcalls, Hf. split.
  - intros Hin. destruct (existsb isCallback calls) eqn:E; [| destruct Hin].
    apply existsb_exists in E. destruct E as [c [Hc Hk]].
    destruct c as [| cb topic record |]; try discriminate.
    exists cb, topic, record. split; [exact Hc |].
    eapply operateAll_callbacks; eassumption.
  - intros (cb & topic & record & Hin & _).
    assert (E : existsb isCallback calls = true).
    { apply existsb_exists. eexists. split; [exact Hin | reflexivity]. }
    rewrite E. left. reflexivity.
Qed.

End PubFacts.

Module PubCases.
Import Flow Pub PubInputs PubFacts.

Lemma first_tick_runs :
  cache_operateAll first_tick mdCachePub =
  Some (after_first_tick, first_tick_calls).
Proof. vm_compute. reflexivity. Qed.

(** Counterexample to C4 as stated: the consumer in front of the cache
    never sees a [subscribe], its entry keeps the initial no-op lambda;
    the first tick is published through it and [endBatch] delivers
    [endOfBatch] although no subscribed callback was run. *)
Lemma endOfBatch_counterexample :
  cache_operateAll first_tick mdCachePub =
    Some (after_first_tick, first_tick_calls) /\
  first_tick_calls = [callNotify "EUR/USD" Inputs.eurusd;
                      callCallback NoOp "EUR/USD" Inputs.eurusd] /\
  existsb isSubscribedCallback first_tick_calls = false /\
  (cache_endBatch after_first_tick).2 = [callEndOfBatch].
Proof. repeat split; vm_compute; reflexivity. Qed.

(** Witness of C4. *)
Lemma endOfBatch_iff_callback_invoked_witness :
  m_updates_received mdCachePub = false /\
  cache_operateAll first_tick mdCachePub =
    Some (after_first_tick, first_tick_calls) /\
  In callEndOfBatch (cache_endBatch after_first_tick).2.
Proof.
  assert (Hf : m_updates_received mdCachePub = false) by reflexivity.
  assert (E : cache_operateAll first_tick mdCachePub =
              Some (after_first_tick, first_tick_calls))
    by (vm_compute; reflexivity).
  split; [exact Hf |]. split; [exact E |].
  destruct (endOfBatch_iff_callback_invoked
              CacheSubscriber_notify CacheSubscriber_handle
              CacheSubscriber_endOfBatch mdCachePub after_first_tick
              first_tick first_tick_calls Hf E) as [Hiff _].
  apply Hiff. exists NoOp, "EUR/USD", Inputs.eurusd.
  split; [| reflexivity]. vm_compute. right. left. reflexivity.
Defined.

End PubCases.

(** * Properties of the market-data replayer *)

Module ReplayerFacts.
Import Flow Replayer.

(** [publish] publishes the lookahead, once, and nothing ends the batch. *)
Lemma replayer_publish_spec (s : Impl) :
  publishedOf (publish s).2 = [key (m_nextLine s)] /\
  countEndBatch (publish s).2 = 0%nat /\
  m_inputData (publish s).1 = m_inputData s /\
  m_nextLine (publish s).1 = m_nextLine s.
Proof.
  unfold publish. destruct (m_records s !! symbol (m_nextLine s));
    repeat split.
Qed.

Lemma publishedOf_app a b :
  publishedOf (a ++ b) = publishedOf a ++ publishedOf b.
Proof. unfold publishedOf. apply flat_map_app. Qed.

Lemma countEndBatch_app a b :
  countEndBatch (a ++ b) = (countEndBatch a + countEndBatch b)%nat.
Proof. unfold countEndBatch. rewrite List.filter_app. apply length_app. Qed.

Lemma readNextLine_nil (s : Impl) :
  m_inputData s = [] ->
  getNextEventTime (readNextLine s) = TimestampNs_max /\
  m_inputData (readNextLine s) = [].
Proof. intros H. unfold readNextLine. rewrite H. split; reflexivity. Qed.

Lemma readNextLine_cons (s : Impl) line rest :
  m_inputData s = line :: rest ->
  readNextLine s = mkImpl rest (m_records s) (ofLine line).
Proof. intros H. unfold readNextLine. rewrite H. reflexivity. Qed.

(** One turn of the loop. *)
Lemma doWhile_step fuel t (s : Impl) :
  doWhile (S fuel) t s =
  if getNextEventTime (readNextLine (publish s).1) =? t then
    match doWhile fuel t (readNextLine (publish s).1) with
    | None => None
    | Some (s3, calls3) => Some (s3, (publish s).2 ++ calls3)
    end
  else Some (readNextLine (publish s).1, (publish s).2).
Proof. simpl. destruct (publish s) as [s1 calls1]. reflexivity. Qed.

(** The loop, started on any lookahead with [startTime] below the
    sentinel and more fuel than unread lines: it publishes the lookahead
    and then the leading lines stamped [startTime], and stops with the
    lookahead on the first line stamped otherwise, or on the sentinel at
    the end of the stream. *)
Lemma doWhile_spec (t : TimestampNs) :
  t < TimestampNs_max ->
  forall input records next fuel,
    (length input < fuel)%nat ->
    exists s' calls,
      doWhile fuel t (mkImpl input records next) = Some (s', calls) /\
      publishedOf calls = key next :: map key (sameTime t (map ofLine input)) /\
      countEndBatch calls = 0%nat /\
      match afterSameTime t (map ofLine input) with
      | r :: rest =>
          m_nextLine s' = r /\ map ofLine (m_inputData s') = rest
      | [] => getNextEventTime s' = TimestampNs_max /\ m_inputData s' = []
      end.
Proof.
  intros Ht. induction input as [| line input IH]; intros records next fuel Hf;
    (destruct fuel as [| fuel]; [simpl in Hf; lia |]);
    rewrite doWhile_step.
  - destruct (replayer_publish_spec (mkImpl [] records next)) as (Hp & Hc & Hi & Hn).
    destruct (publish (mkImpl [] records next)) as [s1 calls1].
    cbn [fst snd m_inputData m_nextLine] in *.
    destruct (readNextLine_nil s1 Hi) as [Hmax Hnil].
    rewrite Hmax.
    destruct (TimestampNs_max =? t) eqn:E; [apply Z.eqb_eq in E; lia |].
    eexists. eexists. split; [reflexivity |]. rewrite Hp, Hc.
    cbn [map sameTime afterSameTime]. auto.
  - destruct (replayer_publish_spec (mkImpl (line :: input) records next))
      as (Hp & Hc & Hi & Hn).
    destruct (publish (mkImpl (line :: input) records next)) as [s1 calls1].
    cbn [fst snd m_inputData m_nextLine] in *.
    rewrite (readNextLine_cons s1 _ _ Hi).
    cbn [map sameTime afterSameTime].
    change (getNextEventTime (mkImpl input (m_records s1) (ofLine line)))
      with (timestamp (ofLine line)).
    destruct (timestamp (ofLine line) =? t) eqn:E.
    + destruct (IH (m_records s1) (ofLine line) fuel ltac:(simpl in Hf; lia))
        as (s' & calls & Hrun & Hpub & Hcnt & Hafter).
      rewrite Hrun. eexists. eexists. split; [reflexivity |].
      rewrite publishedOf_app, countEndBatch_app, Hp, Hc, Hpub, Hcnt.
      cbn [map]. repeat split. exact Hafter.
    + eexists. eexists. split; [reflexivity |].
      rewrite Hp, Hc. repeat split.
Qed.

(** C7.  When the replayer is not exhausted, [dispatchNextEvent] comes
    back having published, in stream order, the pending records that
    lead the stream with the timestamp of the first one, and having
    called [endBatch] once, last; afterwards [getNextEventTime] is the
    timestamp of the next pending record, or the sentinel when the stream
    has been read to its end. *)
Theorem dispatchNextEvent_batch (s : Impl) :
  getNextEventTime s < TimestampNs_max ->
  let startTime := getNextEventTime s in
  exists s' calls,
    dispatchNextEvent s = Some (s', calls ++ [callEndBatch]) /\
    publishedOf calls = map key (sameTime startTime (pending s)) /\
    countEndBatch (calls ++ [callEndBatch]) = 1%nat /\
    match afterSameTime startTime (pending s) with
    | r :: rest =>
        getNextEventTime s' = timestamp r /\ m_nextLine s' = r /\
        map ofLine (m_inputData s') = rest
    | [] => getNextEventTime s' = TimestampNs_max /\ m_inputData s' = []
    end.
Proof.
  intros Ht startTime. destruct s as [input records next].
  unfold dispatchNextEvent, dispatchNextEvent_fuel, pending.
  fold startTime. cbn [m_inputData].
  assert (Hlt : (startTime <? TimestampNs_max) = true)
    by (apply Z.ltb_lt; exact Ht).
  rewrite Hlt.
  destruct (doWhile_spec startTime Ht input records next (S (length input))
              ltac:(lia)) as (s' & calls & Hrun & Hpub & Hcnt & Hafter).
  rewrite Hrun. exists s', calls. split; [reflexivity |].
  cbn [m_nextLine sameTime afterSameTime].
  replace (timestamp next =? startTime) with true
    by (symmetry; apply Z.eqb_eq; reflexivity).
  split; [exact Hpub |]. split.
  - rewrite countEndBatch_app, Hcnt. reflexivity.
  - destruct (afterSameTime startTime (map ofLine input)) as [| r rest].
    + exact Hafter.
    + destruct Hafter as [Hn Hi]. repeat split; try assumption.
      unfold getNextEventTime. now rewrite Hn.
Qed.

End ReplayerFacts.

Module ReplayerCases.
Import Flow Replayer ReplayerInputs ReplayerFacts.

(** Witness of C7: two records stamped 1s are published under one
    [endBatch], and the lookahead is left on the record stamped 2s. *)
Lemma dispatchNextEvent_batch_witness :
  let s := newImpl three_lines in
  getNextEventTime s < TimestampNs_max /\
  exists s' calls,
    dispatchNextEvent s = Some (s', calls ++ [callEndBatch]) /\
    publishedOf calls = [("EUR/USD", Inputs.eurusd); ("USD/JPY", usdjpy)] /\
    getNextEventTime s' = 2000000000.
Proof.
  intros s.
  assert (Ht : getNextEventTime s < TimestampNs_max)
    by (vm_compute; reflexivity).
  split; [exact Ht |].
  destruct (dispatchNextEvent_batch s Ht)
    as (s' & calls & Hrun & Hpub & _ & Hafter).
  exists s', calls. split; [exact Hrun |]. split.
  - rewrite Hpub. vm_compute. reflexivity.
  - assert (Ha : afterSameTime (getNextEventTime s) (pending s) =
                 [ofLine (mkLine 2000000000 "EUR/USD" Inputs.eurusd)])
      by (vm_compute; reflexivity).
    rewrite Ha in Hafter. destruct Hafter as [Hn _]. rewrite Hn.
    vm_compute. reflexivity.
Defined.

(** Scenario: an empty stream is exhausted from the start. *)
Lemma empty_stream_is_exhausted :
  getNextEventTime (newImpl []) = TimestampNs_max /\
  dispatchNextEvent (newImpl []) = Some (newImpl [], []).
Proof. split; vm_compute; reflexivity. Qed.

End ReplayerCases.

(** * Further properties of the LP simulator *)

Module LPSimMore.
Import Double Flow Risk LPSim LPSimRuns LPSimFacts.

(** Updating a slot keeps the slots and their order. *)
Lemma alterPosition_assets f a ps :
  assetsOf (alterPosition f a ps) = assetsOf ps.
Proof.
  unfold assetsOf. induction ps as [| [k v] ps IH]; simpl.
  - reflexivity.
  - destruct (String.eqb k a); simpl; [reflexivity | now rewrite IH].
Qed.

(** Updating a slot leaves the other slots alone. *)
Lemma alterPosition_other f a b ps :
  a <> b -> lookupPosition b (alterPosition f a ps) = lookupPosition b ps.
Proof.
  intros Hab. induction ps as [| [k v] ps IH]; simpl.
  - reflexivity.
  - destruct (String.eqb k a) eqn:Ea; simpl.
    + apply String.eqb_eq in Ea. subst k.
      destruct (String.eqb a b) eqn:Eb; [| reflexivity].
      apply String.eqb_eq in Eb. contradiction.
    + destruct (String.eqb k b); [reflexivity | exact IH].
Qed.

(** Updating a slot that exists applies the function to it. *)
Lemma alterPosition_same f a ps p :
  lookupPosition a ps = Some p ->
  lookupPosition a (alterPosition f a ps) = Some (f p).
Proof.
  induction ps as [| [k v] ps IH]; simpl; [discriminate |].
  destruct (String.eqb k a) eqn:Ea; simpl; rewrite Ea.
  - intros H. inversion H. reflexivity.
  - exact IH.
Qed.

Lemma lookupPosition_app a ps b v :
  lookupPosition a (ps ++ [(b, v)]) =
  match lookupPosition a ps with
  | Some p => Some p
  | None => if String.eqb b a then Some v else None
  end.
Proof.
  induction ps as [| [k w] ps IH]; simpl.
  - reflexivity.
  - destruct (String.eqb k a); [reflexivity | exact IH].
Qed.

Lemma SameButPositions_refl ex svc : SameButPositions ex svc svc.
Proof. constructor; reflexivity. Qed.

Lemma SameButPositions_alter ex svc svc0 f a :
  a = m_baseAsset ex \/ a = m_quoteAsset ex ->
  SameButPositions ex svc0 svc ->
  SameButPositions ex svc0
    (withPositions svc (alterPosition f a (m_positions svc))).
Proof.
  intros Ha [H1 H2 H3 H4 H5 H6]. constructor; simpl; try assumption.
  - now rewrite alterPosition_assets.
  - intros b Hb Hq. rewrite alterPosition_other; [apply H6; assumption |].
    destruct Ha; subst; auto.
Qed.

Lemma validateNOPChange_same svc ex dealt contra :
  SameButPositions ex svc (validateNOPChange svc ex dealt contra).1.
Proof.
  unfold validateNOPChange. destruct (isnan dealt || isnan contra); simpl.
  - apply SameButPositions_refl.
  - unfold subPosition, addPosition.
    repeat (apply SameButPositions_alter; [auto |]).
    apply SameButPositions_refl.
Qed.

Lemma agress_same svc ex order q p :
  SameButPositions ex svc (agress svc ex order q p).1.1.
Proof.
  unfold agress. destruct (doesNotCross order p); simpl.
  - apply SameButPositions_refl.
  - destruct (gtb (matchedQty order q) zero); simpl;
      [| apply SameButPositions_refl].
    pose proof (validateNOPChange_same svc ex
                  (mul (of_int (sideToSign (side order))) (matchedQty order q))
                  (mul (opp (mul (of_int (sideToSign (side order)))
                                 (matchedQty order q)))
                       (matchedPrice order p))) as H.
    destruct (validateNOPChange _ _ _ _) as [svc1 ok]. simpl in H.
    destruct ok; simpl; exact H.
Qed.

(** X1.  [process] never creates, removes or reorders position slots, never
    touches a slot other than the executor's base and quote, and leaves
    the clock, the cache, the settings and the order counter alone; of
    the executor it changes nothing but [m_lastOrderSendTime]. *)
Theorem process_touches_only_its_slots svc ex order :
  let result := process svc ex order in
  SameButPositions ex svc (out_service result) /\
  m_symbol (out_executor result) = m_symbol ex /\
  m_baseAsset (out_executor result) = m_baseAsset ex /\
  m_quoteAsset (out_executor result) = m_quoteAsset ex /\
  m_book (out_executor result) = m_book ex.
Proof.
  intros result. unfold result.
  destruct (validateOrder svc ex order) eqn:Hv.
  - destruct (validateOrder_book _ _ _ Hv) as [b Hb].
    rewrite (process_validated _ _ _ _ Hb Hv). cbv zeta.
    pose proof (agress_same svc (withLastOrderSendTime ex (getEventTime svc))
                  order (qtyAtTop order b) (topPrice order b)) as H.
    destruct (agress _ _ _ _ _) as [[svc1 posted] st]. simpl in H |- *.
    repeat split; try reflexivity; destruct H; assumption.
  - rewrite (process_rejected _ _ _ Hv). simpl.
    repeat split; reflexivity.
Qed.

Lemma process_calls svc ex order :
  out_calls (process svc ex order) = ackOrder ex order.
Proof.
  destruct (validateOrder svc ex order) eqn:Hv.
  - destruct (validateOrder_book _ _ _ Hv) as [b Hb].
    rewrite (process_validated _ _ _ _ Hb Hv). cbv zeta.
    destruct (agress _ _ _ _ _) as [[svc1 posted] st]. reflexivity.
  - rewrite (process_rejected _ _ _ Hv). reflexivity.
Qed.

(** X2.  [process] acknowledges the order once, posts exactly one
    termination, after [outboundDelay], whose status is [Done] or
    [InternalReject] and never [Rejected], and at most one fill; a fill is
    only posted with [Done], with the same delay, and ahead of the
    termination. *)
Theorem process_protocol svc ex order :
  let result := process svc ex order in
  out_calls result =
    [onAck (m_symbol ex) (orderId order) (side order) (price order)
           (qty order) (tif order)] /\
  exists status pre,
    out_posted result =
      pre ++ [(getOutboundDelay svc, EvOrderDone (orderId order) status)] /\
    status <> Rejected /\
    (pre = [] \/
     status = Done /\
     exists dealt contra,
       pre = [(getOutboundDelay svc, EvFill (orderId order) dealt contra)]).
Proof.
  intros result. unfold result. split; [apply process_calls |].
  destruct (validateOrder svc ex order) eqn:Hv.
  - destruct (validateOrder_book _ _ _ Hv) as [b Hb].
    rewrite (process_validated _ _ _ _ Hb Hv). cbv zeta.
    destruct (doesNotCross order (topPrice order b)) eqn:Hc.
    { rewrite (agress_no_cross _ _ _ _ _ Hc). simpl.
      exists Done, []. repeat split; [discriminate | left; reflexivity]. }
    destruct (gtb (matchedQty order (qtyAtTop order b)) zero) eqn:Hq.
    2:{ rewrite (agress_no_qty _ _ _ _ _ Hc Hq). simpl.
        exists Done, []. repeat split; [discriminate | left; reflexivity]. }
    pose proof (process_gated _ _ _ _ Hb Hv Hc Hq) as P. cbv zeta in P.
    rewrite (process_validated _ _ _ _ Hb Hv) in P. cbv zeta in P.
    destruct (agress _ _ _ _ _) as [[svc1 posted] st]. simpl in P |- *.
    rewrite P.
    match goal with
    | |- context [if ?c then _ else _] => destruct c
    end.
    + exists Done, [(getOutboundDelay svc,
                     EvFill (orderId order)
                       (mul (of_int (sideToSign (side order)))
                            (matchedQty order (qtyAtTop order b)))
                       (mul (opp (mul (of_int (sideToSign (side order)))
                                      (matchedQty order (qtyAtTop order b))))
                            (topPrice order b)))].
      repeat split; [discriminate |]. right. split; [reflexivity |].
      eexists. eexists. reflexivity.
    + exists InternalReject, [].
      repeat split; [discriminate | left; reflexivity].
  - rewrite (process_rejected _ _ _ Hv). simpl.
    exists InternalReject, [].
    repeat split; [discriminate | left; reflexivity].
Qed.

(** A quantity that is NaN or at most zero is not above zero. *)
Lemma not_positive (q : double) :
  isnan q = true \/ leb q zero = true -> gtb q zero = false.
Proof.
  intros [H | H]; destruct q as [s | s | | s m e]; simpl in *;
    try discriminate; try reflexivity; destruct s; simpl in *;
    try discriminate; reflexivity.
Qed.

Lemma process_refused svc ex order :
  m_book ex = None \/ tif order = GTC \/
  isnan (qty order) = true \/ leb (qty order) zero = true ->
  validateOrder svc ex order = false.
Proof.
  intros H. apply not_true_is_false. intros Hv.
  apply validateOrder_spec in Hv. destruct Hv as ([b Hb] & Ht & Hq & _).
  destruct H as [H | [H | H]].
  - congruence.
  - congruence.
  - rewrite (not_positive _ H) in Hq. discriminate.
Qed.

(** X3.  an order is refused without a look at the book when the executor
    has no book, when it is [GTC], or when its quantity is NaN, zero or
    negative: it is acknowledged, terminated [InternalReject], and
    neither the service nor the executor (hence not the order-gap clock)
    changes. *)
Theorem unsupported_orders_are_rejected svc ex order :
  m_book ex = None \/ tif order = GTC \/
  isnan (qty order) = true \/ leb (qty order) zero = true ->
  process svc ex order =
  mkOutcome svc ex
    [onAck (m_symbol ex) (orderId order) (side order) (price order)
           (qty order) (tif order)]
    [(getOutboundDelay svc, EvOrderDone (orderId order) InternalReject)].
Proof. intros H. apply process_rejected, process_refused, H. Qed.

Lemma fillsOf_app a b : fillsOf (a ++ b) = fillsOf a ++ fillsOf b.
Proof. unfold fillsOf. apply flat_map_app. Qed.

Lemma statusesOf_app a b :
  statusesOf (a ++ b) = statusesOf a ++ statusesOf b.
Proof. unfold statusesOf. apply flat_map_app. Qed.

Lemma processesOf_app a b :
  processesOf (a ++ b) = processesOf a ++ processesOf b.
Proof. unfold processesOf. apply flat_map_app. Qed.

(** One step on an executor without a book, while the cache has no
    record for its symbol. *)
Lemma step_unresolved s svc ex :
  m_book ex = None ->
  getCachedRecord (m_tobCache svc) (m_symbol ex) = None ->
  cachesSymbol (m_symbol ex) s = false ->
  m_book (step s svc ex).1.2 = None /\
  m_symbol (step s svc ex).1.2 = m_symbol ex /\
  getCachedRecord (m_tobCache (step s svc ex).1.1) (m_symbol ex) = None /\
  m_positions (step s svc ex).1.1 = m_positions svc /\
  fillsOf (step s svc ex).2 = [] /\
  statusesOf (step s svc ex).2 =
    map (fun _ => InternalReject) (processedOf [s]) /\
  length (processesOf (step s svc ex).2) = length (sentOf [s]).
Proof.
  intros Hb Hc Hs. destruct s as [r | order | now | sym book].
  - unfold step, sendOrder. rewrite Hb, Hc. cbn. repeat split; assumption.
  - unfold step.
    rewrite (process_rejected svc ex order
               (process_refused svc ex order (or_introl Hb))).
    cbn. repeat split; assumption.
  - cbn. repeat split; assumption.
  - unfold step. rewrite Hb. cbn. repeat split; try assumption.
    unfold getCachedRecord in *. cbn in Hs.
    apply String.eqb_neq in Hs.
    rewrite lookup_insert_ne by exact Hs. exact Hc.
Qed.



(** The identifiers returned by [sendOrders] are the counter plus 1, 2,
    ... modulo [2^64]. *)
Lemma sendOrders_ids reqs : forall svc ex,
  (sendOrders reqs svc ex).2 =
  map (fun i => (m_lastOrderId svc + Z.of_nat i) mod OrderId_modulus)
      (seq 1 (length reqs)).
Proof.
  induction reqs as [| r reqs IH]; intros svc ex; simpl.
  - reflexivity.
  - specialize (IH (mkImpl (m_eventTime svc) (m_tobCache svc)
                           (m_positions svc) (m_settings svc)
                           ((m_lastOrderId svc + 1) mod OrderId_modulus))
                   match m_book ex with
                   | Some _ => ex
                   | None => withBook ex (getCachedRecord (m_tobCache svc)
                                                          (m_symbol ex))
                   end).
    destruct (sendOrders reqs _ _) as [[svc2 ex2] ids]. simpl in IH |- *.
    f_equal. rewrite <- (seq_shift (length reqs) 1), map_map, IH.
    apply map_ext. intros i.
    rewrite Zplus_mod_idemp_l. f_equal. lia.
Qed.

(** X5.  the identifiers returned by up to [2^64] successive [sendOrder]
    calls are pairwise distinct. *)
Theorem order_ids_are_distinct reqs svc ex :
  Z.of_nat (length reqs) <= OrderId_modulus ->
  List.NoDup (sendOrders reqs svc ex).2.
Proof.
  intros Hlen. rewrite sendOrders_ids.
  set (c := m_lastOrderId svc).
  assert (Hinj : forall i j,
            (i < j)%nat -> Z.of_nat j - Z.of_nat i < OrderId_modulus ->
            (c + Z.of_nat i) mod OrderId_modulus <>
            (c + Z.of_nat j) mod OrderId_modulus).
  { intros i j Hij Hd Heq. unfold OrderId_modulus in *.
    assert (Hm : (Z.of_nat j - Z.of_nat i) mod 2 ^ 64 = 0).
    { replace (Z.of_nat j - Z.of_nat i)
        with ((c + Z.of_nat j) - (c + Z.of_nat i)) by lia.
      rewrite Zminus_mod, Heq, Z.sub_diag. reflexivity. }
    rewrite Z.mod_small in Hm by lia. lia. }
  assert (H : forall n k,
             Z.of_nat n <= OrderId_modulus ->
             List.NoDup (map (fun i => (c + Z.of_nat i) mod OrderId_modulus)
                             (seq k n))).
  { induction n as [| n IHn]; intros k Hn; simpl.
    - constructor.
    - constructor; [| apply IHn; lia].
      rewrite in_map_iff. intros [j [Hj Hin]]. apply in_seq in Hin.
      symmetry in Hj. revert Hj. apply Hinj; lia. }
  apply (H (length reqs) 1%nat). exact Hlen.
Qed.

(** X6.  the closure of a fill adds [dealt] to the base slot and [contra]
    to the quote slot, touches no other slot, and then publishes the base
    entry, publishes the quote entry, reports the fill and ends the batch
    once, in this order. *)
Theorem fill_moves_base_and_quote svc ex id dealt contra base quote :
  m_baseAsset ex <> m_quoteAsset ex ->
  lookupPosition (m_baseAsset ex) (m_positions svc) = Some base ->
  lookupPosition (m_quoteAsset ex) (m_positions svc) = Some quote ->
  let result := runFill svc ex id dealt contra in
  lookupPosition (m_baseAsset ex) (m_positions result.1) =
    Some (add base dealt) /\
  lookupPosition (m_quoteAsset ex) (m_positions result.1) =
    Some (add quote contra) /\
  SameButPositions ex svc result.1 /\
  result.2 = [publishPosition (m_baseAsset ex) (Some (add base dealt));
              publishPosition (m_quoteAsset ex) (Some (add quote contra));
              onFill (m_symbol ex) id dealt contra;
              endBatch].
Proof.
  intros Hne Hb Hq result.
  assert (H1 : lookupPosition (m_baseAsset ex) (m_positions result.1) =
               Some (add base dealt)).
  { unfold result, runFill, addPosition. simpl.
    rewrite alterPosition_other by congruence.
    apply (alterPosition_same (fun p => add p dealt)). exact Hb. }
  assert (H2 : lookupPosition (m_quoteAsset ex) (m_positions result.1) =
               Some (add quote contra)).
  { unfold result, runFill, addPosition. simpl.
    apply (alterPosition_same (fun p => add p contra)).
    rewrite alterPosition_other by assumption. exact Hq. }
  split; [exact H1 |]. split; [exact H2 |]. split.
  - unfold result, runFill, addPosition. simpl.
    repeat (apply SameButPositions_alter; [auto |]).
    apply SameButPositions_refl.
  - unfold result, runFill in *. simpl in *. rewrite H1, H2. reflexivity.
Qed.

(** X7.  for three-letter codes [b] and [q], the symbol [b/q] parses back
    into base [b] and quote [q]; a symbol of fewer than four characters
    has no quote asset ([substr] throws). *)
Theorem symbol_round_trip (b q : string) :
  String.length b = 3%nat -> String.length q = 3%nat ->
  getBaseAsset (b +:+ "/" +:+ q) = b /\
  getQuoteAsset (b +:+ "/" +:+ q) = Some q /\
  forall s, (String.length s < 4)%nat -> getQuoteAsset s = None.
Proof.
  intros Hb Hq.
  destruct b as [| b1 [| b2 [| b3 [| b4 b]]]]; try discriminate.
  destruct q as [| q1 [| q2 [| q3 [| q4 q]]]]; try discriminate.
  split; [reflexivity |]. split; [reflexivity |].
  intros s Hs. unfold getQuoteAsset.
  destruct (String.length s <? 4)%nat eqn:E; [reflexivity |].
  apply Nat.ltb_ge in E. lia.
Qed.

Lemma getPosition_lookup a b svc :
  lookupPosition a (m_positions (getPosition b svc)) =
  match lookupPosition a (m_positions svc) with
  | Some p => Some p
  | None => if String.eqb b a then Some zero else None
  end.
Proof.
  unfold getPosition. destruct (lookupPosition b (m_positions svc)) eqn:E.
  - destruct (lookupPosition a (m_positions svc)) eqn:Ea; [reflexivity |].
    destruct (String.eqb b a) eqn:Eb; [| reflexivity].
    apply String.eqb_eq in Eb. congruence.
  - simpl. apply lookupPosition_app.
Qed.

(** X8.  constructing an executor fails exactly for symbols of fewer than
    four characters; otherwise the executor starts without a book and
    with the zero timestamp, the slots that existed keep their values,
    and the base and quote slots exist afterwards, at zero if they are
    new; no other slot is created. *)
Theorem createExecutor_slots svc symbol :
  (createExecutor svc symbol = None <-> (String.length symbol < 4)%nat) /\
  forall svc' ex,
    createExecutor svc symbol = Some (svc', ex) ->
    m_book ex = None /\ m_lastOrderSendTime ex = 0 /\
    m_symbol ex = symbol /\ m_baseAsset ex = getBaseAsset symbol /\
    getQuoteAsset symbol = Some (m_quoteAsset ex) /\
    forall a,
      lookupPosition a (m_positions svc') =
      match lookupPosition a (m_positions svc) with
      | Some p => Some p
      | None =>
          if String.eqb (m_baseAsset ex) a || String.eqb (m_quoteAsset ex) a
          then Some zero else None
      end.
Proof.
  unfold createExecutor, getQuoteAsset. split.
  - destruct (String.length symbol <? 4)%nat eqn:E.
    + apply Nat.ltb_lt in E. split; auto.
    + apply Nat.ltb_ge in E. split; [discriminate | lia].
  - intros svc' ex H.
    destruct (String.length symbol <? 4)%nat; [discriminate |].
    inversion H; subst; clear H. simpl.
    repeat split; try reflexivity.
    intros a. rewrite !getPosition_lookup.
    destruct (lookupPosition a (m_positions svc)); [reflexivity |].
    destruct (String.eqb (getBaseAsset symbol) a); reflexivity.
Qed.

(** X9.  an order whose price is NaN is a market order: it fails to cross
    only when the top price itself is NaN. *)
Theorem market_order_crosses order top :
  isnan (price order) = true ->
  doesNotCross order top = isnan top.
Proof.
  intros H. unfold doesNotCross. rewrite (isnan_true _ H).
  replace (mul quiet_NaN (of_int (sideToSign (side order))))
    with quiet_NaN by reflexivity.
  rewrite ltb_nan_l. apply orb_false_r.
Qed.

End LPSimMore.

(** * Properties of the risk model *)

Module RiskFacts.
Import Double Flow Risk.

Lemma add_nan_l x : add quiet_NaN x = quiet_NaN.
Proof. destruct x; reflexivity. Qed.

Lemma add_nan_r x : add x quiet_NaN = quiet_NaN.
Proof. destruct x; reflexivity. Qed.

Lemma sub_nan_l x : sub quiet_NaN x = quiet_NaN.
Proof. destruct x; reflexivity. Qed.

Lemma sub_nan_r x : sub x quiet_NaN = quiet_NaN.
Proof. destruct x; reflexivity. Qed.

Lemma mul_nan_r x : mul x quiet_NaN = quiet_NaN.
Proof. destruct x; reflexivity. Qed.

(** An asset other than USD that no cached book quotes against USD, in
    either direction, has no fair price. *)
Lemma getFairPrice_unquoted (cache : gmap string TopOfBook) asset :
  asset <> "USD" ->
  cache !! (asset +:+ "/USD") = None ->
  cache !! ("USD/" +:+ asset) = None ->
  getFairPrice cache asset = quiet_NaN.
Proof.
  intros Hne H1 H2. unfold getFairPrice, getCachedRecord.
  destruct (String.eqb asset "USD") eqn:E.
  - apply String.eqb_eq in E. contradiction.
  - rewrite H1, H2. reflexivity.
Qed.

Lemma nop_step_long cache l s a p :
  geb p zero = true ->
  nop_step cache (l, s) (a, p) = (add l (mul p (getFairPrice cache a)), s).
Proof. intros H. unfold nop_step. cbn [fst snd]. now rewrite H. Qed.

Lemma nop_step_short cache l s a p :
  geb p zero = false ->
  nop_step cache (l, s) (a, p) = (l, sub s (mul p (getFairPrice cache a))).
Proof. intros H. unfold nop_step. cbn [fst snd]. now rewrite H. Qed.

Lemma pnl_nan_sticky cache ps :
  fold_left
    (fun pnl entry =>
       add pnl (mul (snd entry) (getFairPrice cache (fst entry))))
    ps quiet_NaN = quiet_NaN.
Proof.
  induction ps as [| e ps IH]; cbn [fold_left]; [reflexivity |].
  rewrite add_nan_l. exact IH.
Qed.

(** X10.  USD is worth 1 whatever the cache holds; an asset that no cached
    book quotes against USD has a NaN fair price, and a portfolio with a
    slot for such an asset has a NaN PnL, whatever the slot holds (zero
    included). *)
Theorem unquoted_asset_poisons_pnl (cache : gmap string TopOfBook) asset :
  asset <> "USD" ->
  cache !! (asset +:+ "/USD") = None ->
  cache !! ("USD/" +:+ asset) = None ->
  getFairPrice cache "USD" = of_int 1 /\
  getFairPrice cache asset = quiet_NaN /\
  forall positions position,
    In (asset, position) positions ->
    getPnL cache positions = quiet_NaN.
Proof.
  intros Hne H1 H2.
  pose proof (getFairPrice_unquoted cache asset Hne H1 H2) as Hf.
  split; [reflexivity |]. split; [exact Hf |].
  intros positions position Hin. unfold getPnL.
  generalize zero. induction positions as [| e ps IH]; intros acc.
  - destruct Hin.
  - cbn [fold_left]. destruct Hin as [-> | Hin].
    + cbn [fst snd]. rewrite Hf, mul_nan_r, add_nan_r. apply pnl_nan_sticky.
    + apply IH. exact Hin.
Qed.

Lemma nop_longs_nan_sticky cache ps shorts :
  (fold_left (nop_step cache) ps (quiet_NaN, shorts)).1 = quiet_NaN.
Proof.
  revert shorts.
  induction ps as [| [a p] ps IH]; intros shorts; cbn [fold_left].
  - reflexivity.
  - destruct (geb p zero) eqn:E.
    + rewrite (nop_step_long _ _ _ _ _ E), add_nan_l. apply IH.
    + rewrite (nop_step_short _ _ _ _ _ E). apply IH.
Qed.

Lemma nop_shorts_nan_sticky cache ps longs :
  (fold_left (nop_step cache) ps (longs, quiet_NaN)).2 = quiet_NaN.
Proof.
  revert longs.
  induction ps as [| [a p] ps IH]; intros longs; cbn [fold_left].
  - reflexivity.
  - destruct (geb p zero) eqn:E.
    + rewrite (nop_step_long _ _ _ _ _ E). apply IH.
    + rewrite (nop_step_short _ _ _ _ _ E), sub_nan_l. apply IH.
Qed.

Lemma getNOP_nan_long (cache : gmap string TopOfBook) positions asset position :
  In (asset, position) positions ->
  getFairPrice cache asset = quiet_NaN ->
  geb position zero = true ->
  getNOP cache positions = quiet_NaN.
Proof.
  intros Hin Hf Hside. unfold getNOP.
  assert (H : forall acc,
             (fold_left (nop_step cache) positions acc).1 = quiet_NaN).
  { clear - Hin Hf Hside.
    induction positions as [| e ps IH]; intros [l s]; [destruct Hin |].
    cbn [fold_left]. destruct Hin as [-> | Hin].
    - rewrite (nop_step_long _ _ _ _ _ Hside), Hf, mul_nan_r, add_nan_r.
      apply nop_longs_nan_sticky.
    - apply IH. exact Hin. }
  specialize (H (zero, zero)).
  destruct (fold_left (nop_step cache) positions (zero, zero)) as [l s].
  simpl in H. subst l. reflexivity.
Qed.

Lemma getNOP_nan_short (cache : gmap string TopOfBook) positions asset position :
  In (asset, position) positions ->
  getFairPrice cache asset = quiet_NaN ->
  geb position zero = false ->
  getNOP cache positions =
    (fold_left (nop_step cache) positions (zero, zero)).1.
Proof.
  intros Hin Hf Hside. unfold getNOP.
  assert (H : forall acc,
             (fold_left (nop_step cache) positions acc).2 = quiet_NaN).
  { clear - Hin Hf Hside.
    induction positions as [| e ps IH]; intros [l s]; [destruct Hin |].
    cbn [fold_left]. destruct Hin as [-> | Hin].
    - rewrite (nop_step_short _ _ _ _ _ Hside), Hf, mul_nan_r, sub_nan_r.
      apply nop_shorts_nan_sticky.
    - apply IH. exact Hin. }
  specialize (H (zero, zero)).
  destruct (fold_left (nop_step cache) positions (zero, zero)) as [l s].
  simpl in H. subst s. simpl. unfold std_max.
  replace (ltb l quiet_NaN) with false; [reflexivity |].
  destruct l; reflexivity.
Qed.

(** X11.  a NaN enters the NOP only from the long side.  If a slot whose
    position is at least zero has a NaN fair price, the NOP is NaN; if a
    slot whose position is not at least zero (negative, or NaN) has one,
    the short sum is NaN and [std::max(longs, shorts)] returns the long
    sum: the NaN is not reported. *)
Theorem nop_reports_nan_of_longs_only
  (cache : gmap string TopOfBook) positions asset position :
  In (asset, position) positions ->
  getFairPrice cache asset = quiet_NaN ->
  (geb position zero = true -> getNOP cache positions = quiet_NaN) /\
  (geb position zero = false ->
   getNOP cache positions =
     (fold_left (nop_step cache) positions (zero, zero)).1).
Proof.
  intros Hin Hf. split; intros Hside.
  - eapply getNOP_nan_long; eassumption.
  - eapply getNOP_nan_short; eassumption.
Qed.

End RiskFacts.

Module GateFacts.
Import Double Flow Risk LPSim LPSimRuns LPSimFacts RiskFacts.

Lemma alterPosition_In_other f a b p ps :
  a <> b -> In (a, p) ps -> In (a, p) (alterPosition f b ps).
Proof.
  intros Hab. induction ps as [| [k v] ps IH]; simpl; [auto |].
  intros [H | H].
  - inversion H; subst. destruct (String.eqb a b) eqn:E.
    + apply String.eqb_eq in E. contradiction.
    + left. reflexivity.
  - destruct (String.eqb k b); [right; exact H | right; apply IH, H].
Qed.

(** X12.  while the simulator holds a slot, at zero or above, for an asset
    that has no fair price and is neither the base nor the quote of an
    executor, no order through that executor is ever filled: the NOP of
    the tentative positions is NaN and the gate refuses every order that
    would trade. *)
Theorem unquoted_slot_closes_the_gate svc ex order asset position :
  In (asset, position) (m_positions svc) ->
  asset <> m_baseAsset ex -> asset <> m_quoteAsset ex ->
  geb position zero = true ->
  getFairPrice (m_tobCache svc) asset = quiet_NaN ->
  fillsOf (out_posted (process svc ex order)) = [] /\
  forall b,
    m_book ex = Some b -> validateOrder svc ex order = true ->
    doesNotCross order (topPrice order b) = false ->
    gtb (matchedQty order (qtyAtTop order b)) zero = true ->
    statusesOf (out_posted (process svc ex order)) = [InternalReject].
Proof.
  intros Hin Hb Hq Hside Hf.
  assert (Hgate : forall b,
            m_book ex = Some b -> validateOrder svc ex order = true ->
            doesNotCross order (topPrice order b) = false ->
            gtb (matchedQty order (qtyAtTop order b)) zero = true ->
            out_posted (process svc ex order) =
            [(getOutboundDelay svc,
              EvOrderDone (orderId order) InternalReject)]).
  { intros b Hbook Hv Hc Hqty.
    rewrite (process_gated _ _ _ _ Hbook Hv Hc Hqty). cbv zeta.
    match goal with
    | |- context [getNOP (addPosition ?q ?c (addPosition ?bs ?d svc))] =>
        assert (Hnan : getNOP (addPosition q c (addPosition bs d svc)) =
                       quiet_NaN)
    end.
    { unfold getNOP. eapply getNOP_nan_long; [| exact Hf | exact Hside].
      simpl. apply alterPosition_In_other; [exact Hq |].
      apply alterPosition_In_other; [exact Hb | exact Hin]. }
    rewrite Hnan. rewrite ltb_nan_l.
    replace (leb quiet_NaN (getMaxNOP svc)) with false by reflexivity.
    rewrite andb_false_r. reflexivity. }
  split.
  - destruct (validateOrder svc ex order) eqn:Hv.
    + destruct (validateOrder_book _ _ _ Hv) as [b Hbook].
      destruct (doesNotCross order (topPrice order b)) eqn:Hc.
      { rewrite (process_validated _ _ _ _ Hbook Hv). cbv zeta.
        rewrite (agress_no_cross _ _ _ _ _ Hc). reflexivity. }
      destruct (gtb (matchedQty order (qtyAtTop order b)) zero) eqn:Hqty.
      * rewrite (Hgate b Hbook eq_refl Hc Hqty). reflexivity.
      * rewrite (process_validated _ _ _ _ Hbook Hv). cbv zeta.
        rewrite (agress_no_qty _ _ _ _ _ Hc Hqty). reflexivity.
    + rewrite (process_rejected _ _ _ Hv). reflexivity.
  - intros b Hbook Hv Hc Hqty. rewrite (Hgate b Hbook Hv Hc Hqty).
    reflexivity.
Qed.

End GateFacts.

Module LPSimMoreCases.
Import Double Flow Risk LPSim LPSimRuns MoreInputs LPSimMore RiskFacts
       GateFacts.

(** Witness of X3. *)
Lemma unsupported_orders_are_rejected_witness :
  let svc := Inputs.service (60 * Inputs.sec) Inputs.eurusd zero zero
                            Inputs.d_1e7 in
  tif buy_gtc = GTC /\
  out_posted (process svc (Inputs.executor Inputs.eurusd) buy_gtc) =
    [(Inputs.ms, EvOrderDone 7 InternalReject)].
Proof.
  intros svc. split; [reflexivity |].
  rewrite (unsupported_orders_are_rejected svc
             (Inputs.executor Inputs.eurusd) buy_gtc
             (or_intror (or_introl eq_refl))).
  reflexivity.
Defined.


(** Witness of X5. *)
Lemma order_ids_are_distinct_witness :
  Z.of_nat (length three_requests) <= OrderId_modulus /\
  List.NoDup (sendOrders three_requests blank_service
                         unresolved_executor).2.
Proof.
  assert (H : Z.of_nat (length three_requests) <= OrderId_modulus)
    by (vm_compute; discriminate).
  split; [exact H |].
  exact (order_ids_are_distinct three_requests blank_service
           unresolved_executor H).
Defined.

(** Witness of X6. *)
Lemma fill_moves_base_and_quote_witness :
  let svc := Inputs.service (60 * Inputs.sec) Inputs.eurusd zero zero
                            Inputs.d_1e7 in
  let ex := Inputs.executor Inputs.eurusd in
  let result := runFill svc ex 1 Inputs.d_500000 (opp Inputs.d_550100) in
  m_baseAsset ex <> m_quoteAsset ex /\
  lookupPosition "EUR" (m_positions result.1) =
    Some (add zero Inputs.d_500000) /\
  lookupPosition "USD" (m_positions result.1) =
    Some (add zero (opp Inputs.d_550100)).
Proof.
  intros svc ex result.
  assert (Hne : m_baseAsset ex <> m_quoteAsset ex) by discriminate.
  split; [exact Hne |].
  destruct (fill_moves_base_and_quote svc ex 1 Inputs.d_500000
              (opp Inputs.d_550100) zero zero Hne eq_refl eq_refl)
    as (H1 & H2 & _).
  split; [exact H1 | exact H2].
Defined.

(** Witness of X7. *)
Lemma symbol_round_trip_witness :
  String.length "EUR" = 3%nat /\ String.length "USD" = 3%nat /\
  getBaseAsset "EUR/USD" = "EUR" /\ getQuoteAsset "EUR/USD" = Some "USD".
Proof.
  split; [reflexivity |]. split; [reflexivity |].
  destruct (symbol_round_trip "EUR" "USD" eq_refl eq_refl) as (H1 & H2 & _).
  split; [exact H1 | exact H2].
Defined.

(** Witness of X8. *)
Lemma createExecutor_slots_witness :
  createExecutor blank_service "EU" = None /\
  exists svc' ex,
    createExecutor blank_service "EUR/USD" = Some (svc', ex) /\
    lookupPosition "EUR" (m_positions svc') = Some zero /\
    lookupPosition "GBP" (m_positions svc') = None.
Proof.
  split.
  - apply (createExecutor_slots blank_service "EU"). vm_compute. lia.
  - destruct (createExecutor blank_service "EUR/USD") as [[svc' ex] |] eqn:E;
      [| discriminate E].
    exists svc', ex. split; [reflexivity |].
    destruct (createExecutor_slots blank_service "EUR/USD") as [_ H].
    destruct (H svc' ex E) as (_ & _ & _ & Hbase & Hquote & Hslots).
    assert (Hb : m_baseAsset ex = "EUR") by (rewrite Hbase; reflexivity).
    assert (Hq : m_quoteAsset ex = "USD").
    { assert (Hs : Some "USD" = Some (m_quoteAsset ex)) by exact Hquote.
      inversion Hs. reflexivity. }
    split; rewrite Hslots, Hb, Hq; reflexivity.
Defined.

(** Witness of X9. *)
Lemma market_order_crosses_witness :
  isnan (price Inputs.buy_500000) = true /\
  doesNotCross Inputs.buy_500000 Inputs.d_1_1002 = false.
Proof.
  split; [reflexivity |].
  rewrite (market_order_crosses Inputs.buy_500000 Inputs.d_1_1002 eq_refl).
  reflexivity.
Defined.

(** Witness of X10. *)
Lemma unquoted_asset_poisons_pnl_witness :
  "XXX" <> "USD" /\
  eurusd_cache !! ("XXX" +:+ "/USD") = None /\
  eurusd_cache !! ("USD/" +:+ "XXX") = None /\
  getPnL eurusd_cache long_unquoted = quiet_NaN.
Proof.
  assert (H0 : "XXX" <> "USD") by discriminate.
  assert (H1 : eurusd_cache !! ("XXX" +:+ "/USD") = None)
    by (vm_compute; reflexivity).
  assert (H2 : eurusd_cache !! ("USD/" +:+ "XXX") = None)
    by (vm_compute; reflexivity).
  repeat (split; [assumption |]).
  destruct (unquoted_asset_poisons_pnl eurusd_cache "XXX" H0 H1 H2)
    as (_ & _ & H).
  apply (H long_unquoted Inputs.d_1e5). right. left. reflexivity.
Defined.

(** Witness of X11. *)
Lemma nop_reports_nan_of_longs_only_witness :
  getFairPrice eurusd_cache "XXX" = quiet_NaN /\
  Risk.getNOP eurusd_cache long_unquoted = quiet_NaN /\
  Risk.getNOP eurusd_cache short_unquoted =
    mul Inputs.d_1e5 (getFairPrice eurusd_cache "EUR") /\
  isnan (Risk.getNOP eurusd_cache short_unquoted) = false.
Proof.
  assert (Hf : getFairPrice eurusd_cache "XXX" = quiet_NaN)
    by (vm_compute; reflexivity).
  split; [exact Hf |]. split; [| split].
  - apply (proj1 (nop_reports_nan_of_longs_only eurusd_cache long_unquoted
                      "XXX" Inputs.d_1e5
                      (or_intror (or_introl eq_refl)) Hf)).
    reflexivity.
  - rewrite (proj2 (nop_reports_nan_of_longs_only eurusd_cache
                      short_unquoted "XXX" (opp Inputs.d_1e5)
                      (or_intror (or_introl eq_refl)) Hf) eq_refl).
    vm_compute. reflexivity.
  - vm_compute. reflexivity.
Defined.

(** Witness of X12. *)
Lemma unquoted_slot_closes_the_gate_witness :
  let ex := Inputs.executor Inputs.eurusd in
  In ("JPY", Inputs.d_1e6) (m_positions three_assets) /\
  getFairPrice (m_tobCache three_assets) "JPY" = quiet_NaN /\
  fillsOf (out_posted (process three_assets ex Inputs.buy_500000)) = [].
Proof.
  intros ex.
  assert (Hin : In ("JPY", Inputs.d_1e6) (m_positions three_assets))
    by (right; left; reflexivity).
  assert (Hf : getFairPrice (m_tobCache three_assets) "JPY" = quiet_NaN)
    by (vm_compute; reflexivity).
  split; [exact Hin |]. split; [exact Hf |].
  destruct (unquoted_slot_closes_the_gate three_assets ex Inputs.buy_500000
              "JPY" Inputs.d_1e6 Hin ltac:(discriminate) ltac:(discriminate)
              eq_refl Hf) as [Hfill _].
  exact Hfill.
Defined.

End LPSimMoreCases.

(** * Further properties of the event loop *)

Module EventLoopMore.
Import Flow EventLoop EventLoopIds EventLoopFacts.

Section Queue.

Context {Ev : Type}.

Lemma extractTop_perm (q : list (TimedEvent Ev)) x r :
  extractTop q = Some (x, r) ->
  Permutation q (x :: r) /\ Forall (fun y => before y x = false) r.
Proof.
  revert x r. induction q as [| a q IH]; intros x r H; simpl in H.
  - discriminate.
  - destruct (extractTop q) as [[y r'] |] eqn:E.
    + destruct (IH y r' eq_refl) as [Hp Hmin].
      destruct (before y a) eqn:B; inversion H; subst; clear H.
      * split.
        -- rewrite Hp. apply perm_swap.
        -- constructor; [| exact Hmin].
           unfold before in *. apply orb_true_iff in B.
           apply orb_false_iff. rewrite andb_false_iff.
           rewrite !Z.ltb_ge, Z.eqb_neq.
           destruct B as [B | B].
           ++ apply Z.ltb_lt in B. lia.
           ++ apply andb_true_iff in B. destruct B as [B1 B2].
              apply Z.eqb_eq in B1. apply Z.ltb_lt in B2. lia.
      * split; [reflexivity |].
        assert (Hyx : before y x = false) by exact B.
        assert (Htrans : forall z, before z y = false -> before z x = false).
        { intros z Hz. unfold before in *.
          apply orb_false_iff in Hz, Hyx. apply orb_false_iff.
          destruct Hz as [Hz1 Hz2], Hyx as [Hy1 Hy2].
          rewrite andb_false_iff in *. rewrite !Z.ltb_ge in *.
          rewrite Z.eqb_neq in *. lia. }
        apply (Permutation_Forall (P := fun z => before z x = false)
                 (Permutation_sym Hp)).
        constructor; [exact Hyx |].
        eapply List.Forall_impl; [| exact Hmin]. exact Htrans.
    + inversion H; subst; clear H.
      rewrite (extractTop_None q E). split; [reflexivity | constructor].
Qed.

(** X13.  [top()] and [pop()] under the loop's [operator<]: the event served
    is one of the queue, the rest of the queue stays, and no remaining
    event expires earlier, or at the same time with a smaller identifier;
    in particular the event of a [stop], which carries the largest
    identifier, is served after every other event due at the same time.
    The queue yields nothing only when it is empty. *)
Theorem served_event_is_least (q : list (TimedEvent Ev)) :
  (extractTop q = None <-> q = []) /\
  forall x r,
    extractTop q = Some (x, r) ->
    Permutation q (x :: r) /\
    Forall (fun y => before y x = false) r /\
    (m_eventId x = EventId_max ->
     Forall (fun y => m_eventId y < EventId_max ->
                      m_expireTime x < m_expireTime y) r).
Proof.
  split.
  - split; [apply extractTop_None | intros ->; reflexivity].
  - intros x r H. destruct (extractTop_perm q x r H) as [Hp Hmin].
    split; [exact Hp |]. split; [exact Hmin |].
    intros Hmax. eapply List.Forall_impl; [| exact Hmin].
    intros y Hy Hid. unfold before in Hy.
    apply orb_false_iff in Hy. destruct Hy as [Hy1 Hy2].
    rewrite andb_false_iff in Hy2. rewrite !Z.ltb_ge in *.
    rewrite Z.eqb_neq in Hy2. lia.
Qed.

End Queue.

Section Dispatch.

Context {Ev U : Type}.
Variable run : Ev -> U -> TimestampNs -> U * list (Command Ev).

Lemma perform_now (l : Impl Ev U) c :
  m_now (perform l c) = m_now l /\ m_history (perform l c) = m_history l.
Proof.
  destruct c as [d e | d |]; simpl.
  - unfold postEvent. destruct (d =? 0); split; reflexivity.
  - split; reflexivity.
  - unfold onReplayableDone.
    destruct (m_activeReplayableDispatchersCount l - 1 =? 0);
      split; reflexivity.
Qed.

Lemma performAll_now cs (l : Impl Ev U) :
  m_now (fold_left perform cs l) = m_now l /\
  m_history (fold_left perform cs l) = m_history l.
Proof.
  revert l. induction cs as [| c cs IH]; intros l; simpl.
  - split; reflexivity.
  - destruct (IH (perform l c)) as [H1 H2].
    destruct (perform_now l c) as [H3 H4]. split; congruence.
Qed.

Lemma invoke_now event (l : Impl Ev U) :
  m_now (invoke run event l) = m_now l /\
  m_history (invoke run event l) = m_history l.
Proof.
  destruct event as [e |]; simpl; [| split; reflexivity].
  destruct (run e (m_user l) (getEventTime l)) as [u cs].
  destruct (performAll_now cs (setUser u l)) as [H1 H2].
  split; assumption.
Qed.

(** X14.  chores run at the current time: [dispatchChores] never moves the
    clock, whatever the chores do and however many more they post; and
    when it comes back, either a [stop] has taken effect or no chore is
    left. *)
Theorem chores_run_at_current_time fuel (l : Impl Ev U) :
  m_now (stateOf (dispatchChores run fuel l)) = m_now l /\
  m_history (stateOf (dispatchChores run fuel l)) = m_history l /\
  forall l', dispatchChores run fuel l = Returned l' ->
             m_enable l' = false \/ m_chores l' = [].
Proof.
  revert l. induction fuel as [| fuel IH]; intros l; simpl.
  - destruct (m_enable l) eqn:En.
    + destruct (m_chores l) as [| [i event] rest] eqn:Ec; simpl.
      * repeat split. intros l' H. inversion H; subst. right. exact Ec.
      * repeat split. intros l' H. discriminate H.
    + repeat split. intros l' H. inversion H; subst. left. exact En.
  - destruct (m_enable l) eqn:En.
    + destruct (m_chores l) as [| [i event] rest] eqn:Ec; simpl.
      * repeat split. intros l' H. inversion H; subst. right. exact Ec.
      * destruct (IH (invoke run event (setChores rest l)))
          as (H1 & H2 & H3).
        destruct (invoke_now event (setChores rest l)) as [H4 H5].
        split; [rewrite H1, H4; reflexivity |].
        split; [rewrite H2, H5; reflexivity | exact H3].
    + repeat split. intros l' H. inversion H; subst. left. exact En.
Qed.

Lemma dispatchWhile_returns fuel (l l' : Impl Ev U) :
  dispatchWhile run fuel l = Returned l' ->
  m_enable l' = false \/ (m_futureEvents l' = [] /\ m_chores l' = []).
Proof.
  revert l. induction fuel as [| fuel IH]; intros l; simpl;
    destruct (m_enable l && hasWork l) eqn:E;
    try (intros H; inversion H; subst;
         apply andb_false_iff in E; destruct E as [E | E]; [left; exact E |];
         right; unfold hasWork in E;
         destruct (m_futureEvents l'), (m_chores l');
         try discriminate; split; reflexivity).
  - discriminate.
  - destruct (dispatchChores run fuel l) as [l1 | l1]; [| discriminate].
    apply IH.
Qed.

(** X15.  [dispatch] hands control back only when a [stop] has taken effect
    or when both queues are empty. *)
Theorem dispatch_returns_stopped_or_idle ff fuel (l l' : Impl Ev U) :
  dispatch run ff fuel l = Returned l' ->
  m_enable l' = false \/ (m_futureEvents l' = [] /\ m_chores l' = []).
Proof. unfold dispatch. apply dispatchWhile_returns. Qed.

Lemma postEvent_keeps d event (l : Impl Ev U) :
  m_now (postEvent d event l).1 = m_now l /\
  m_replayableDispatchers (postEvent d event l).1 =
    m_replayableDispatchers l /\
  m_activeReplayableDispatchersCount (postEvent d event l).1 =
    m_activeReplayableDispatchersCount l.
Proof. unfold postEvent. destruct (d =? 0); repeat split. Qed.

Lemma postEvent_chore event (l : Impl Ev U) :
  m_futureEvents (postEvent 0 event l).1 = m_futureEvents l /\
  m_chores (postEvent 0 event l).1 =
    m_chores l ++ [(m_lastEventId l + 2, event)].
Proof. split; reflexivity. Qed.

Lemma postEvent_future d event (l : Impl Ev U) :
  d <> 0 ->
  m_chores (postEvent d event l).1 = m_chores l /\
  m_futureEvents (postEvent d event l).1 =
    mkTimedEvent (m_lastEventId l + 3) (m_now l + d) event
    :: m_futureEvents l.
Proof.
  intros Hd. unfold postEvent.
  replace (d =? 0) with false by (symmetry; apply Z.eqb_neq; exact Hd).
  split; [reflexivity |]. cbn. do 2 f_equal. lia.
Qed.

Lemma postNextEvent_cases (self : Ev) now next :
  postNextEvent self now next =
  if next <? TimestampNs_max
  then [PostEvent (Z.max (next - now) 0) self]
  else [OnReplayableDone].
Proof.
  unfold postNextEvent. destruct (next <? TimestampNs_max); [| reflexivity].
  do 2 f_equal. destruct (next >? now) eqn:E.
  - apply Z.gtb_lt in E. lia.
  - rewrite Z.gtb_ltb in E. apply Z.ltb_ge in E. lia.
Qed.

(** X16.  [add] throws exactly when 4096 replayables are registered.
    Otherwise the clock stays and the registration is counted.  A
    replayable with a next event is counted active and its first dispatch
    is posted at that event's time, or as a chore when that time is not
    ahead of the clock.  A replayable that is exhausted on arrival leaves
    the active count as it was, and calls [stop(0)] exactly when one
    other replayable was active. *)
Theorem add_registers self next (l : Impl Ev U) :
  (add self next l = None <->
   (MAX_REPLAYABLES <= m_replayableDispatchers l)%nat) /\
  forall l',
    add self next l = Some l' ->
    m_replayableDispatchers l' = S (m_replayableDispatchers l) /\
    m_now l' = m_now l /\
    (next < TimestampNs_max ->
     m_activeReplayableDispatchersCount l' =
       m_activeReplayableDispatchersCount l + 1 /\
     if m_now l <? next then
       m_chores l' = m_chores l /\
       m_futureEvents l' =
         mkTimedEvent (m_lastEventId l + 3) next (Client self)
         :: m_futureEvents l
     else
       m_futureEvents l' = m_futureEvents l /\
       m_chores l' = m_chores l ++ [(m_lastEventId l + 2, Client self)]) /\
    (TimestampNs_max <= next ->
     m_activeReplayableDispatchersCount l' =
       m_activeReplayableDispatchersCount l /\
     m_chores l' = m_chores l /\
     m_futureEvents l' =
       if m_activeReplayableDispatchersCount l =? 1
       then mkTimedEvent EventId_max (m_now l) Disable :: m_futureEvents l
       else m_futureEvents l).
Proof.
  unfold add. split.
  - destruct (m_replayableDispatchers l <? MAX_REPLAYABLES)%nat eqn:E.
    + apply Nat.ltb_lt in E. split; [discriminate | lia].
    + apply Nat.ltb_ge in E. split; auto.
  - intros l' H.
    destruct (m_replayableDispatchers l <? MAX_REPLAYABLES)%nat;
      [| discriminate].
    inversion H; subst; clear H. rewrite postNextEvent_cases.
    set (l1 := setReplayableDispatchers (S (m_replayableDispatchers l)) l).
    change (getEventTime l1) with (m_now l).
    destruct (next <? TimestampNs_max) eqn:En.
    + apply Z.ltb_lt in En. cbn [fold_left perform].
      cbn [m_replayableDispatchers m_now m_chores m_futureEvents
           m_activeReplayableDispatchersCount
           setActiveReplayableDispatchersCount].
      set (d := Z.max (next - m_now l) 0).
      destruct (postEvent_keeps d (Client self) l1) as (K1 & K2 & K3).
      rewrite K1, K2, K3.
      split; [reflexivity |]. split; [reflexivity |].
      split; [| intros Hge; lia]. intros _. split; [reflexivity |].
      destruct (m_now l <? next) eqn:Elt.
      * apply Z.ltb_lt in Elt.
        assert (Hd : d = next - m_now l) by (unfold d; lia).
        destruct (postEvent_future d (Client self) l1 ltac:(lia)) as [F1 F2].
        rewrite F1, F2. split; [reflexivity |].
        cbn. do 2 f_equal. lia.
      * apply Z.ltb_ge in Elt.
        assert (Hd : d = 0) by (unfold d; lia).
        rewrite Hd. split; reflexivity.
    + apply Z.ltb_ge in En. cbn [fold_left perform]. unfold onReplayableDone.
      change (m_activeReplayableDispatchersCount l1)
        with (m_activeReplayableDispatchersCount l).
      split; [| split; [| split]].
      * destruct (m_activeReplayableDispatchersCount l - 1 =? 0); reflexivity.
      * destruct (m_activeReplayableDispatchersCount l - 1 =? 0); reflexivity.
      * intros Hlt. lia.
      * intros _.
        destruct (m_activeReplayableDispatchersCount l - 1 =? 0) eqn:Ec.
        -- apply Z.eqb_eq in Ec.
           replace (m_activeReplayableDispatchersCount l =? 1) with true
             by (symmetry; apply Z.eqb_eq; lia).
           cbn. repeat split; try lia.
           do 2 f_equal. lia.
        -- apply Z.eqb_neq in Ec.
           replace (m_activeReplayableDispatchersCount l =? 1) with false
             by (symmetry; apply Z.eqb_neq; lia).
           cbn. repeat split; lia.
Qed.

Lemma IdInv_EventLoop start (u : U) :
  IdInv (EventLoop (Ev := Ev) start u).
Proof. constructor; constructor. Qed.

Lemma IdInv_same (l l' : Impl Ev U) :
  m_futureEvents l' = m_futureEvents l -> m_chores l' = m_chores l ->
  m_lastEventId l' = m_lastEventId l -> IdInv l -> IdInv l'.
Proof.
  intros Hf Hc Hi [H1 H2]. constructor; rewrite ?Hf, ?Hc, ?Hi; assumption.
Qed.

Lemma IdInv_stop d (l : Impl Ev U) : IdInv l -> IdInv (stop d l).
Proof.
  intros [H1 H2]. constructor; simpl; [| exact H2].
  constructor; [left; reflexivity | exact H1].
Qed.

Lemma IdInv_postEvent d event (l : Impl Ev U) :
  IdInv l -> IdInv (postEvent d event l).1.
Proof.
  intros [H1 H2]. unfold postEvent. destruct (d =? 0); constructor; simpl.
  - eapply List.Forall_impl; [| exact H1]. simpl. intros te [H | H]; lia.
  - apply List.Forall_app. split.
    + eapply List.Forall_impl; [| exact H2]. simpl. intros; lia.
    + repeat constructor. simpl. lia.
  - constructor; [right; simpl; lia |].
    eapply List.Forall_impl; [| exact H1]. simpl. intros te [H | H]; lia.
  - eapply List.Forall_impl; [| exact H2]. simpl. intros; lia.
Qed.

Lemma IdInv_perform (l : Impl Ev U) c : IdInv l -> IdInv (perform l c).
Proof.
  destruct c as [d e | d |]; simpl; intros HI.
  - apply IdInv_postEvent, HI.
  - apply IdInv_stop, HI.
  - unfold onReplayableDone.
    destruct (m_activeReplayableDispatchersCount l - 1 =? 0).
    + apply IdInv_stop. eapply IdInv_same; [| | | exact HI]; reflexivity.
    + eapply IdInv_same; [| | | exact HI]; reflexivity.
Qed.

Lemma IdInv_performAll cs (l : Impl Ev U) :
  IdInv l -> IdInv (fold_left perform cs l).
Proof.
  revert l. induction cs as [| c cs IH]; intros l HI; simpl.
  - exact HI.
  - apply IH, IdInv_perform, HI.
Qed.

Lemma IdInv_invoke event (l : Impl Ev U) :
  IdInv l -> IdInv (invoke run event l).
Proof.
  intros HI. destruct event as [e |]; simpl.
  - destruct (run e (m_user l) (getEventTime l)) as [u cs].
    apply IdInv_performAll. eapply IdInv_same; [| | | exact HI]; reflexivity.
  - eapply IdInv_same; [| | | exact HI]; reflexivity.
Qed.

Lemma IdInv_dispatchChores fuel (l : Impl Ev U) :
  IdInv l -> IdInv (stateOf (dispatchChores run fuel l)).
Proof.
  revert l. induction fuel as [| fuel IH]; intros l HI; simpl;
    destruct (m_enable l); try exact HI;
    destruct (m_chores l) as [| [i event] rest] eqn:Ec; try exact HI.
  apply IH, IdInv_invoke. destruct HI as [H1 H2].
  constructor; simpl; [exact H1 |].
  rewrite Ec in H2. inversion H2; assumption.
Qed.

Lemma IdInv_dispatchNextFutureEvent (l : Impl Ev U) :
  IdInv l -> IdInv (dispatchNextFutureEvent run l).
Proof.
  intros HI. unfold dispatchNextFutureEvent.
  destruct (m_enable l); [| exact HI].
  destruct (extractTop (m_futureEvents l)) as [[x r] |] eqn:E; [| exact HI].
  apply IdInv_invoke. destruct HI as [H1 H2].
  destruct (extractTop_perm _ _ _ E) as [Hp _].
  constructor; simpl; [| exact H2].
  apply (Permutation_Forall Hp) in H1. inversion H1; assumption.
Qed.

Lemma IdInv_dispatchWhile fuel (l : Impl Ev U) :
  IdInv l -> IdInv (stateOf (dispatchWhile run fuel l)).
Proof.
  revert l. induction fuel as [| fuel IH]; intros l HI; simpl;
    destruct (m_enable l && hasWork l); try exact HI.
  pose proof (IdInv_dispatchChores fuel l HI) as HC.
  destruct (dispatchChores run fuel l) as [l1 | l1]; simpl in HC.
  - apply IH, IdInv_dispatchNextFutureEvent, HC.
  - exact HC.
Qed.

Lemma IdInv_operate op (l : Impl Ev U) :
  IdInv l -> IdInv (stateOf (operate run op l)).
Proof.
  destruct op as [d e | d | fuel]; simpl; intros HI.
  - apply IdInv_postEvent, HI.
  - apply IdInv_stop, HI.
  - unfold dispatch. apply IdInv_dispatchWhile.
    destruct (extractTop (m_futureEvents (setEnable true l)))
      as [[x r] |]; eapply IdInv_same; try exact HI; reflexivity.
Qed.

Lemma IdInv_operateAll ops (l : Impl Ev U) :
  IdInv l -> IdInv (stateOf (operateAll run ops l)).
Proof.
  revert l. induction ops as [| op ops IH]; intros l HI; simpl.
  - exact HI.
  - pose proof (IdInv_operate op l HI) as HO.
    destruct (operate run op l) as [l1 | l1]; simpl in HO.
    + apply IH, HO.
    + exact HO.
Qed.

(** X17.  Future events due at the same instant are served in posting
    order.  At any point reached from a fresh loop, an event posted with
    a non-zero delay is queued with an identifier above that of every
    queued event that did not come from [stop]; hence [top()] never
    serves it from a queue that still holds one of those due at the same
    time.  Events posted with a zero delay are chores, kept in a queue of
    their own which such a post leaves alone; they are not covered. *)
Theorem posting_order_breaks_ties start (u : U) ops delta e :
  delta <> 0 ->
  let l := stateOf (operateAll run ops (EventLoop start u)) in
  let posted := postEvent delta (Client e) l in
  let mine := mkTimedEvent posted.2 (m_now l + delta) (Client e) in
  m_futureEvents posted.1 = mine :: m_futureEvents l /\
  m_chores posted.1 = m_chores l /\
  forall earlier,
    In earlier (m_futureEvents l) ->
    m_eventId earlier <> EventId_max ->
    m_eventId earlier < m_eventId mine /\
    (m_expireTime earlier = m_expireTime mine ->
     forall q x r,
       In earlier q -> extractTop q = Some (x, r) -> x <> mine).
Proof.
  intros Hd l posted mine.
  destruct (IdInv_operateAll ops (EventLoop start u) (IdInv_EventLoop start u))
    as [Hids _]. fold l in Hids.
  assert (Hid : posted.2 = m_lastEventId l + 3).
  { unfold posted, postEvent.
    replace (delta =? 0) with false by (symmetry; apply Z.eqb_neq; exact Hd).
    simpl. lia. }
  destruct (postEvent_future delta (Client e) l Hd) as [Hch F].
  split; [| split].
  - unfold posted, mine. rewrite F. fold posted. rewrite Hid. reflexivity.
  - exact Hch.
  - intros earlier Hin Hne.
    rewrite List.Forall_forall in Hids.
    destruct (Hids earlier Hin) as [Hmax | Hle]; [contradiction |].
    assert (Hlt : m_eventId earlier < m_eventId mine) by (simpl; lia).
    split; [exact Hlt |].
    intros Heq q x r Hq Htop ->.
    destruct (extractTop_perm q mine r Htop) as [Hp Hmin].
    apply (Permutation_in _ Hp) in Hq.
    destruct Hq as [Hq | Hq]; [subst earlier; lia |].
    rewrite List.Forall_forall in Hmin. specialize (Hmin earlier Hq).
    unfold before in Hmin. rewrite Heq in Hmin.
    rewrite Z.ltb_irrefl, Z.eqb_refl in Hmin. simpl in Hmin.
    apply Z.ltb_ge in Hmin. lia.
Qed.

End Dispatch.
End EventLoopMore.

Module EventLoopMoreCases.
Import Flow EventLoop EventLoopIds MoreLoopInputs EventLoopMore.

(** Witness of X13. *)
Lemma served_event_is_least_witness :
  extractTop stop_and_event =
    Some (mkTimedEvent 3 5 (Client tt),
          [mkTimedEvent EventId_max 5 Disable]) /\
  Permutation stop_and_event
    [mkTimedEvent 3 5 (Client tt); mkTimedEvent EventId_max 5 Disable].
Proof.
  assert (E : extractTop stop_and_event =
              Some (mkTimedEvent 3 5 (Client tt),
                    [mkTimedEvent EventId_max 5 Disable]))
    by (vm_compute; reflexivity).
  split; [exact E |].
  destruct (served_event_is_least stop_and_event) as [_ H].
  destruct (H _ _ E) as [Hp _]. exact Hp.
Defined.

(** Witness of X15. *)
Lemma dispatch_returns_stopped_or_idle_witness :
  dispatch LoopInputs.ticker true 100 ticker_armed = Returned ticker_final /\
  (m_enable ticker_final = false \/
   m_futureEvents ticker_final = [] /\ m_chores ticker_final = []).
Proof.
  assert (E : dispatch LoopInputs.ticker true 100 ticker_armed =
              Returned ticker_final) by (vm_compute; reflexivity).
  split; [exact E |].
  exact (dispatch_returns_stopped_or_idle LoopInputs.ticker true 100
           ticker_armed ticker_final E).
Defined.

(** Witness of X16. *)
Lemma add_registers_witness :
  exists l',
    add tt 7 (EventLoop (Ev := unit) 5 0%nat) = Some l' /\
    m_futureEvents l' = [mkTimedEvent 3 7 (Client tt)] /\
    m_activeReplayableDispatchersCount l' = 1.
Proof.
  destruct (add tt 7 (EventLoop (Ev := unit) 5 0%nat)) as [l' |] eqn:E;
    [| discriminate E].
  exists l'. split; [reflexivity |].
  destruct (add_registers tt 7 (EventLoop (Ev := unit) 5 0%nat)) as [_ H].
  destruct (H l' E) as (_ & _ & Hnext & _).
  destruct (Hnext ltac:(vm_compute; reflexivity)) as [Hc Hq].
  split; [| exact Hc].
  change (m_now (EventLoop (Ev := unit) 5 0%nat) <? 7) with true in Hq.
  destruct Hq as [_ Hq]. exact Hq.
Defined.

(** Witness of X17. *)
Lemma posting_order_breaks_ties_witness :
  let ops := [opPostEvent 5 tt] in
  let l := stateOf (operateAll LoopInputs.idle ops (EventLoop 0 tt)) in
  let posted := postEvent 5 (Client tt) l in
  let earlier := mkTimedEvent 3 5 (Client tt) in
  let mine := mkTimedEvent 5 5 (Client tt) in
  5 <> 0 /\
  m_futureEvents l = [earlier] /\
  m_futureEvents posted.1 = [mine; earlier] /\
  extractTop (m_futureEvents posted.1) = Some (earlier, [mine]) /\
  forall x r, extractTop [mine; earlier] = Some (x, r) -> x <> mine.
Proof.
  intros ops l posted earlier mine.
  assert (Hd : 5 <> 0) by discriminate.
  assert (Hl : m_futureEvents l = [earlier]) by reflexivity.
  split; [exact Hd |]. split; [exact Hl |].
  destruct (posting_order_breaks_ties LoopInputs.idle 0 tt ops 5 tt Hd)
    as (Hq & _ & Hserved).
  split; [exact Hq |]. split; [vm_compute; reflexivity |].
  intros x r Htop.
  assert (Hin : In earlier (m_futureEvents l)) by (left; reflexivity).
  assert (Hne : m_eventId earlier <> EventId_max) by discriminate.
  destruct (Hserved earlier Hin Hne) as [_ Hnever].
  apply (Hnever eq_refl [mine; earlier] x r); [| exact Htop].
  right. left. reflexivity.
Defined.

End EventLoopMoreCases.

(** * Further properties of the publish/subscribe fabric *)

Module PubMore.
Import Pub PubFacts.

Section Consumer.

Context {Record_ Sub : Type}.
Variable notify : Sub -> string -> Record_ -> Sub * list (string * Callback).
Variable handle : nat -> Sub -> string -> Record_ -> Sub.

(** X18.  a subscriber may subscribe before the topic is announced.  The
    entry made by [subscribe] has no record yet; [getCreateEntry] later
    supplies the record and keeps the subscribed callback instead of
    installing its no-op lambda, leaves every other topic alone, and a
    publish then invokes the callback with that record, or does nothing
    at all when the callback is an empty [std::function]. *)
Theorem early_subscription_is_kept
  (dc : DirectConsumer Record_ Sub) topic cb data :
  m_entries dc !! topic = None ->
  let dc1 := subscribe topic cb dc in
  let dc2 := getCreateEntry topic data dc1 in
  m_entries dc1 !! topic = Some (mkEntry topic None cb) /\
  m_entries dc2 !! topic = Some (mkEntry topic (Some data) cb) /\
  (forall other, other <> topic ->
                 m_entries dc2 !! other = m_entries dc !! other) /\
  publish handle topic dc2 =
    if isNull cb then Some (dc2, [])
    else Some (withUpdatesReceived
                 (withSubscriber dc2
                    (invokeCallback handle cb (m_subscriber dc2) topic data))
                 true,
               [callCallback cb topic data]).
Proof.
  intros Hnone dc1 dc2.
  assert (H1 : m_entries dc1 !! topic = Some (mkEntry topic None cb)).
  { unfold dc1, subscribe. rewrite Hnone. simpl. apply lookup_insert_eq. }
  assert (H2 : m_entries dc2 !! topic = Some (mkEntry topic (Some data) cb)).
  { unfold dc2, getCreateEntry. rewrite H1. simpl. apply lookup_insert_eq. }
  split; [exact H1 |].
  split; [exact H2 |]. split.
  - intros other Hne. unfold dc2, getCreateEntry. rewrite H1. simpl.
    rewrite lookup_insert_ne by congruence.
    unfold dc1, subscribe. rewrite Hnone. simpl.
    rewrite lookup_insert_ne by congruence. reflexivity.
  - unfold publish. rewrite H2. simpl. destruct (isNull cb); reflexivity.
Qed.

End Consumer.

(** X19.  a consumer in front of a [CacheSubscriber] makes every record it
    is given retrievable from the cache under its topic, leaves the other
    cached topics alone, and is never subscribed to: [createEntry] gives
    the entry its record and changes no callback, so a new entry keeps
    the no-op lambda. *)
Theorem cache_holds_announced_records {R : Type}
  (dc : DirectConsumer R (gmap string R)) topic data :
  let result := createEntry CacheSubscriber_notify topic data dc in
  m_subscriber result.1 !! topic = Some data /\
  (forall other, other <> topic ->
                 m_subscriber result.1 !! other = m_subscriber dc !! other) /\
  result.2 = [callNotify topic data] /\
  exists e,
    m_entries result.1 !! topic = Some e /\
    m_data e = Some data /\
    m_callback e = match m_entries dc !! topic with
                   | Some e0 => m_callback e0
                   | None => NoOp
                   end.
Proof.
  intros result. unfold result, createEntry, CacheSubscriber_notify. simpl.
  split; [apply lookup_insert_eq |]. split.
  - intros other Hne. rewrite lookup_insert_ne by congruence. reflexivity.
  - split; [reflexivity |]. rewrite lookup_insert_eq.
    eexists. split; [reflexivity |].
    destruct (m_entries dc !! topic); split; reflexivity.
Qed.

End PubMore.

Module ProxyFacts.
Import ProxyModel.

Section Proxy.

Context {Record_ : Type}.

#[local] Abbreviation Px := (Proxy Record_).

Lemma lookupTopic_In topic (es : list (string * TopicEntry Record_)) e :
  lookupTopic topic es = Some e -> In (topic, e) es.
Proof.
  induction es as [| [k v] es IH]; simpl; [discriminate |].
  destruct (String.eqb k topic) eqn:E.
  - apply String.eqb_eq in E. intros H. inversion H; subst. left. reflexivity.
  - intros H. right. apply IH, H.
Qed.

Lemma lookupTopic_None topic (es : list (string * TopicEntry Record_)) :
  @lookupTopic Record_ topic es = None <-> ~ In topic (map fst es).
Proof.
  induction es as [| [k v] es IH]; simpl.
  - split; [intros _ [] | reflexivity].
  - destruct (String.eqb k topic) eqn:E.
    + apply String.eqb_eq in E. split; [discriminate | intros H].
      exfalso. apply H. left. exact E.
    + apply String.eqb_neq in E. rewrite IH. intuition.
Qed.

Lemma lookupTopic_app topic (es : list (string * TopicEntry Record_)) k v :
  lookupTopic topic (es ++ [(k, v)]) =
  match lookupTopic topic es with
  | Some e => Some e
  | None => if String.eqb k topic then Some v else None
  end.
Proof.
  induction es as [| [k' v'] es IH]; simpl; [reflexivity |].
  destruct (String.eqb k' topic); [reflexivity | exact IH].
Qed.

Lemma lookupTopic_map topic (es : list (string * TopicEntry Record_))
  (f : TopicEntry Record_ -> TopicEntry Record_) :
  lookupTopic topic (map (fun se => (fst se, f (snd se))) es) =
  option_map f (lookupTopic topic es).
Proof.
  induction es as [| [k v] es IH]; simpl; [reflexivity |].
  destruct (String.eqb k topic); [reflexivity | exact IH].
Qed.

Lemma map_emplace {A B : Type} (f : A -> B) w x l :
  map f (emplace w x l) = emplace w (f x) (map f l).
Proof. destruct w; simpl; [reflexivity | apply map_app]. Qed.

Lemma Aligned_operate op (px : Px) :
  Aligned px -> Aligned (operate op px).1.
Proof.
  unfold Aligned. intros H. destruct op as [topic record | p | p]; simpl.
  - unfold notify. destruct (lookupTopic topic (m_entries px)); simpl.
    + exact H.
    + apply List.Forall_app. split; [exact H |]. repeat constructor.
  - apply List.Forall_map. eapply List.Forall_impl; [| exact H].
    simpl. intros se Hse. now rewrite Hse.
  - apply List.Forall_map. eapply List.Forall_impl; [| exact H].
    simpl. intros se Hse. now rewrite Hse.
Qed.

Lemma Aligned_operateAll ops (px : Px) :
  Aligned px -> Aligned (operateAll ops px).1.
Proof.
  revert px. induction ops as [| op ops IH]; intros px H; simpl.
  - exact H.
  - pose proof (Aligned_operate op px H) as H1.
    destruct (operate op px) as [px1 calls1]. simpl in H1.
    specialize (IH px1 H1).
    destruct (operateAll ops px1) as [px2 calls2]. exact IH.
Qed.

(** X20.  whatever the order in which topics were announced and publishers
    added in front or behind, an update of any known topic is published
    to the downstream publishers in exactly the order in which
    [endOfBatch] then ends their batches: the order of [m_publishers]. *)
Theorem fanout_follows_publishers (ops : list (Operation Record_)) topic :
  let px := (operateAll ops newProxy).1 in
  In topic (topicsOf px) ->
  onUpdate topic px = map (fun p => callPublish p topic) (m_publishers px) /\
  endOfBatch px = map callEndBatch (m_publishers px).
Proof.
  intros px Hin. split; [| reflexivity].
  assert (HA : Aligned px).
  { apply Aligned_operateAll. constructor. }
  unfold onUpdate.
  destruct (lookupTopic topic (m_entries px)) as [e |] eqn:E.
  - apply lookupTopic_In in E. unfold Aligned in HA.
    rewrite List.Forall_forall in HA. specialize (HA _ E). simpl in HA.
    now rewrite HA.
  - apply lookupTopic_None in E. contradiction.
Qed.

(** X21.  [notify] acts on the first announcement of a topic only: it has
    every downstream publisher create its entry, in publisher order, and
    then subscribes upstream, once.  Announcing the topic again, with the
    same or another record, creates nothing, subscribes nothing and keeps
    the record of the first announcement. *)
Theorem notify_acts_once (px : Px) topic record record' :
  ~ In topic (topicsOf px) ->
  let first := notify topic record px in
  first.2 = map (fun p => callCreateEntry p topic record) (m_publishers px)
            ++ [callSubscribe topic] /\
  m_publishers first.1 = m_publishers px /\
  lookupTopic topic (m_entries first.1) =
    Some (mkTopicEntry (m_publishers px) record) /\
  notify topic record' first.1 = (first.1, []).
Proof.
  intros Hnew first. apply lookupTopic_None in Hnew.
  assert (Hl : lookupTopic topic (m_entries first.1) =
               Some (mkTopicEntry (m_publishers px) record)).
  { unfold first, notify. rewrite Hnew. simpl.
    rewrite lookupTopic_app, Hnew, String.eqb_refl. reflexivity. }
  unfold first at 1 2. unfold notify at 1 2. rewrite Hnew. simpl.
  split; [reflexivity |]. split; [reflexivity |]. split; [exact Hl |].
  unfold notify at 1. rewrite Hl. reflexivity.
Qed.


Lemma createdOf_app (a b : list (Call Record_)) :
  createdOf (a ++ b) = createdOf a ++ createdOf b.
Proof. unfold createdOf. apply flat_map_app. Qed.

Lemma createdOf_notify topic (record : Record_) ps :
  createdOf (map (fun p => callCreateEntry p topic record) ps
             ++ [callSubscribe topic]) =
  map (fun p => (p, topic)) ps.
Proof.
  rewrite createdOf_app. simpl. rewrite app_nil_r.
  induction ps as [| p ps IH]; simpl; [reflexivity | now rewrite IH].
Qed.

Lemma createdOf_add p (es : list (string * TopicEntry Record_)) :
  createdOf (map (fun se => callCreateEntry p (fst se) (te_record (snd se)))
                 es) =
  map (fun topic => (p, topic)) (map fst es).
Proof.
  induction es as [| [k v] es IH]; simpl; [reflexivity | now rewrite IH].
Qed.

Lemma NoDup_pair_l {A B : Type} (b : B) (l : list A) :
  List.NoDup l -> List.NoDup (map (fun a => (a, b)) l).
Proof.
  induction 1 as [| a l Hn Hd IH]; simpl; constructor; [| exact IH].
  rewrite in_map_iff. intros [x [Hx Hin]]. inversion Hx; subst. auto.
Qed.

Lemma NoDup_pair_r {A B : Type} (a : A) (l : list B) :
  List.NoDup l -> List.NoDup (map (fun b => (a, b)) l).
Proof.
  induction 1 as [| b l Hn Hd IH]; simpl; constructor; [| exact IH].
  rewrite in_map_iff. intros [x [Hx Hin]]. inversion Hx; subst. auto.
Qed.

Lemma in_emplace {A : Type} w (x y : A) l :
  In y (emplace w x l) <-> y = x \/ In y l.
Proof.
  destruct w; simpl.
  - intuition.
  - rewrite in_app_iff. simpl. intuition.
Qed.

Lemma NoDup_emplace {A : Type} w (x : A) l :
  ~ In x l -> List.NoDup l -> List.NoDup (emplace w x l).
Proof.
  intros Hx Hl. destruct w; simpl.
  - constructor; assumption.
  - apply List.NoDup_app; [exact Hl | repeat constructor; intros [] |].
    intros a Ha [Hax | []]. subst. contradiction.
Qed.

Lemma topicsOf_add w p (px : Px) : topicsOf (add w p px).1 = topicsOf px.
Proof. unfold add, topicsOf. cbn [fst m_entries]. now rewrite map_map. Qed.

Lemma Once_add w p (px : Px) calls :
  Once px calls -> ~ In p (m_publishers px) ->
  Once (add w p px).1 (calls ++ (add w p px).2).
Proof.
  intros [Ht Hp Hc Hall] Hfresh.
  assert (Hcreated : createdOf (calls ++ (add w p px).2) =
                     createdOf calls
                     ++ map (fun topic => (p, topic)) (topicsOf px)).
  { rewrite createdOf_app. unfold add. cbn [snd].
    now rewrite createdOf_add. }
  constructor; rewrite ?Hcreated, ?topicsOf_add.
  - exact Ht.
  - unfold add. cbn [fst m_publishers]. apply NoDup_emplace; assumption.
  - apply List.NoDup_app; [exact Hc | apply NoDup_pair_r, Ht |].
    intros [q t] Hq Hin. apply in_map_iff in Hin.
    destruct Hin as [x [Hx _]]. inversion Hx; subst.
    apply Hall in Hq. destruct Hq as [Hq _]. contradiction.
  - intros q t. unfold add at 1. cbn [fst m_publishers].
    rewrite in_app_iff, in_map_iff, Hall, in_emplace. split.
    + intros [[H1 H2] | [x [Hx Hin]]]; [tauto |].
      inversion Hx; subst. tauto.
    + intros [[H1 | H1] H2]; [| left; tauto].
      subst. right. exists t. tauto.
Qed.

Lemma Once_notify topic record (px : Px) calls :
  Once px calls ->
  Once (notify topic record px).1 (calls ++ (notify topic record px).2).
Proof.
  intros [Ht Hp Hc Hall]. unfold notify.
  destruct (lookupTopic topic (m_entries px)) as [e |] eqn:E; cbn [fst snd].
  - rewrite app_nil_r. constructor; assumption.
  - apply lookupTopic_None in E. fold (topicsOf px) in E.
    assert (Htopics : topicsOf
                        (mkProxy (m_entries px ++
                                    [(topic,
                                      mkTopicEntry (m_publishers px) record)])
                                 (m_publishers px)) =
                      topicsOf px ++ [topic]).
    { unfold topicsOf. cbn [m_entries]. now rewrite map_app. }
    constructor; rewrite ?createdOf_app, ?createdOf_notify, ?Htopics;
      cbn [m_publishers].
    + apply List.NoDup_app; [exact Ht | repeat constructor; intros [] |].
      intros a Ha [Hat | []]. subst. contradiction.
    + exact Hp.
    + rewrite <- createdOf_app, createdOf_notify.
      apply List.NoDup_app; [exact Hc | apply NoDup_pair_l, Hp |].
      intros [q t] Hq Hin. apply in_map_iff in Hin.
      destruct Hin as [x [Hx _]]. inversion Hx; subst.
      apply Hall in Hq. destruct Hq as [_ Hq]. contradiction.
    + intros q t. rewrite <- createdOf_app, createdOf_notify.
      rewrite !in_app_iff, in_map_iff, Hall. simpl. split.
      * intros [[H1 H2] | [x [Hx Hin]]]; [tauto |].
        inversion Hx; subst. tauto.
      * intros [H1 [H2 | [H2 | []]]]; [left; tauto |].
        subst. right. exists q. tauto.
Qed.

Lemma Once_operate op (px : Px) calls :
  Once px calls ->
  (forall p, In p (addedOf [op]) -> ~ In p (m_publishers px)) ->
  Once (operate op px).1 (calls ++ (operate op px).2).
Proof.
  intros HO Hnew. destruct op as [topic record | p | p]; cbn [operate].
  - apply Once_notify, HO.
  - apply Once_add; [exact HO | apply Hnew; left; reflexivity].
  - apply Once_add; [exact HO | apply Hnew; left; reflexivity].
Qed.

Lemma NoDup_app_disjoint {A} (l l' : list A) a :
  List.NoDup (l ++ l') -> In a l -> In a l' -> False.
Proof.
  induction l as [| b l IHl]; intros Hnd Ha Hq; [destruct Ha |].
  simpl in Hnd. inversion Hnd; subst.
  destruct Ha as [-> | Ha].
  - match goal with H : ~ In _ _ |- _ => apply H end.
    apply in_or_app. right. exact Hq.
  - apply IHl; assumption.
Qed.

Lemma Once_operateAll ops : forall (px : Px) calls,
  Once px calls ->
  List.NoDup (addedOf ops) ->
  (forall p, In p (addedOf ops) -> ~ In p (m_publishers px)) ->
  Once (operateAll ops px).1 (calls ++ (operateAll ops px).2).
Proof.
  induction ops as [| op ops IH]; intros px calls HO Hnd Hnew; simpl.
  - rewrite app_nil_r. exact HO.
  - assert (Hsplit : addedOf (op :: ops) = addedOf [op] ++ addedOf ops).
    { unfold addedOf. simpl. now rewrite app_nil_r. }
    rewrite Hsplit in Hnd, Hnew.
    pose proof (Once_operate op px calls HO
                  (fun p Hp => Hnew p (in_or_app _ _ _ (or_introl Hp)))) as H1.
    assert (Hpubs : forall q, In q (m_publishers (operate op px).1) ->
                              In q (addedOf [op]) \/ In q (m_publishers px)).
    { intros q. destruct op as [t r | p | p]; simpl.
      - unfold notify. destruct (lookupTopic t (m_entries px)); simpl; auto.
      - intros [H | H]; auto.
      - rewrite in_app_iff. simpl. intros [H | [H | []]]; auto. }
    destruct (operate op px) as [px1 calls1]. simpl in H1, Hpubs.
    specialize (IH px1 (calls ++ calls1) H1).
    destruct (operateAll ops px1) as [px2 calls2]. simpl in IH |- *.
    rewrite app_assoc. apply IH.
    + apply List.NoDup_app_remove_l in Hnd. exact Hnd.
    + intros q Hq Hin. destruct (Hpubs q Hin) as [Ha | Hb].
      * exact (NoDup_app_disjoint _ _ _ Hnd Ha Hq).
      * apply (Hnew q); [apply in_or_app; right; exact Hq | exact Hb].
Qed.


End Proxy.
End ProxyFacts.

Module PubMoreCases.
Import Flow Pub ProxyModel MorePubInputs PubMore ProxyFacts.

(** Witness of X18. *)
Lemma early_subscription_is_kept_witness :
  let dc2 := getCreateEntry "EUR/USD" Inputs.eurusd
               (subscribe "EUR/USD" (Handler 0) PubInputs.mdCachePub) in
  Pub.m_entries PubInputs.mdCachePub !! "EUR/USD" = None /\
  Pub.m_entries dc2 !! "EUR/USD" =
    Some (mkEntry "EUR/USD" (Some Inputs.eurusd) (Handler 0)).
Proof.
  intros dc2.
  assert (H : Pub.m_entries PubInputs.mdCachePub !! "EUR/USD" = None)
    by reflexivity.
  split; [exact H |].
  destruct (early_subscription_is_kept CacheSubscriber_handle
              PubInputs.mdCachePub "EUR/USD" (Handler 0) Inputs.eurusd H)
    as (_ & H2 & _).
  exact H2.
Defined.

(** Witness of X20. *)
Lemma fanout_follows_publishers_witness :
  let px := (ProxyModel.operateAll wiring newProxy).1 in
  In "EUR/USD" (topicsOf px) /\
  onUpdate "EUR/USD" px =
    [callPublish 0%nat "EUR/USD"; callPublish 1%nat "EUR/USD"].
Proof.
  intros px.
  assert (H : In "EUR/USD" (topicsOf px)) by (left; reflexivity).
  split; [exact H |].
  destruct (fanout_follows_publishers wiring "EUR/USD" H) as [Hu _].
  exact Hu.
Defined.

(** Witness of X21. *)
Lemma notify_acts_once_witness :
  let px := (addFront 0%nat (newProxy (Record_ := TopOfBook))).1 in
  let first := notify "EUR/USD" Inputs.eurusd px in
  ~ In "EUR/USD" (topicsOf px) /\
  first.2 = [callCreateEntry 0%nat "EUR/USD" Inputs.eurusd;
             callSubscribe "EUR/USD"] /\
  notify "EUR/USD" ReplayerInputs.usdjpy first.1 = (first.1, []).
Proof.
  intros px first.
  assert (H : ~ In "EUR/USD" (topicsOf px)) by (intros []).
  split; [exact H |].
  destruct (notify_acts_once px "EUR/USD" Inputs.eurusd
              ReplayerInputs.usdjpy H) as (Hc & _ & _ & Hagain).
  split; [exact Hc | exact Hagain].
Defined.



End PubMoreCases.

(** * Further properties of the market-data replayer *)

Module ReplayerMore.
Import Flow Replayer ReplayerRuns ReplayerFacts.

Lemma sameTime_afterSameTime t rs : sameTime t rs ++ afterSameTime t rs = rs.
Proof.
  induction rs as [| r rs IH]; simpl; [reflexivity |].
  destruct (timestamp r =? t); simpl; [now rewrite IH | reflexivity].
Qed.

Lemma afterSameTime_head t rs r rest :
  afterSameTime t rs = r :: rest -> timestamp r <> t.
Proof.
  induction rs as [| r0 rs IH]; simpl; [discriminate |].
  destruct (timestamp r0 =? t) eqn:E; [exact IH |].
  intros H. inversion H; subst. apply Z.eqb_neq, E.
Qed.

Lemma afterSameTime_Forall (P : NextLine -> Prop) t rs :
  Forall P rs -> Forall P (afterSameTime t rs).
Proof.
  induction 1 as [| r rs Hr Hrs IH]; simpl; [constructor |].
  destruct (timestamp r =? t); [exact IH | constructor; assumption].
Qed.

Lemma afterSameTime_length t rs :
  (length (afterSameTime t rs) <= length rs)%nat.
Proof.
  induction rs as [| r rs IH]; simpl; [lia |].
  destruct (timestamp r =? t); simpl; lia.
Qed.

Lemma afterSameTime_lookahead (s : Impl) :
  afterSameTime (getNextEventTime s) (lookaheadAndRest s) =
  afterSameTime (getNextEventTime s) (map ofLine (m_inputData s)).
Proof.
  unfold lookaheadAndRest, getNextEventTime. cbn [afterSameTime].
  now rewrite Z.eqb_refl.
Qed.

Lemma pending_live (s : Impl) :
  getNextEventTime s < TimestampNs_max -> pending s = lookaheadAndRest s.
Proof.
  intros H. unfold pending.
  now replace (getNextEventTime s <? TimestampNs_max) with true
    by (symmetry; apply Z.ltb_lt, H).
Qed.

Lemma pending_exhausted (s : Impl) :
  getNextEventTime s = TimestampNs_max -> pending s = [].
Proof. intros H. unfold pending. rewrite H. reflexivity. Qed.

Lemma follows_app calls1 : forall records calls2,
  follows records (calls1 ++ calls2) =
  match follows records calls1 with
  | Some records1 => follows records1 calls2
  | None => None
  end.
Proof.
  induction calls1 as [| c calls1 IH]; intros records calls2;
    [reflexivity |].
  destruct c as [sym b | sym b |]; cbn [app follows];
    [destruct (records !! sym) | destruct (records !! sym) |];
    try reflexivity; apply IH.
Qed.

Lemma publish_follows (s : Impl) :
  follows (m_records s) (publish s).2 = Some (m_records (publish s).1).
Proof.
  unfold publish.
  destruct (m_records s !! symbol (m_nextLine s)) eqn:E;
    cbn [fst snd follows m_records]; rewrite ?E.
  - reflexivity.
  - rewrite lookup_insert_eq, insert_insert_eq. reflexivity.
Qed.

Lemma readNextLine_records (s : Impl) :
  m_records (readNextLine s) = m_records s.
Proof. unfold readNextLine. destruct (m_inputData s); reflexivity. Qed.

Lemma doWhile_follows fuel t : forall (s s' : Impl) calls,
  doWhile fuel t s = Some (s', calls) ->
  follows (m_records s) calls = Some (m_records s').
Proof.
  induction fuel as [| fuel IH]; intros s s' calls; [discriminate |].
  rewrite doWhile_step.
  destruct (getNextEventTime (readNextLine (publish s).1) =? t).
  - destruct (doWhile fuel t (readNextLine (publish s).1))
      as [[s3 calls3] |] eqn:E; [| discriminate].
    intros H. inversion H; subst.
    rewrite follows_app, publish_follows.
    rewrite <- (readNextLine_records (publish s).1).
    apply IH, E.
  - intros H. inversion H; subst.
    rewrite publish_follows, readNextLine_records. reflexivity.
Qed.

(** One call of [dispatchNextEvent] on a replayer that is not
    exhausted. *)
Lemma dispatch_spec (s : Impl) :
  getNextEventTime s < TimestampNs_max ->
  exists s' calls,
    dispatchNextEvent s = Some (s', calls ++ [callEndBatch]) /\
    publishedOf calls =
      map key (sameTime (getNextEventTime s) (lookaheadAndRest s)) /\
    follows (m_records s) calls = Some (m_records s') /\
    match afterSameTime (getNextEventTime s) (lookaheadAndRest s) with
    | r :: rest => m_nextLine s' = r /\ map ofLine (m_inputData s') = rest
    | [] => getNextEventTime s' = TimestampNs_max /\ m_inputData s' = []
    end.
Proof.
  intros Ht. destruct s as [input records next].
  unfold dispatchNextEvent, dispatchNextEvent_fuel, lookaheadAndRest.
  cbn [m_inputData m_nextLine m_records].
  set (t := getNextEventTime (mkImpl input records next)) in *.
  replace (t <? TimestampNs_max) with true
    by (symmetry; apply Z.ltb_lt, Ht).
  destruct (doWhile_spec t Ht input records next (S (length input))
              ltac:(lia)) as (s' & calls & Hrun & Hpub & _ & Hafter).
  rewrite Hrun. exists s', calls. split; [reflexivity |].
  cbn [sameTime afterSameTime].
  replace (timestamp next =? t) with true
    by (symmetry; apply Z.eqb_eq; reflexivity).
  split; [exact Hpub |]. split; [| exact Hafter].
  apply (doWhile_follows _ _ _ _ _ Hrun).
Qed.

(** The replayer driven to the end: it stops, on the sentinel; the calls
    are such as a publisher expects; and unless a record carries the
    sentinel as its timestamp, all pending records were published. *)
Lemma replayAll_spec fuel : forall (s : Impl),
  (getNextEventTime s < TimestampNs_max ->
   (length (m_inputData s) < fuel)%nat) ->
  exists s' calls,
    replayAll fuel s = Some (s', calls) /\
    TimestampNs_max <= getNextEventTime s' /\
    follows (m_records s) calls = Some (m_records s') /\
    (Forall (fun r => timestamp r < TimestampNs_max) (pending s) ->
     publishedOf calls = map key (pending s)).
Proof.
  assert (Hidle : forall s : Impl,
             TimestampNs_max <= getNextEventTime s ->
             exists s' calls,
               Some (s, @nil Call) = Some (s', calls) /\
               TimestampNs_max <= getNextEventTime s' /\
               follows (m_records s) calls = Some (m_records s') /\
               (Forall (fun r => timestamp r < TimestampNs_max) (pending s) ->
                publishedOf calls = map key (pending s))).
  { intros s Hge. exists s, []. split; [reflexivity |].
    split; [exact Hge |]. split; [reflexivity |].
    intros _. unfold pending.
    replace (getNextEventTime s <? TimestampNs_max) with false
      by (symmetry; apply Z.ltb_ge, Hge).
    reflexivity. }
  induction fuel as [| fuel IH]; intros s Hfuel; cbn [replayAll];
    (destruct (getNextEventTime s <? TimestampNs_max) eqn:Elt;
     [apply Z.ltb_lt in Elt; specialize (Hfuel Elt)
     | apply Z.ltb_ge in Elt; apply Hidle, Elt]); [lia |].
  destruct (dispatch_spec s Elt) as (s1 & calls1 & Hrun & Hpub & Hfol & Haf).
  rewrite Hrun.
  assert (Hlen : getNextEventTime s1 < TimestampNs_max ->
                 (length (m_inputData s1) < fuel)%nat).
  { intros Hlive.
    rewrite afterSameTime_lookahead in Haf.
    pose proof (afterSameTime_length (getNextEventTime s)
                  (map ofLine (m_inputData s))) as Hl.
    rewrite length_map in Hl.
    destruct (afterSameTime (getNextEventTime s)
                (map ofLine (m_inputData s))) as [| r rest].
    - destruct Haf as [Hend _]. lia.
    - destruct Haf as [_ Hrest].
      apply (f_equal (@length _)) in Hrest.
      rewrite length_map in Hrest. cbn [length] in Hl. lia. }
  destruct (IH s1 Hlen) as (s2 & calls2 & Hrun2 & Hmax & Hfol2 & Hpub2).
  rewrite Hrun2. exists s2, ((calls1 ++ [callEndBatch]) ++ calls2).
  split; [reflexivity |]. split; [exact Hmax |]. split.
  - rewrite !follows_app, Hfol. exact Hfol2.
  - intros Hall. rewrite (pending_live s Elt) in Hall |- *.
    rewrite !publishedOf_app, Hpub.
    change (publishedOf [callEndBatch]) with (@nil (string * TopOfBook)).
    rewrite app_nil_r.
    transitivity
      (map key (sameTime (getNextEventTime s) (lookaheadAndRest s)
                ++ afterSameTime (getNextEventTime s) (lookaheadAndRest s)));
      [| now rewrite sameTime_afterSameTime].
    rewrite map_app. f_equal.
    pose proof (afterSameTime_Forall _ (getNextEventTime s) _ Hall) as Hrest.
    destruct (afterSameTime (getNextEventTime s) (lookaheadAndRest s))
      as [| r rest].
    + destruct Haf as [Hend _].
      rewrite (pending_exhausted s1 Hend) in Hpub2.
      apply Hpub2. constructor.
    + destruct Haf as [Hn Hi].
      assert (Hlive : getNextEventTime s1 < TimestampNs_max).
      { unfold getNextEventTime. rewrite Hn.
        inversion Hrest; subst. assumption. }
      assert (Hp : pending s1 = r :: rest).
      { rewrite (pending_live s1 Hlive). unfold lookaheadAndRest.
        now rewrite Hn, Hi. }
      rewrite Hp in Hpub2. apply Hpub2, Hrest.
Qed.

Lemma dropOlder_cons ts r rs :
  dropOlder ts (r :: rs) = if timestamp r <? ts then dropOlder ts rs else r :: rs.
Proof. reflexivity. Qed.

Lemma dropOlder_head ts rs r rest :
  dropOlder ts rs = r :: rest -> ts <= timestamp r.
Proof.
  induction rs as [| r0 rs IH]; simpl; [discriminate |].
  destruct (timestamp r0 <? ts) eqn:E; [exact IH |].
  intros H. inversion H; subst. apply Z.ltb_ge, E.
Qed.

Lemma skip_fuel_S fuel ts (s : Impl) :
  skip_fuel (S fuel) ts s =
  if getNextEventTime s <? ts then skip_fuel fuel ts (readNextLine s)
  else Some s.
Proof. reflexivity. Qed.

Lemma skip_fuel_stay fuel ts (s : Impl) :
  ts <= getNextEventTime s -> skip_fuel fuel ts s = Some s.
Proof.
  intros H. apply Z.ltb_ge in H.
  destruct fuel; cbn [skip_fuel]; rewrite H; reflexivity.
Qed.

Lemma skip_fuel_spec ts :
  ts <= TimestampNs_max ->
  forall input records next fuel,
    (length input < fuel)%nat ->
    exists s',
      skip_fuel fuel ts (mkImpl input records next) = Some s' /\
      m_records s' = records /\
      match dropOlder ts (next :: map ofLine input) with
      | r :: rest => m_nextLine s' = r /\ map ofLine (m_inputData s') = rest
      | [] => getNextEventTime s' = TimestampNs_max /\ m_inputData s' = []
      end.
Proof.
  intros Hts. induction input as [| line input IH];
    intros records next fuel Hf;
    (destruct fuel as [| fuel]; [simpl in Hf; lia |]);
    rewrite dropOlder_cons;
    (destruct (timestamp next <? ts) eqn:E;
     [| eexists; split;
        [apply skip_fuel_stay, Z.ltb_ge, E | repeat split]]);
    rewrite skip_fuel_S;
    change (getNextEventTime (mkImpl _ records next)) with (timestamp next);
    rewrite E; cbn [readNextLine m_inputData m_records m_nextLine].
  - eexists. split; [apply skip_fuel_stay, Hts | repeat split].
  - apply (IH records (ofLine line) fuel). simpl in Hf. lia.
Qed.

(** X24.  [skip(ts)] returns, publishes nothing and touches no stored
    record; it discards exactly the leading records stamped before [ts],
    so that the replayer's next event is not before [ts], and skipping to
    the same time again changes nothing. *)
Theorem skip_discards_older (ts : TimestampNs) (s : Impl) :
  ts <= TimestampNs_max ->
  exists s',
    skip ts s = Some s' /\
    m_records s' = m_records s /\
    ts <= getNextEventTime s' /\
    skip ts s' = Some s' /\
    match dropOlder ts (lookaheadAndRest s) with
    | r :: rest => m_nextLine s' = r /\ map ofLine (m_inputData s') = rest
    | [] => getNextEventTime s' = TimestampNs_max /\ m_inputData s' = []
    end.
Proof.
  intros Hts. destruct s as [input records next].
  destruct (skip_fuel_spec ts Hts input records next (S (length input))
              ltac:(lia)) as (s' & Hrun & Hrec & Hdrop).
  exists s'. split; [exact Hrun |]. split; [exact Hrec |].
  assert (Hle : ts <= getNextEventTime s').
  { unfold lookaheadAndRest in *. cbn [m_nextLine m_inputData] in *.
    clear Hrun.
    destruct (dropOlder ts (next :: map ofLine input)) as [| r rest] eqn:E.
    - destruct Hdrop as [Hmax _]. now rewrite Hmax.
    - destruct Hdrop as [Hn _]. unfold getNextEventTime. rewrite Hn.
      apply (dropOlder_head _ _ _ _ E). }
  split; [exact Hle |]. split; [| exact Hdrop].
  unfold skip. cbn [skip_fuel].
  replace (getNextEventTime s' <? ts) with false
    by (symmetry; apply Z.ltb_ge, Hle).
  reflexivity.
Qed.

(** X25.  a call of [dispatchNextEvent] on a replayer that is not exhausted
    never leaves the next event time where it was, so the event loop that
    reposts it makes progress; and when no pending record is stamped
    before the first one, as in a file ordered by time, the next event
    time moves strictly forward. *)
Theorem dispatchNextEvent_advances (s : Impl) :
  getNextEventTime s < TimestampNs_max ->
  exists s' calls,
    dispatchNextEvent s = Some (s', calls) /\
    getNextEventTime s' <> getNextEventTime s /\
    (Forall (fun r => getNextEventTime s <= timestamp r) (pending s) ->
     getNextEventTime s < getNextEventTime s').
Proof.
  intros Ht.
  destruct (dispatch_spec s Ht) as (s' & calls & Hrun & _ & _ & Haf).
  exists s', (calls ++ [callEndBatch]). split; [exact Hrun |].
  rewrite (pending_live s Ht).
  destruct (afterSameTime (getNextEventTime s) (lookaheadAndRest s))
    as [| r rest] eqn:E.
  - destruct Haf as [Hmax _]. rewrite Hmax. split; [lia |]. intros _. lia.
  - destruct Haf as [Hn _].
    assert (Hs' : getNextEventTime s' = timestamp r)
      by (unfold getNextEventTime; now rewrite Hn).
    rewrite Hs'.
    pose proof (afterSameTime_head _ _ _ _ E) as Hne.
    split; [exact Hne |].
    intros Hall.
    apply (afterSameTime_Forall _ (getNextEventTime s)) in Hall.
    rewrite E in Hall. inversion Hall; subst. lia.
Qed.

(** X26.  driven until it is exhausted, the replayer stops, and its calls
    are such as a publisher expects: [createEntry] is called for a symbol
    exactly when its first record is published, never again, every
    [publish] is on an entry created before, and the stored books are
    those published last. *)
Theorem replay_follows_protocol (s : Impl) :
  exists s' calls,
    replay s = Some (s', calls) /\
    pending s' = [] /\
    follows (m_records s) calls = Some (m_records s').
Proof.
  destruct (replayAll_spec (S (length (m_inputData s))) s ltac:(lia))
    as (s' & calls & Hrun & Hmax & Hfol & _).
  exists s', calls. split; [exact Hrun |]. split; [| exact Hfol].
  unfold pending.
  replace (getNextEventTime s' <? TimestampNs_max) with false
    by (symmetry; apply Z.ltb_ge, Hmax).
  reflexivity.
Qed.

(** X27.  unless a pending record carries the sentinel as its timestamp, the
    replayer driven until it is exhausted publishes every pending record,
    once, in the order of the stream. *)
Theorem replay_publishes_every_record (s : Impl) :
  Forall (fun r => timestamp r < TimestampNs_max) (pending s) ->
  exists s' calls,
    replay s = Some (s', calls) /\
    publishedOf calls = map key (pending s).
Proof.
  intros Hall.
  destruct (replayAll_spec (S (length (m_inputData s))) s ltac:(lia))
    as (s' & calls & Hrun & _ & _ & Hpub).
  exists s', calls. split; [exact Hrun | apply Hpub, Hall].
Qed.

End ReplayerMore.

Module ReplayerMoreCases.
Import Flow Replayer ReplayerRuns ReplayerInputs MoreReplayerInputs
       ReplayerMore.

(** Witness of X24. *)
Lemma skip_discards_older_witness :
  let s := newImpl three_lines in
  1500000000 <= TimestampNs_max /\
  exists s',
    skip 1500000000 s = Some s' /\
    m_nextLine s' = third_line /\ m_inputData s' = [].
Proof.
  intros s.
  assert (Hts : 1500000000 <= TimestampNs_max) by (vm_compute; discriminate).
  split; [exact Hts |].
  destruct (skip_discards_older 1500000000 s Hts)
    as (s' & Hrun & _ & _ & _ & Hdrop).
  exists s'. split; [exact Hrun |].
  assert (Hd : dropOlder 1500000000 (lookaheadAndRest s) = [third_line])
    by (vm_compute; reflexivity).
  rewrite Hd in Hdrop. destruct Hdrop as [Hn Hi].
  split; [exact Hn |]. destruct (m_inputData s'); [reflexivity | discriminate].
Defined.

(** Witness of X25. *)
Lemma dispatchNextEvent_advances_witness :
  let s := newImpl three_lines in
  getNextEventTime s < TimestampNs_max /\
  Forall (fun r => getNextEventTime s <= timestamp r) (pending s) /\
  exists s' calls,
    dispatchNextEvent s = Some (s', calls) /\
    getNextEventTime s < getNextEventTime s'.
Proof.
  intros s.
  assert (Ht : getNextEventTime s < TimestampNs_max)
    by (vm_compute; reflexivity).
  assert (Hall : Forall (fun r => getNextEventTime s <= timestamp r)
                        (pending s)).
  { assert (Hp : pending s = map ofLine three_lines)
      by (vm_compute; reflexivity).
    rewrite Hp. repeat constructor; vm_compute; discriminate. }
  split; [exact Ht |]. split; [exact Hall |].
  destruct (dispatchNextEvent_advances s Ht) as (s' & calls & Hrun & _ & Hlt).
  exists s', calls. split; [exact Hrun | exact (Hlt Hall)].
Defined.

(** Witness of X27. *)
Lemma replay_publishes_every_record_witness :
  let s := newImpl three_lines in
  Forall (fun r => timestamp r < TimestampNs_max) (pending s) /\
  exists s' calls,
    replay s = Some (s', calls) /\
    publishedOf calls =
      [("EUR/USD", Inputs.eurusd); ("USD/JPY", usdjpy);
       ("EUR/USD", Inputs.eurusd)].
Proof.
  intros s.
  assert (Hall : Forall (fun r => timestamp r < TimestampNs_max) (pending s)).
  { assert (Hp : pending s = map ofLine three_lines)
      by (vm_compute; reflexivity).
    rewrite Hp. repeat constructor. }
  split; [exact Hall |].
  destruct (replay_publishes_every_record s Hall) as (s' & calls & Hrun & Hpub).
  exists s', calls. split; [exact Hrun |].
  rewrite Hpub. vm_compute. reflexivity.
Defined.

End ReplayerMoreCases.
